(** * Step pipeline: entity store, scope resolver, transform engine, storage

    A shallow embedding of the TypeScript sources of the step-pipeline
    application (hooks [useSteps], [useLibrary], [useStepGroups],
    [usePipeline], the loader in [utils/storage.ts], and the older
    single-file [App.tsx] where it differs), followed by the properties
    proved about them. The embedding also covers the search filters
    ([useSearch]), the theme ([useTheme]), what [runPipeline] shows, and
    the wiring of the hooks in the application component: drag and drop,
    the effect that repairs the step selection, the ways into the library
    and the delayed deletion.

    Conventions of the embedding:
    - a JS array is a [list]; array indices and [findIndex] results are [Z]
      (negative values occur: [-1], out-of-range arguments);
    - [string | null] is [option string];
    - [Date.now()] and [crypto.randomUUID()] are read from two oracles
      through a small state monad, so that every call is a separate reading;
    - a parsed JSON object is a [gmap]; the [errors] record of the engine
      is a plain object, whose own properties are a [gmap] and whose
      property [__proto__] is kept apart;
    - user code ([new Function (..., step.code)]) is a parameter of the
      development: the engine is verified for every evaluator, which
      answers with the value returned or with what was thrown;
    - a call that can throw returns a [Completion]. *)

From Stdlib Require Import ZArith Lia Permutation DecimalString DecimalNat.
From stdpp Require Import base option list gmap strings.

Set Warnings "-register-all".

(* ================================================================== *)
(** ** JavaScript array primitives used by the sources *)
(* ================================================================== *)

Module JsArray.

(** The clamping that [Array.prototype.splice] and [slice] apply to a
    relative index: a negative index counts from the end, and the result
    is kept within [0 .. len]. *)
Definition relativeIndex (len i : Z) : Z :=
  if (i <? 0)%Z then Z.max (len + i) 0 else Z.min i len.

(** [l.splice(start, deleteCount, ...items)]: the removed elements and the
    array left behind. *)
Definition splice {A : Type} (start deleteCount : Z) (items l : list A)
  : list A * list A :=
  let len := Z.of_nat (length l) in
  let s := relativeIndex len start in
  let dc := Z.min (Z.max deleteCount 0) (len - s) in
  (take (Z.to_nat dc) (drop (Z.to_nat s) l),
   take (Z.to_nat s) l ++ items ++ drop (Z.to_nat s + Z.to_nat dc) l).

(** [l.slice(start)] ([stop = None]) and [l.slice(start, stop)]. *)
Definition slice {A : Type} (start : Z) (stop : option Z) (l : list A)
  : list A :=
  let len := Z.of_nat (length l) in
  let k := relativeIndex len start in
  let final := match stop with
               | None => len
               | Some e => relativeIndex len e
               end in
  take (Z.to_nat (final - k)) (drop (Z.to_nat k) l).

(** [l.findIndex(p)]: the first index whose element satisfies [p], or [-1]. *)
Definition findIndex {A : Type} (P : A → Prop) `{!∀ x, Decision (P x)}
  (l : list A) : Z :=
  match list_find P l with
  | Some (i, _) => Z.of_nat i
  | None => (-1)%Z
  end.

(** [l.find(p)]: the first element satisfying [p], [undefined] if none. *)
Definition find {A : Type} (P : A → Prop) `{!∀ x, Decision (P x)}
  (l : list A) : option A :=
  snd <$> list_find P l.

End JsArray.

(* ================================================================== *)
(** ** Entities ([types.ts]) *)
(* ================================================================== *)

Record Step := mkStep {
  step_id : string;
  step_title : string;
  step_code : string;
  step_muted : bool;
  step_createdAt : Z;
  step_updatedAt : Z;
}.

(** [inputText] is an optional field: [createGroup] does not set it,
    [updateGroupInputText] does. *)
Record StepGroup := mkGroup {
  group_id : string;
  group_title : string;
  group_steps : list Step;
  group_createdAt : Z;
  group_updatedAt : Z;
  group_inputText : option string;
}.

Record LibraryStep := mkLibraryStep {
  lib_id : string;
  lib_title : string;
  lib_code : string;
  lib_createdAt : Z;
  lib_updatedAt : Z;
}.

Inductive RunScope := ScopeAll | ScopeFrom | ScopeTo.

(* ================================================================== *)
(** ** Reordering ([moveStep] in [useSteps], [moveLibraryStep] in
       [useLibrary]: the two updaters have the same body) *)
(* ================================================================== *)

(** The state updater
    [prev => { const next = [...prev]; if (out of range) return next;
               const [moved] = next.splice(fromIndex, 1);
               next.splice(toIndex, 0, moved); return next }].
    Inside the guard the first [splice] always removes exactly one element
    (lemma [splice_one_in_range] below), so the branch where [moved] would
    be [undefined] is never taken; it leaves the array as the first
    [splice] left it. *)
Definition moveItem {A : Type} (fromIndex toIndex : Z) (prev : list A)
  : list A :=
  let next := prev in
  let len := Z.of_nat (length next) in
  if ((fromIndex <? 0) || (fromIndex >=? len)
      || (toIndex <? 0) || (toIndex >=? len))%Z
  then next
  else
    let '(removed, next1) := JsArray.splice fromIndex 1 [] next in
    match removed with
    | moved :: _ => snd (JsArray.splice toIndex 0 [moved] next1)
    | [] => next1
    end.

(** An index pair of which at least one is out of range for [l]. *)
Definition outOfRange {A : Type} (fromIndex toIndex : Z) (l : list A) : Prop :=
  (fromIndex < 0 ∨ Z.of_nat (length l) ≤ fromIndex
   ∨ toIndex < 0 ∨ Z.of_nat (length l) ≤ toIndex)%Z.

Definition inRange {A : Type} (fromIndex toIndex : Z) (l : list A) : Prop :=
  (0 ≤ fromIndex < Z.of_nat (length l)
   ∧ 0 ≤ toIndex < Z.of_nat (length l))%Z.

(** [l'] is [l] with the single element at [fromIndex] relocated to
    position [toIndex]: that element now sits at [toIndex], and apart from
    it the two sequences are the same. *)
Definition relocated {A : Type} (fromIndex toIndex : Z) (l l' : list A)
  : Prop :=
  is_Some (l !! Z.to_nat fromIndex)
  ∧ l' !! Z.to_nat toIndex = l !! Z.to_nat fromIndex
  ∧ delete (Z.to_nat toIndex) l' = delete (Z.to_nat fromIndex) l.

(* ================================================================== *)
(** ** Application state and its effects *)
(* ================================================================== *)

(** The React state cells of the hooks ([useStepGroups], [useSteps],
    [useLibrary]) together with the number of readings already taken from
    the clock and from the identifier source. *)
Record Store := mkStore {
  stepGroups : list StepGroup;
  selectedGroupId : option string;
  selectedStepId : option string;
  librarySteps : list LibraryStep;
  selectedLibraryStepId : option string;
  ticks : nat;
  uuids : nat;
}.

Definition emptyStore : Store := mkStore [] None None [] None 0 0.

Definition setStepGroups (v : list StepGroup) (st : Store) : Store :=
  mkStore v (selectedGroupId st) (selectedStepId st) (librarySteps st)
    (selectedLibraryStepId st) (ticks st) (uuids st).
Definition setSelectedGroupId (v : option string) (st : Store) : Store :=
  mkStore (stepGroups st) v (selectedStepId st) (librarySteps st)
    (selectedLibraryStepId st) (ticks st) (uuids st).
Definition setSelectedStepId (v : option string) (st : Store) : Store :=
  mkStore (stepGroups st) (selectedGroupId st) v (librarySteps st)
    (selectedLibraryStepId st) (ticks st) (uuids st).
Definition setLibrarySteps (v : list LibraryStep) (st : Store) : Store :=
  mkStore (stepGroups st) (selectedGroupId st) (selectedStepId st) v
    (selectedLibraryStepId st) (ticks st) (uuids st).
Definition setSelectedLibraryStepId (v : option string) (st : Store) : Store :=
  mkStore (stepGroups st) (selectedGroupId st) (selectedStepId st)
    (librarySteps st) v (ticks st) (uuids st).
Definition setTicks (v : nat) (st : Store) : Store :=
  mkStore (stepGroups st) (selectedGroupId st) (selectedStepId st)
    (librarySteps st) (selectedLibraryStepId st) v (uuids st).
Definition setUuids (v : nat) (st : Store) : Store :=
  mkStore (stepGroups st) (selectedGroupId st) (selectedStepId st)
    (librarySteps st) (selectedLibraryStepId st) (ticks st) v.

(** State-passing computations over the store. *)
Definition M (A : Type) : Type := Store → A * Store.

Definition ret {A : Type} (a : A) : M A := λ st, (a, st).
Definition bind {A B : Type} (c : M A) (k : A → M B) : M B :=
  λ st, k (c st).1 (c st).2.
Definition getStore : M Store := λ st, (st, st).
Definition modify (f : Store → Store) : M unit := λ st, (tt, f st).

Notation "x <- c ;; k" := (bind c (λ x, k))
  (at level 100, c at next level, right associativity).
Notation "c ;;; k" := (bind c (λ _, k))
  (at level 100, right associativity).

Fixpoint traverse {A B : Type} (f : A → M B) (l : list A) : M (list B) :=
  match l with
  | [] => ret []
  | x :: rest => y <- f x ;; ys <- traverse f rest ;; ret (y :: ys)
  end.

(** [`... ${index}`] for a positive array length. *)
Definition showNat (n : nat) : string := NilZero.string_of_uint (Nat.to_uint n).

Definition DEFAULT_CODE : string := "return input".

(** [Partial<Step>] and [Partial<LibraryStep>]: every field optional. *)
Record PartialStep := mkPartialStep {
  ps_id : option string;
  ps_title : option string;
  ps_code : option string;
  ps_muted : option bool;
  ps_createdAt : option Z;
  ps_updatedAt : option Z;
}.

Record PartialLibraryStep := mkPartialLibraryStep {
  pl_id : option string;
  pl_title : option string;
  pl_code : option string;
  pl_createdAt : option Z;
  pl_updatedAt : option Z;
}.

(** [{ ...step, ...updates, updatedAt: t }] *)
Definition mergeStep (step : Step) (updates : PartialStep) (t : Z) : Step :=
  mkStep (default (step_id step) (ps_id updates))
         (default (step_title step) (ps_title updates))
         (default (step_code step) (ps_code updates))
         (default (step_muted step) (ps_muted updates))
         (default (step_createdAt step) (ps_createdAt updates))
         t.

Definition mergeLibraryStep (step : LibraryStep) (updates : PartialLibraryStep)
  (t : Z) : LibraryStep :=
  mkLibraryStep (default (lib_id step) (pl_id updates))
                (default (lib_title step) (pl_title updates))
                (default (lib_code step) (pl_code updates))
                (default (lib_createdAt step) (pl_createdAt updates))
                t.

(** Derived values of the hooks. *)
Definition activeGroup (st : Store) : option StepGroup :=
  JsArray.find (λ group, selectedGroupId st = Some (group_id group))
    (stepGroups st).

Definition activeSteps (st : Store) : list Step :=
  default [] (group_steps <$> activeGroup st).

Definition selectedStep (st : Store) : option Step :=
  JsArray.find (λ step, selectedStepId st = Some (step_id step))
    (activeSteps st).

(* ================================================================== *)
(** ** Entity store: the operations of the three hooks *)
(* ================================================================== *)

Section EntityStore.

(** [clock n] is what the [n]-th call of [Date.now()] returns and
    [randomUUID n] what the [n]-th call of [crypto.randomUUID()] returns. *)
Variable clock : nat → Z.
Variable randomUUID : nat → string.

Definition dateNow : M Z :=
  λ st, (clock (ticks st), setTicks (S (ticks st)) st).
Definition cryptoRandomUUID : M string :=
  λ st, (randomUUID (uuids st), setUuids (S (uuids st)) st).

(** *** [utils/factories.ts] *)

Definition createStep (index : nat) : M Step :=
  i <- cryptoRandomUUID ;;
  c <- dateNow ;;
  u <- dateNow ;;
  ret (mkStep i ("title " +:+ showNat index) DEFAULT_CODE false c u).

Definition createGroup (index : nat) : M StepGroup :=
  i <- cryptoRandomUUID ;;
  c <- dateNow ;;
  u <- dateNow ;;
  ret (mkGroup i ("Group " +:+ showNat index) [] c u None).

Definition createLibraryStep (index : nat) (seed : option Step) : M LibraryStep :=
  i <- cryptoRandomUUID ;;
  c <- dateNow ;;
  u <- dateNow ;;
  ret (mkLibraryStep i
         (default ("Library Step " +:+ showNat index) (step_title <$> seed))
         (default DEFAULT_CODE (step_code <$> seed))
         c u).

(** *** [useStepGroups] *)

Definition addGroup : M unit :=
  st <- getStore ;;
  let prev := stepGroups st in
  g <- createGroup (length prev + 1) ;;
  let next := prev ++ [g] in
  modify (setSelectedGroupId (group_id <$> last next)) ;;;
  modify (setStepGroups next).

Definition updateGroupTitle (id title : string) : M unit :=
  st <- getStore ;;
  next <- traverse (λ group,
            if decide (group_id group = id) then
              t <- dateNow ;;
              ret (mkGroup (group_id group) title (group_steps group)
                     (group_createdAt group) t (group_inputText group))
            else ret group) (stepGroups st) ;;
  modify (setStepGroups next).

Definition deleteGroup (id : string) : M unit :=
  st <- getStore ;;
  let next := filter (λ group, group_id group ≠ id) (stepGroups st) in
  (if decide (selectedGroupId st = Some id)
   then modify (setSelectedGroupId (group_id <$> head next))
   else ret tt) ;;;
  modify (setStepGroups next).

Definition updateGroupInputText (id inputText : string) : M unit :=
  st <- getStore ;;
  next <- traverse (λ group,
            if decide (group_id group = id) then
              t <- dateNow ;;
              ret (mkGroup (group_id group) (group_title group)
                     (group_steps group) (group_createdAt group) t
                     (Some inputText))
            else ret group) (stepGroups st) ;;
  modify (setStepGroups next).

(** *** [useSteps] *)

(** [updateActiveSteps(updater)]: nothing without an active group; otherwise
    every group carrying the active group's id gets [updater(group.steps)]
    and a fresh [updatedAt]. *)
Definition updateGroupOf (active : StepGroup)
  (updater : list Step → M (list Step)) (group : StepGroup) : M StepGroup :=
  if decide (group_id group = group_id active) then
    steps <- updater (group_steps group) ;;
    t <- dateNow ;;
    ret (mkGroup (group_id group) (group_title group) steps
           (group_createdAt group) t (group_inputText group))
  else ret group.

Definition updateActiveSteps (updater : list Step → M (list Step)) : M unit :=
  st <- getStore ;;
  match activeGroup st with
  | None => ret tt
  | Some active =>
      next <- traverse (updateGroupOf active updater) (stepGroups st) ;;
      modify (setStepGroups next)
  end.

Definition addStep : M unit :=
  updateActiveSteps (λ prev,
    s <- createStep (length prev + 1) ;;
    let next := prev ++ [s] in
    modify (setSelectedStepId (step_id <$> last next)) ;;;
    ret next).

Definition updateStep (id : string) (updates : PartialStep) : M unit :=
  updateActiveSteps (λ prev,
    traverse (λ step,
      if decide (step_id step = id) then
        t <- dateNow ;; ret (mergeStep step updates t)
      else ret step) prev).

(** The comparison [selectedStepId === id] reads the selection of the render
    in which [deleteStep] was created, i.e. the one before the operation. *)
Definition deleteStep (id : string) : M unit :=
  st <- getStore ;;
  updateActiveSteps (λ prev,
    let next := filter (λ step, step_id step ≠ id) prev in
    (if decide (selectedStepId st = Some id)
     then modify (setSelectedStepId (step_id <$> head next))
     else ret tt) ;;;
    ret next).

Definition moveStep (fromIndex toIndex : Z) : M unit :=
  updateActiveSteps (λ prev, ret (moveItem fromIndex toIndex prev)).

(** *** [useLibrary] *)

Definition addLibraryStep : M unit :=
  st <- getStore ;;
  let prev := librarySteps st in
  s <- createLibraryStep (length prev + 1) None ;;
  modify (setLibrarySteps (prev ++ [s])).

Definition updateLibraryStep (id : string) (updates : PartialLibraryStep)
  : M unit :=
  st <- getStore ;;
  next <- traverse (λ step,
            if decide (lib_id step = id) then
              t <- dateNow ;; ret (mergeLibraryStep step updates t)
            else ret step) (librarySteps st) ;;
  modify (setLibrarySteps next).

Definition deleteLibraryStep (id : string) : M unit :=
  st <- getStore ;;
  modify (setLibrarySteps
            (filter (λ step, lib_id step ≠ id) (librarySteps st))) ;;;
  if decide (selectedLibraryStepId st = Some id)
  then modify (setSelectedLibraryStepId None)
  else ret tt.

Definition moveLibraryStep (fromIndex toIndex : Z) : M unit :=
  st <- getStore ;;
  modify (setLibrarySteps (moveItem fromIndex toIndex (librarySteps st))).

(** [saveStepToLibrary] of [useLibrary]: returns at once without an
    argument; otherwise the template is seeded from the active step that
    carries the argument's id, or from the argument itself. *)
Definition saveStepToLibrary (stepToSave : option Step) : M unit :=
  match stepToSave with
  | None => ret tt
  | Some given =>
      st <- getStore ;;
      let target :=
        default given
          (JsArray.find (λ s, step_id s = step_id given) (activeSteps st)) in
      let prev := librarySteps st in
      s <- createLibraryStep (length prev + 1) (Some target) ;;
      modify (setLibrarySteps (prev ++ [s]))
  end.

Definition addStepFromLibrary (libraryStep : LibraryStep) (index : option Z)
  : M unit :=
  updateActiveSteps (λ prev,
    i <- cryptoRandomUUID ;;
    c <- dateNow ;;
    u <- dateNow ;;
    let newStep :=
      mkStep i (lib_title libraryStep) (lib_code libraryStep) false c u in
    let next :=
      match index with
      | Some k => snd (JsArray.splice k 0 [newStep] prev)
      | None => prev ++ [newStep]
      end in
    modify (setSelectedStepId (Some (step_id newStep))) ;;;
    ret next).

(** *** [saveStepToLibrary] of the single-file [App.tsx]:
    [const target = stepToSave ?? selectedStep; if (!target) return]. *)
Definition saveStepToLibrary_App (stepToSave : option Step) : M unit :=
  st <- getStore ;;
  match (match stepToSave with Some s => Some s | None => selectedStep st end)
  with
  | None => ret tt
  | Some target =>
      let prev := librarySteps st in
      s <- createLibraryStep (length prev + 1) (Some target) ;;
      modify (setLibrarySteps (prev ++ [s]))
  end.

(** *** Sequences of operations *)

Inductive Op :=
| AddGroup
| UpdateGroupTitle (id title : string)
| DeleteGroup (id : string)
| UpdateGroupInputText (id inputText : string)
| SetSelectedGroupId (id : option string)
| AddStep
| UpdateStep (id : string) (updates : PartialStep)
| DeleteStep (id : string)
| MoveStep (fromIndex toIndex : Z)
| SetSelectedStepId (id : option string)
| AddLibraryStep
| UpdateLibraryStep (id : string) (updates : PartialLibraryStep)
| DeleteLibraryStep (id : string)
| MoveLibraryStep (fromIndex toIndex : Z)
| SaveStepToLibrary (stepToSave : option Step)
| AddStepFromLibrary (libraryStep : LibraryStep) (index : option Z)
| SetSelectedLibraryStepId (id : option string).

Definition perform (op : Op) : M unit :=
  match op with
  | AddGroup => addGroup
  | UpdateGroupTitle id title => updateGroupTitle id title
  | DeleteGroup id => deleteGroup id
  | UpdateGroupInputText id inputText => updateGroupInputText id inputText
  | SetSelectedGroupId id => modify (setSelectedGroupId id)
  | AddStep => addStep
  | UpdateStep id updates => updateStep id updates
  | DeleteStep id => deleteStep id
  | MoveStep fromIndex toIndex => moveStep fromIndex toIndex
  | SetSelectedStepId id => modify (setSelectedStepId id)
  | AddLibraryStep => addLibraryStep
  | UpdateLibraryStep id updates => updateLibraryStep id updates
  | DeleteLibraryStep id => deleteLibraryStep id
  | MoveLibraryStep fromIndex toIndex => moveLibraryStep fromIndex toIndex
  | SaveStepToLibrary stepToSave => saveStepToLibrary stepToSave
  | AddStepFromLibrary libraryStep index => addStepFromLibrary libraryStep index
  | SetSelectedLibraryStepId id => modify (setSelectedLibraryStepId id)
  end.

(** The store after an operation, and after a sequence of them. *)
Definition exec (c : M unit) (st : Store) : Store := (c st).2.

Definition performAll (ops : list Op) (st : Store) : Store :=
  foldl (λ acc op, exec (perform op) acc) st ops.

End EntityStore.

(* ================================================================== *)
(** ** Vocabulary for the timestamp properties *)
(* ================================================================== *)

(** The three kinds of entity that carry timestamps. *)
Inductive Entity :=
| StepEntity (s : Step)
| GroupEntity (g : StepGroup)
| LibraryEntity (l : LibraryStep).

Definition createdAtOf (e : Entity) : Z :=
  match e with
  | StepEntity s => step_createdAt s
  | GroupEntity g => group_createdAt g
  | LibraryEntity l => lib_createdAt l
  end.

Definition updatedAtOf (e : Entity) : Z :=
  match e with
  | StepEntity s => step_updatedAt s
  | GroupEntity g => group_updatedAt g
  | LibraryEntity l => lib_updatedAt l
  end.

Definition groupEntities (groups : list StepGroup) : list Entity :=
  (GroupEntity <$> groups) ++ (StepEntity <$> (groups ≫= group_steps)).

(** Every group, every step of every group, and every library step. *)
Definition entities (st : Store) : list Entity :=
  groupEntities (stepGroups st) ++ (LibraryEntity <$> librarySteps st).

Definition clockMonotone (clock : nat → Z) : Prop :=
  ∀ i j : nat, (i ≤ j)%nat → (clock i ≤ clock j)%Z.

(** [t] is one of the clock readings number [lo], ..., [hi - 1]. *)
Definition readBetween (clock : nat → Z) (lo hi : nat) (t : Z) : Prop :=
  ∃ n : nat, (lo ≤ n < hi)%nat ∧ t = clock n.

(** [t] was read from the clock while going from [st] to [st']. *)
Definition stampedDuring (clock : nat → Z) (st st' : Store) (t : Z) : Prop :=
  readBetween clock (ticks st) (ticks st') t.

(** The operations whose payload does not overwrite [createdAt]. *)
Definition keepsCreatedAt (op : Op) : Prop :=
  match op with
  | UpdateStep _ updates => ps_createdAt updates = None
  | UpdateLibraryStep _ updates => pl_createdAt updates = None
  | _ => True
  end.

(** The operations of [useSteps] and [useLibrary] that change the active
    group's steps. *)
Definition isStepMutation (op : Op) : Prop :=
  match op with
  | AddStep | UpdateStep _ _ | DeleteStep _ | MoveStep _ _
  | AddStepFromLibrary _ _ => True
  | _ => False
  end.

(** The timestamps [(c, u)] of an entity made or touched between the
    clock readings [lo] and [hi]: [u] is one of these readings, and, when
    the operation keeps [createdAt], [c] is an earlier [createdAt] (one of
    [olds]) or a reading not later than [u]'s. *)
Definition freshStamp (clock : nat → Z) (lo hi : nat) (keeps : Prop)
  (olds : list Z) (c u : Z) : Prop :=
  ∃ n : nat, (lo ≤ n < hi)%nat ∧ u = clock n
    ∧ (keeps → c ∈ olds ∨ ∃ m : nat, (lo ≤ m ≤ n)%nat ∧ c = clock m).

Definition freshEntity (clock : nat → Z) (lo hi : nat) (keeps : Prop)
  (olds : list Entity) (e : Entity) : Prop :=
  freshStamp clock lo hi keeps (createdAtOf <$> olds)
    (createdAtOf e) (updatedAtOf e).

(** Relations between a step and its successor, a step list and its
    successor, a group and its successor, read over the clock window
    [lo .. hi). *)

Definition stepRel (clock : nat → Z) (lo hi : nat) (keeps : Prop) (s s' : Step) : Prop :=
  s' = s
  ∨ (readBetween clock lo hi (step_updatedAt s')
     ∧ (keeps → step_createdAt s' = step_createdAt s)).

Definition stepsRel (clock : nat → Z) (lo hi : nat) (keeps : Prop) (prev next : list Step)
  : Prop :=
  ∀ s', s' ∈ next →
    s' ∈ prev
    ∨ freshStamp clock lo hi keeps (step_createdAt <$> prev)
        (step_createdAt s') (step_updatedAt s').

Definition groupRel (clock : nat → Z) (lo hi : nat) (keeps : Prop) (g g' : StepGroup) : Prop :=
  g' = g
  ∨ (group_createdAt g' = group_createdAt g
     ∧ readBetween clock lo hi (group_updatedAt g')
     ∧ stepsRel clock lo hi keeps (group_steps g) (group_steps g')).

Definition libRel (clock : nat → Z) (lo hi : nat) (keeps : Prop) (l l' : LibraryStep) : Prop :=
  l' = l
  ∨ (readBetween clock lo hi (lib_updatedAt l')
     ∧ (keeps → lib_createdAt l' = lib_createdAt l)).

(** What every updater passed to [updateActiveSteps] satisfies: it leaves
    the group selection and the library alone, never turns the clock
    back, and relates the step list it returns to the one it was given. *)
Definition updaterSpec (clock : nat → Z) (keeps : Prop)
  (updater : list Step → M (list Step)) : Prop :=
  ∀ prev s,
    selectedGroupId (updater prev s).2 = selectedGroupId s
    ∧ librarySteps (updater prev s).2 = librarySteps s
    ∧ (ticks s ≤ ticks (updater prev s).2)%nat
    ∧ stepsRel clock (ticks s) (ticks (updater prev s).2) keeps prev
        (updater prev s).1.

(** What an operation does to the timestamps: the clock is not turned
    back, and every entity of the new store is an entity of the old one
    or carries fresh timestamps. *)
Definition stampSpec (clock : nat → Z) (keeps : Prop) (st st' : Store)
  : Prop :=
  (ticks st ≤ ticks st')%nat
  ∧ ∀ e, e ∈ entities st' →
      e ∈ entities st
      ∨ freshEntity clock (ticks st) (ticks st') keeps (entities st) e.

(** [updateStep(id, updates)] on one step, seen from outside: a step
    carrying [id] becomes the merge of itself with [updates], stamped with
    a reading of the window; any other step is unchanged. *)
Definition refreshed (clock : nat → Z) (id : string) (updates : PartialStep)
  (lo hi : nat) (s s' : Step) : Prop :=
  if decide (step_id s = id)
  then ∃ t, readBetween clock lo hi t ∧ s' = mergeStep s updates t
  else s' = s.

(** Every entity is ordered and not ahead of the clock. *)
Definition wellStamped (clock : nat → Z) (st : Store) : Prop :=
  ∀ e, e ∈ entities st →
    (createdAtOf e ≤ updatedAtOf e)%Z
    ∧ ∀ n : nat, (ticks st ≤ n)%nat → (updatedAtOf e ≤ clock n)%Z.

Definition timestampsOrdered (st : Store) : Prop :=
  ∀ e, e ∈ entities st → (createdAtOf e ≤ updatedAtOf e)%Z.

(* ================================================================== *)
(** ** Transform engine and scope resolver ([usePipeline], [App.tsx]) *)
(* ================================================================== *)

(** Values a step function can hand back or throw, as far as the program
    looks at them: it tests for [null]/[undefined], converts with
    [String()] or inside a template literal, and asks a thrown value
    whether it is an [Error].
    [JsOther text] stands for any other value (number, object, ...) whose
    conversion yields [text]; [JsUnprintable raised] for a value whose
    conversion raises [raised] (an object without a usable [toString], or
    whose [toString] throws); [JsSymbol text raised] for a symbol, which
    [String()] converts to [text] where a template literal raises
    [raised].
    [Thrown] is what a [catch] clause receives: an instance of [Error],
    seen through its [message] property, or any other thrown value. The
    [message] of an [Error] is a string, [ThrownError message], unless the
    step function made it something else: any value,
    [ThrownErrorHolding message], or a getter that raises,
    [ThrownErrorUnreadable raised]. *)
Inductive JsValue :=
| JsUndefined
| JsNull
| JsBoolean (b : bool)
| JsString (s : string)
| JsOther (text : string)
| JsUnprintable (raised : Thrown)
| JsSymbol (text : string) (raised : Thrown)
with Thrown :=
| ThrownError (message : string)
| ThrownValue (v : JsValue)
| ThrownErrorHolding (message : JsValue)
| ThrownErrorUnreadable (raised : Thrown).

Inductive Completion (A : Type) :=
| Normal (a : A)
| Throw (error : Thrown).
Arguments Normal {A} a.
Arguments Throw {A} error.

(** [String(v)] *)
Definition toJsString (v : JsValue) : Completion string :=
  match v with
  | JsUndefined => Normal "undefined"
  | JsNull => Normal "null"
  | JsBoolean true => Normal "true"
  | JsBoolean false => Normal "false"
  | JsString s => Normal s
  | JsOther text => Normal text
  | JsUnprintable raised => Throw raised
  | JsSymbol text _ => Normal text
  end.

(** [`${v}`]: the conversion of [String()], but for a symbol. *)
Definition toTemplateString (v : JsValue) : Completion string :=
  match v with
  | JsSymbol _ raised => Throw raised
  | _ => toJsString v
  end.

(** [v ?? d] *)
Definition nullishOr (v d : JsValue) : JsValue :=
  match v with
  | JsUndefined | JsNull => d
  | _ => v
  end.

(** [utils/helpers.ts]:
    [error instanceof Error ? error.message : String(error)]. The result
    is declared a string; it is whatever [message] holds. *)
Definition getErrorMessage (error : Thrown) : Completion JsValue :=
  match error with
  | ThrownError message => Normal (JsString message)
  | ThrownErrorHolding message => Normal message
  | ThrownErrorUnreadable raised => Throw raised
  | ThrownValue v =>
      match toJsString v with
      | Normal text => Normal (JsString text)
      | Throw raised => Throw raised
      end
  end.

(** The record [errors], a plain object created by [{}]. [ownEntries] are
    its own properties. One property name is special: [__proto__] is an
    accessor inherited from [Object.prototype], so an assignment to it
    creates no property; [protoAssigned] keeps the value handed to the
    setter (which makes it the prototype of the record when it is an
    object, removes the prototype when it is [null], and ignores it
    otherwise). *)
Record JsRecord := mkRecord {
  ownEntries : gmap string JsValue;
  protoAssigned : option JsValue;
}.

(** [{}] *)
#[global] Instance JsRecord_empty : Empty JsRecord := mkRecord ∅ None.

Definition PROTO : string := "__proto__".

(** The record after [const errors = {}; errors[key] = value]. *)
Definition errorsWith (key : string) (value : JsValue) : JsRecord :=
  if decide (key = PROTO) then mkRecord ∅ (Some value)
  else mkRecord {[ key := value ]} None.

Record ExecResult := mkExecResult {
  output : string;
  errors : JsRecord;
  failedStep : option Step;
}.

(** [!anchor] for [anchor : string | null | undefined]. *)
Definition falsy (anchor : option string) : bool :=
  match anchor with
  | None => true
  | Some s => bool_decide (s = "")
  end.

(** [resolveScopeSteps] of [usePipeline]. *)
Definition resolveScopeSteps (activeSteps : list Step) (scope : RunScope)
  (anchorId : option string) : list Step :=
  match scope with
  | ScopeAll => activeSteps
  | _ =>
      let anchor := anchorId in
      if falsy anchor then activeSteps
      else
        let anchorIndex :=
          JsArray.findIndex (λ step, Some (step_id step) = anchor) activeSteps in
        if (anchorIndex <? 0)%Z then activeSteps
        else
          match scope with
          | ScopeFrom => JsArray.slice anchorIndex None activeSteps
          | _ => JsArray.slice 0 (Some (anchorIndex + 1)%Z) activeSteps
          end
  end.

(** [resolveScopeSteps] of the single-file [App.tsx]; it differs in one
    line: [const anchor = anchorId ?? selectedStep?.id]. *)
Definition resolveScopeSteps_App (activeSteps : list Step)
  (selectedStep : option Step) (scope : RunScope) (anchorId : option string)
  : list Step :=
  match scope with
  | ScopeAll => activeSteps
  | _ =>
      let anchor :=
        match anchorId with
        | Some a => Some a
        | None => step_id <$> selectedStep
        end in
      if falsy anchor then activeSteps
      else
        let anchorIndex :=
          JsArray.findIndex (λ step, Some (step_id step) = anchor) activeSteps in
        if (anchorIndex <? 0)%Z then activeSteps
        else
          match scope with
          | ScopeFrom => JsArray.slice anchorIndex None activeSteps
          | _ => JsArray.slice 0 (Some (anchorIndex + 1)%Z) activeSteps
          end
  end.

Section TransformEngine.

(** [callFunction code input] is the completion of
    [new Function('input', 'helpers', code)(input, helpers)]: the value
    returned, or what was thrown (by the constructor on a syntax error, or
    by the body). *)
Variable callFunction : string → string → Completion JsValue.

(** The body of the [try] block for one step. *)
Definition tryStep (step : Step) (current : string) : Completion string :=
  match callFunction (step_code step) current with
  | Normal result => toJsString (nullishOr result (JsString ""))
  | Throw error => Throw error
  end.

(** The [for (const step of pipeline)] loop with [current] as it stands on
    entry ([errors] is still empty whenever the loop is running). An
    exception raised inside the [catch] clause, by [getErrorMessage], is
    not caught by anything: it is the completion of the whole call. *)
Fixpoint runSteps (current : string) (pipeline : list Step)
  : Completion ExecResult :=
  match pipeline with
  | [] => Normal (mkExecResult current ∅ None)
  | step :: rest =>
      if step_muted step then runSteps current rest
      else
        match tryStep step current with
        | Normal next => runSteps next rest
        | Throw error =>
            match getErrorMessage error with
            | Normal message =>
                Normal (mkExecResult current (errorsWith (step_id step) message)
                          (Some step))
            | Throw raised => Throw raised
            end
        end
  end.

Definition executePipeline (inputText : string) (activeSteps : list Step)
  (scope : RunScope) (anchorId : option string) : Completion ExecResult :=
  runSteps inputText (resolveScopeSteps activeSteps scope anchorId).

Definition executePipeline_App (inputText : string) (activeSteps : list Step)
  (selectedStep : option Step) (scope : RunScope) (anchorId : option string)
  : Completion ExecResult :=
  runSteps inputText
    (resolveScopeSteps_App activeSteps selectedStep scope anchorId).

(** *** Vocabulary of the specification *)

(** The transform of a step: what its [try] block turns the running value
    into (the value is kept where the step fails). *)
Definition transformOf (step : Step) (current : string) : string :=
  match tryStep step current with
  | Normal next => next
  | Throw _ => current
  end.

Definition unmuted (steps : list Step) : list Step :=
  filter (λ step, step_muted step = false) steps.

(** Left fold of the transforms, in list order. *)
Definition foldTransforms (input : string) (steps : list Step) : string :=
  foldl (λ acc step, transformOf step acc) input steps.

(** No step of [steps] fails when they are run in order from [current]. *)
Fixpoint allSucceed (current : string) (steps : list Step) : Prop :=
  match steps with
  | [] => True
  | step :: rest =>
      match tryStep step current with
      | Normal next => allSucceed next rest
      | Throw _ => False
      end
  end.

(** What a result says of the run that returned it, [steps] being the
    non-muted steps run from [input]. Without a failed step: no step
    failed, the output is the fold of the transforms and the error record
    is [{}]. With a failed step: it is one of the steps, those before it
    succeeded, the output is the fold of their transforms, the step threw
    on that output, and the error record is [{}] after the one assignment
    of the message obtained from what was thrown. *)
Definition accountsFor (input : string) (steps : list Step)
  (result : ExecResult) : Prop :=
  match failedStep result with
  | None =>
      errors result = ∅
      ∧ allSucceed input steps
      ∧ output result = foldTransforms input steps
  | Some failed =>
      ∃ (n : nat) error message,
        steps !! n = Some failed
        ∧ allSucceed input (take n steps)
        ∧ output result = foldTransforms input (take n steps)
        ∧ tryStep failed (output result) = Throw error
        ∧ getErrorMessage error = Normal message
        ∧ errors result = errorsWith (step_id failed) message
  end.

End TransformEngine.

(* ================================================================== *)
(** ** Persistence ([utils/storage.ts] and the save effect of the app) *)
(* ================================================================== *)

(** Parsed JSON, i.e. the values [JSON.parse] returns. Objects are finite
    maps from property names; numbers are the integers (the version and
    the timestamps are the only numbers this program stores). *)
Inductive Json :=
| JNull
| JBool (b : bool)
| JNum (n : Z)
| JStr (s : string)
| JArr (items : list Json)
| JObj (props : gmap string Json).

(** What [localStorage.getItem(STORAGE_KEY)] and [JSON.parse] make of the
    stored entry. *)
Inductive StoredItem :=
| ItemUnreadable          (* getItem throws *)
| ItemMissing             (* getItem returns null *)
| ItemEmpty               (* the empty string *)
| ItemMalformed           (* a non-empty string JSON.parse rejects *)
| ItemJson (parsed : Json).

Definition STORAGE_VERSION : Z := 1.

(** The object [loadStoredState] returns. Its static type is
    [StoredState], but nothing below the top level is validated, so the
    fields hold whatever was parsed. *)
Record LoadedState := mkLoaded {
  loaded_version : Z;
  loaded_stepGroups : list Json;
  loaded_selectedGroupId : Json;
  loaded_selectedStepId : Json;
  loaded_librarySteps : list Json;
}.

Definition emptyLoaded : LoadedState :=
  mkLoaded STORAGE_VERSION [] JNull JNull [].

(** Truthiness. *)
Definition truthy (v : Json) : bool :=
  match v with
  | JNull => false
  | JBool b => b
  | JNum n => negb (n =? 0)%Z
  | JStr s => negb (bool_decide (s = ""))
  | JArr _ | JObj _ => true
  end.

(** [v.name] for the property names the loader reads ([version],
    [stepGroups], [selectedGroupId], [selectedStepId], [librarySteps],
    [inputText]; none of them is a built-in property of an array, string,
    number or boolean). The outer [None] is the [TypeError] of reading a
    property of [null]; [Some None] is [undefined]. *)
Definition getProp (v : Json) (name : string) : option (option Json) :=
  match v with
  | JNull => None
  | JObj props => Some (props !! name)
  | _ => Some None
  end.

(** [x ?? d] on the result of a property read. *)
Definition orElse (x : option Json) (d : Json) : Json :=
  match x with
  | None | Some JNull => d
  | Some v => v
  end.

(** The own enumerable properties copied by [{ ...v }]. *)
Definition ownProps (v : Json) : gmap string Json :=
  match v with
  | JObj props => props
  | JArr items => list_to_map (imap (λ i x, (showNat i, x)) items)
  | JStr s =>
      list_to_map
        (imap (λ i c, (showNat i, JStr (String.String c String.EmptyString)))
           (String.list_ascii_of_string s))
  | _ => ∅
  end.

(** [group => ({ ...group, inputText: group.inputText ?? '' })];
    [None] when it throws. *)
Definition withInputText (group : Json) : option Json :=
  inputText ← getProp group "inputText";
  Some (JObj (<["inputText" := orElse inputText (JStr "")]> (ownProps group))).

(** The object [withInputText] makes of a group that is not [null]. *)
Definition defaultedGroup (group : Json) : Json :=
  JObj (<["inputText" := orElse (default None (getProp group "inputText"))
                           (JStr "")]> (ownProps group)).

Definition arrayItems (x : option Json) : option (list Json) :=
  match x with
  | Some (JArr items) => Some items
  | _ => None
  end.

(** [loadStoredState]. Every exception inside the [try] ends in the
    [catch] clause, which returns the empty state. *)
Definition loadStoredState (item : StoredItem) : LoadedState :=
  match item with
  | ItemUnreadable => emptyLoaded
  | ItemMissing | ItemEmpty => emptyLoaded
  | ItemMalformed => emptyLoaded
  | ItemJson parsed =>
      if negb (truthy parsed) then emptyLoaded
      else
        match getProp parsed "version" with
        | Some (Some (JNum v)) =>
            if negb (v =? STORAGE_VERSION)%Z then emptyLoaded
            else
              let groups :=
                match arrayItems (default None (getProp parsed "stepGroups")) with
                | Some items => mapM withInputText items
                | None => Some []
                end in
              match groups with
              | None => emptyLoaded
              | Some stepGroups =>
                  mkLoaded STORAGE_VERSION stepGroups
                    (orElse (default None (getProp parsed "selectedGroupId")) JNull)
                    (orElse (default None (getProp parsed "selectedStepId")) JNull)
                    (default []
                       (arrayItems (default None (getProp parsed "librarySteps"))))
              end
        | _ => emptyLoaded
        end
  end.

(** *** The save effect *)

(** [StoredState] as the application builds it. *)
Record StoredState := mkStored {
  stored_stepGroups : list StepGroup;
  stored_selectedGroupId : option string;
  stored_selectedStepId : option string;
  stored_librarySteps : list LibraryStep;
}.

Definition storedStateOf (st : Store) : StoredState :=
  mkStored (stepGroups st) (selectedGroupId st) (selectedStepId st)
    (librarySteps st).

(** The JS values of the entities. [JSON.stringify] followed by
    [JSON.parse] reproduces them: every field is a string, a boolean, an
    integer, [null], an array or an object, and an absent [inputText] is
    simply not written. *)
Definition jsStep (s : Step) : Json :=
  JObj (list_to_map
    [("id", JStr (step_id s)); ("title", JStr (step_title s));
     ("code", JStr (step_code s)); ("muted", JBool (step_muted s));
     ("createdAt", JNum (step_createdAt s));
     ("updatedAt", JNum (step_updatedAt s))]).

Definition jsGroup (g : StepGroup) : Json :=
  JObj (list_to_map
    ([("id", JStr (group_id g)); ("title", JStr (group_title g));
      ("steps", JArr (jsStep <$> group_steps g));
      ("createdAt", JNum (group_createdAt g));
      ("updatedAt", JNum (group_updatedAt g))]
     ++ match group_inputText g with
        | Some text => [("inputText", JStr text)]
        | None => []
        end)).

Definition jsLibraryStep (s : LibraryStep) : Json :=
  JObj (list_to_map
    [("id", JStr (lib_id s)); ("title", JStr (lib_title s));
     ("code", JStr (lib_code s));
     ("createdAt", JNum (lib_createdAt s));
     ("updatedAt", JNum (lib_updatedAt s))]).

Definition jsNullable (x : option string) : Json :=
  match x with
  | Some s => JStr s
  | None => JNull
  end.

(** The stored entry after the save effect
    [localStorage.setItem(STORAGE_KEY, JSON.stringify(state))], as the next
    [JSON.parse] reads it. *)
Definition saveState (state : StoredState) : StoredItem :=
  ItemJson (JObj (list_to_map
    [("version", JNum STORAGE_VERSION);
     ("stepGroups", JArr (jsGroup <$> stored_stepGroups state));
     ("selectedGroupId", jsNullable (stored_selectedGroupId state));
     ("selectedStepId", jsNullable (stored_selectedStepId state));
     ("librarySteps", JArr (jsLibraryStep <$> stored_librarySteps state))])).

(** A typed state seen as the value [loadStoredState] would have to return
    for it. *)
Definition loadedOf (state : StoredState) : LoadedState :=
  mkLoaded STORAGE_VERSION
    (jsGroup <$> stored_stepGroups state)
    (jsNullable (stored_selectedGroupId state))
    (jsNullable (stored_selectedStepId state))
    (jsLibraryStep <$> stored_librarySteps state).

(** What the loader's defaulting does to a typed state: an absent
    [inputText] becomes the empty string. *)
Definition defaultInputText (g : StepGroup) : StepGroup :=
  mkGroup (group_id g) (group_title g) (group_steps g) (group_createdAt g)
    (group_updatedAt g) (Some (default "" (group_inputText g))).

Definition withDefaults (state : StoredState) : StoredState :=
  mkStored (defaultInputText <$> stored_stepGroups state)
    (stored_selectedGroupId state) (stored_selectedStepId state)
    (stored_librarySteps state).

(* ================================================================== *)
(** ** The pipeline display ([runPipeline] and the scheduled run of
       [usePipeline]) *)
(* ================================================================== *)

(** The two state cells [runPipeline] writes. *)
Record PipelineView := mkPipelineView {
  outputText : string;
  stepErrors : JsRecord;
}.

(** What a property read finds beyond the own properties of a record made
    by [{}]: [inherited assigned key] is the completion of [record[key]]
    when [key] is not an own property, the lookup being left to the
    prototype chain, that of [{}] when [assigned = None] and what
    [record.__proto__ = v] made of it when [assigned = Some v]. It is a
    matter of the built-in objects and of the object [v]. *)
Definition Inherited : Type := option JsValue → string → Completion JsValue.

(** [Object.prototype], which [String()] converts to [[object Object]]. *)
Definition objectPrototype : JsValue := JsOther "[object Object]".

(** [record[key]]. An own property wins. [record.__proto__] is otherwise
    the prototype of the record: still [Object.prototype] when nothing, or
    a primitive other than [null], was assigned to it; none after [null],
    and the read is [undefined]; and a matter of the prototype chain when
    what was assigned may be an object ([JsOther], [JsUnprintable]). Any
    other key without an own property is left to the prototype chain. *)
Definition readRecord (inherited : Inherited) (record : JsRecord)
  (key : string) : Completion JsValue :=
  match ownEntries record !! key with
  | Some value => Normal value
  | None =>
      if decide (key = PROTO) then
        match protoAssigned record with
        | None => Normal objectPrototype
        | Some JsNull => Normal JsUndefined
        | Some (JsOther text) => inherited (Some (JsOther text)) key
        | Some (JsUnprintable raised) =>
            inherited (Some (JsUnprintable raised)) key
        | Some _ => Normal objectPrototype
        end
      else inherited (protoAssigned record) key
  end.

(** The one-character string holding a double quote. *)
Definition doubleQuote : string := String.String (Ascii.ascii_of_nat 34) String.EmptyString.

(** [`Error in "${failed.title}": ${message}`] *)
Definition errorBanner (failed : Step) (message : string) : string :=
  "Error in " +:+ doubleQuote +:+ step_title failed +:+ doubleQuote +:+ ": "
  +:+ message.

(** [const [runScope] = useState<RunScope>('all')]: the cell has no
    setter, so the scope of the hook is ['all'] in every render. *)
Definition runScope : RunScope := ScopeAll.

(** How a call of [runPipeline] ends: both cells written; or
    [setStepErrors] called and the template literal of the banner raising
    before [setOutputText] is; or [executePipeline] raising before any
    setter is called. *)
Inductive RunOutcome :=
| Shown (view : PipelineView)
| ErrorsShown (shownErrors : JsRecord) (raised : Thrown)
| NothingShown (raised : Thrown).

Section PipelineDisplay.

Variable callFunction : string → string → Completion JsValue.

(** [runPipeline(scope, anchorId)]: [setStepErrors(result.errors)], then
    [setOutputText] of the banner or of the output. The banner reads
    [result.errors[result.failedStep.id]] and converts it inside a
    template literal, either of which can raise. *)
Definition runPipeline (inputText : string) (activeSteps : list Step)
  (scope : RunScope) (anchorId : option string) (inherited : Inherited)
  : RunOutcome :=
  match executePipeline callFunction inputText activeSteps scope anchorId with
  | Throw error => NothingShown error
  | Normal result =>
      match failedStep result with
      | Some failed =>
          match readRecord inherited (errors result) (step_id failed) with
          | Throw raised => ErrorsShown (errors result) raised
          | Normal value =>
              match toTemplateString value with
              | Throw raised => ErrorsShown (errors result) raised
              | Normal message =>
                  Shown (mkPipelineView (errorBanner failed message)
                           (errors result))
              end
          end
      | None => Shown (mkPipelineView (output result) (errors result))
      end
  end.

(** The body of the timer set by the effect:
    [if (!hasActiveGroup) return; runPipeline()], the defaults of
    [runPipeline] being [runScope] and [scopeStepId]. [None]: the timer
    returns without calling [runPipeline]. *)
Definition scheduledRun (hasActiveGroup : bool) (inputText : string)
  (activeSteps : list Step) (scopeStepId : option string)
  (inherited : Inherited) : option RunOutcome :=
  if hasActiveGroup
  then Some (runPipeline inputText activeSteps runScope scopeStepId inherited)
  else None.

End PipelineDisplay.

(* ================================================================== *)
(** ** Search ([useSearch]) *)
(* ================================================================== *)

(** [s.startsWith(sub)] and [s.includes(sub)] on strings as sequences of
    code units. *)
Fixpoint startsWith (s sub : string) {struct sub} : bool :=
  match sub, s with
  | String.EmptyString, _ => true
  | String.String b sub', String.String a s' =>
      if Ascii.eqb a b then startsWith s' sub' else false
  | String.String _ _, String.EmptyString => false
  end.

Fixpoint includes (s sub : string) : bool :=
  startsWith s sub
  || match s with
     | String.EmptyString => false
     | String.String _ s' => includes s' sub
     end.

Section Search.

(** [String.prototype.toLowerCase] and [trim] follow the Unicode tables of
    the engine; the filters are verified for every such pair. *)
Variable toLowerCase : string → string.
Variable trim : string → string.

(** [search.trim().toLowerCase()] *)
Definition searchQuery (search : string) : string := toLowerCase (trim search).

(** [!query] *)
Definition blank (query : string) : bool := bool_decide (query = "").

Definition visibleGroups (groupSearch : string) (stepGroups : list StepGroup)
  : list StepGroup :=
  let query := searchQuery groupSearch in
  if blank query then stepGroups
  else filter (λ group, includes (toLowerCase (group_title group)) query = true)
         stepGroups.

Definition visibleSteps (stepSearch : string) (activeSteps : list Step)
  : list Step :=
  let query := searchQuery stepSearch in
  if blank query then activeSteps
  else filter (λ step, includes (toLowerCase (step_title step)) query
                       || includes (toLowerCase (step_code step)) query = true)
         activeSteps.

Definition visibleLibrarySteps (librarySearch : string)
  (librarySteps : list LibraryStep) : list LibraryStep :=
  let query := searchQuery librarySearch in
  if blank query then librarySteps
  else filter (λ step, includes (toLowerCase (lib_title step)) query
                       || includes (toLowerCase (lib_code step)) query = true)
         librarySteps.

End Search.

(* ================================================================== *)
(** ** Theme ([useTheme]) *)
(* ================================================================== *)

(** [type Theme = 'light' | 'dark'] *)
Inductive Theme := Light | Dark.

(** The string a theme is, as written to [localStorage] and to the
    [data-theme] attribute. *)
Definition themeName (theme : Theme) : string :=
  match theme with
  | Light => "light"
  | Dark => "dark"
  end.

(** The initial state: [stored] is what [localStorage.getItem] returned. *)
Definition initialTheme (stored : option string) : Theme :=
  match stored with
  | Some s =>
      if decide (s = "light") then Light
      else if decide (s = "dark") then Dark
      else Light
  | None => Light
  end.

(** The entry written by the effect: [localStorage.setItem(KEY, theme)]. *)
Definition persistTheme (theme : Theme) : option string :=
  Some (themeName theme).

Definition toggleTheme (current : Theme) : Theme :=
  match current with
  | Light => Dark
  | Dark => Light
  end.

(* ================================================================== *)
(** ** The wiring of the hooks in the application component *)
(* ================================================================== *)

(** [groupsAPI.activeGroup?.inputText ?? ''], the initial input text handed
    to [usePipeline]. *)
Definition initialInputText (st : Store) : string :=
  default "" (activeGroup st ≫= group_inputText).

(** The effect that repairs the step selection: no selection without an
    active group or without steps; otherwise the selection is kept when it
    is the id of an active step, and becomes the first step's id when it is
    missing, empty or stale. *)
Definition repairSelection (st : Store) : Store :=
  match activeGroup st with
  | None => setSelectedStepId None st
  | Some _ =>
      match activeSteps st with
      | [] => setSelectedStepId None st
      | first :: _ =>
          if falsy (selectedStepId st)
             || negb (bool_decide
                        (Exists (λ step, Some (step_id step) = selectedStepId st)
                           (activeSteps st)))
          then setSelectedStepId (Some (step_id first)) st
          else st
      end
  end.

Definition LIBRARY_DROPPABLE : string := "library-droppable".

Section AppWiring.

Variable clock : nat → Z.
Variable randomUUID : nat → string.

(** The callback handed to [usePipeline]:
    [if (activeGroup) updateGroupInputText(activeGroup.id, inputText)]. *)
Definition onInputTextChange (inputText : string) : M unit :=
  st <- getStore ;;
  match activeGroup st with
  | Some group => updateGroupInputText clock (group_id group) inputText
  | None => ret tt
  end.

(** The write-back of [usePipeline]. When the initial input text handed
    to the hook changes, as it does when a group with another input text
    becomes the active one, the hook takes it as its own input text
    ([setInputText(initialInputText)]) and, its input text having
    changed, hands it to the callback. *)
Definition writeBackInputText : M unit :=
  st <- getStore ;;
  onInputTextChange (initialInputText st).

(** The effects the hook-based application runs once an operation has
    changed the groups: the write-back, when the input text of the hook
    changes ([writesBack]), and the repair of the step selection. They
    touch different cells: the order between them does not matter. *)
Definition settle (writesBack : bool) (st : Store) : Store :=
  repairSelection (if writesBack then exec writeBackInputText st else st).

(** [onToggleMuted]: the new flag is the negation of the flag of the first
    active step carrying [id]. *)
Definition onToggleMuted (id : string) : M unit :=
  st <- getStore ;;
  match JsArray.find (λ s, step_id s = id) (activeSteps st) with
  | None => ret tt
  | Some target =>
      updateStep clock id
        (mkPartialStep None None None (Some (negb (step_muted target)))
           None None)
  end.

(** The button [Save to library]:
    [saveStepToLibrary(selectedStep ?? undefined)]. *)
Definition saveSelectedStep : M unit :=
  st <- getStore ;;
  saveStepToLibrary clock randomUUID (selectedStep st).

(** The entry [Save to library] of the context menu opened on the step
    [stepId]. *)
Definition saveFromContextMenu (stepId : string) : M unit :=
  st <- getStore ;;
  match JsArray.find (λ s, step_id s = stepId) (activeSteps st) with
  | Some step => saveStepToLibrary clock randomUUID (Some step)
  | None => ret tt
  end.

(** [handleDragEnd]: [active] is the id of the dragged item, [over] the id
    of the item it was dropped on, if any. (The handler also resets the
    overlay's [activeDragId], a cell outside the store.) *)
Definition handleDragEnd (active : string) (over : option string) : M unit :=
  st <- getStore ;;
  match over with
  | None => ret tt
  | Some overId =>
      if bool_decide (overId = LIBRARY_DROPPABLE)
         && bool_decide (is_Some (activeGroup st))
      then
        match JsArray.find (λ step, step_id step = active) (activeSteps st) with
        | Some stepToSave => saveStepToLibrary clock randomUUID (Some stepToSave)
        | None => ret tt
        end
      else if bool_decide (active ≠ overId)
              && bool_decide (is_Some (activeGroup st))
      then
        let oldIndex :=
          JsArray.findIndex (λ step, step_id step = active) (activeSteps st) in
        let newIndex :=
          JsArray.findIndex (λ step, step_id step = overId) (activeSteps st) in
        if bool_decide (oldIndex ≠ (-1)%Z) && bool_decide (newIndex ≠ (-1)%Z)
        then moveStep clock oldIndex newIndex
        else ret tt
      else ret tt
  end.

(** A step dropped on the step list itself goes to the end:
    [moveStep(fromIndex, activeSteps.length - 1)]; likewise in the
    library, with [Math.max(0, librarySteps.length - 1)]. *)
Definition dropStepOnList (fromIndex : Z) : M unit :=
  st <- getStore ;;
  moveStep clock fromIndex (Z.of_nat (length (activeSteps st)) - 1).

Definition dropLibraryStepOnList (fromIndex : Z) : M unit :=
  st <- getStore ;;
  moveLibraryStep fromIndex
    (Z.max 0 (Z.of_nat (length (librarySteps st)) - 1)).

(** Where the index of a library drop comes from. The rows of the library
    list are the elements of [visibleLibrarySteps], and the row dragged
    writes its own number into the payload ([`LIB_REORDER:${index}`]),
    which the drop handlers read back with [parseInt]. [row] dropped on
    the list outside every row: *)
Definition dragLibraryRowOntoList (row : nat) : M unit :=
  dropLibraryStepOnList (Z.of_nat row).

(** [row] dropped on the row [target]: [moveLibraryStep(fromIndex, index)]. *)
Definition dragLibraryRowOntoRow (row target : nat) : M unit :=
  moveLibraryStep (Z.of_nat row) (Z.of_nat target).

End AppWiring.

(* ================================================================== *)
(** ** [updateActiveSteps] seen from the active group *)
(* ================================================================== *)

Section ActiveGroupUpdate.

Variable clock : nat → Z.

(** The group [updateActiveSteps] puts in the place of the active one. *)
Definition updatedGroup (active : StepGroup)
  (g : list Step → M (list Step)) (st : Store) : StepGroup :=
  mkGroup (group_id active) (group_title active) (g (group_steps active) st).1
    (group_createdAt active) (clock (ticks (g (group_steps active) st).2))
    (group_inputText active).

(** The store in which the groups after the active one are visited. *)
Definition afterActive (active : StepGroup)
  (g : list Step → M (list Step)) (st : Store) : Store :=
  setTicks (S (ticks (g (group_steps active) st).2))
    (g (group_steps active) st).2.

End ActiveGroupUpdate.

(** What [updateActiveSteps] does to the groups, whatever the updater:
    same groups in the same order; only the steps and [updatedAt] of a
    group change, and only in groups carrying the selected id. *)
Definition sameGroupBut (selected : option string) (x y : StepGroup) : Prop :=
  group_id y = group_id x
  ∧ group_title y = group_title x
  ∧ group_createdAt y = group_createdAt x
  ∧ group_inputText y = group_inputText x
  ∧ (selected ≠ Some (group_id x) → y = x).

(** Two groups, and two stores, that differ at most in what the write-back
    of the input text changes: [updatedAt], and an [inputText] that is
    absent in one and the empty string in the other. The counters of the
    clock and of the identifier source are not part of the application
    state. *)
Definition sameGroupButInputStamp (x y : StepGroup) : Prop :=
  group_id y = group_id x
  ∧ group_title y = group_title x
  ∧ group_steps y = group_steps x
  ∧ group_createdAt y = group_createdAt x
  ∧ default "" (group_inputText y) = default "" (group_inputText x).

Definition sameStoreButInputStamp (st st' : Store) : Prop :=
  Forall2 sameGroupButInputStamp (stepGroups st) (stepGroups st')
  ∧ selectedGroupId st' = selectedGroupId st
  ∧ selectedStepId st' = selectedStepId st
  ∧ librarySteps st' = librarySteps st
  ∧ selectedLibraryStepId st' = selectedLibraryStepId st.

(* ================================================================== *)
(** ** What the loader promises about a group *)
(* ================================================================== *)

(** An object whose [inputText] is present and not [null]. *)
Definition hasInputText (group : Json) : Prop :=
  ∃ props v, group = JObj props ∧ props !! "inputText" = Some v ∧ v ≠ JNull.

(* ================================================================== *)
(** ** The single-file [App.tsx] where it differs from the hooks *)
(* ================================================================== *)

(** [loadStoredState] of [App.tsx]: the same checks, and the groups are
    returned as they were parsed. *)
Definition loadStoredState_App (item : StoredItem) : LoadedState :=
  match item with
  | ItemUnreadable => emptyLoaded
  | ItemMissing | ItemEmpty => emptyLoaded
  | ItemMalformed => emptyLoaded
  | ItemJson parsed =>
      if negb (truthy parsed) then emptyLoaded
      else
        match getProp parsed "version" with
        | Some (Some (JNum v)) =>
            if negb (v =? STORAGE_VERSION)%Z then emptyLoaded
            else
              mkLoaded STORAGE_VERSION
                (default []
                   (arrayItems (default None (getProp parsed "stepGroups"))))
                (orElse (default None (getProp parsed "selectedGroupId")) JNull)
                (orElse (default None (getProp parsed "selectedStepId")) JNull)
                (default []
                   (arrayItems (default None (getProp parsed "librarySteps"))))
        | _ => emptyLoaded
        end
  end.

(** The defaulting [loadStoredState] of [utils/storage.ts] applies to the
    groups: [inputText ?? ''] in every group, or the empty state when
    that throws. *)
Definition defaultGroups (loaded : LoadedState) : LoadedState :=
  match mapM withInputText (loaded_stepGroups loaded) with
  | Some groups =>
      mkLoaded (loaded_version loaded) groups (loaded_selectedGroupId loaded)
        (loaded_selectedStepId loaded) (loaded_librarySteps loaded)
  | None => emptyLoaded
  end.

Section AppOperations.

Variable clock : nat → Z.
Variable randomUUID : nat → string.

(** [addGroup] and [deleteGroup] of [App.tsx] also clear the step
    selection. *)
Definition addGroup_App : M unit :=
  st <- getStore ;;
  let prev := stepGroups st in
  g <- createGroup clock randomUUID (length prev + 1) ;;
  let next := prev ++ [g] in
  modify (setSelectedGroupId (group_id <$> last next)) ;;;
  modify (setSelectedStepId None) ;;;
  modify (setStepGroups next).

Definition deleteGroup_App (id : string) : M unit :=
  st <- getStore ;;
  let next := filter (λ group, group_id group ≠ id) (stepGroups st) in
  (if decide (selectedGroupId st = Some id)
   then modify (setSelectedGroupId (group_id <$> head next)) ;;;
        modify (setSelectedStepId None)
   else ret tt) ;;;
  modify (setStepGroups next).

End AppOperations.

(* ================================================================== *)
(** ** A deletion that runs later ([requestDeleteStep]) *)
(* ================================================================== *)

Section DelayedDelete.

Variable clock : nat → Z.

(** [requestDeleteStep(id)] marks the step as being deleted and sets a
    timer; 220 ms later the timer calls [deleteStep(id)] and, after it,
    removes the mark. The [deleteStep] it calls is the function of the
    render in which the request was made: its [selectedStepId] and the
    [activeGroup] inside its [updateActiveSteps] are those of that render
    ([captured]), whereas [setStepGroups] maps over the groups as they
    are when the timer fires. *)
Definition deleteStepFrom (captured : Store) (id : string) : M unit :=
  match activeGroup captured with
  | None => ret tt
  | Some active =>
      st <- getStore ;;
      next <- traverse
                (updateGroupOf clock active (λ prev,
                   let next := filter (λ step, step_id step ≠ id) prev in
                   (if decide (selectedStepId captured = Some id)
                    then modify (setSelectedStepId (step_id <$> head next))
                    else ret tt) ;;;
                   ret next))
                (stepGroups st) ;;
      modify (setStepGroups next)
  end.

(** The marks [deletingStepIds : Record<string, true>]:
    [{ ...prev, [id]: true }] and [delete next[id]]. *)
Definition markDeleting (id : string) (deleting : gset string) : gset string :=
  {[ id ]} ∪ deleting.

Definition unmarkDeleting (id : string) (deleting : gset string)
  : gset string :=
  deleting ∖ {[ id ]}.

End DelayedDelete.

(* ================================================================== *)
(** ** Identifiers *)
(* ================================================================== *)

(** The identifiers of a group: its own, then those of its steps. *)
Definition groupIds (group : StepGroup) : list string :=
  group_id group :: (step_id <$> group_steps group).

(** Every identifier held by the store: of the groups and their steps,
    then of the library steps. *)
Definition storeIds (st : Store) : list string :=
  (stepGroups st ≫= groupIds) ++ (lib_id <$> librarySteps st).

(** The identifiers handed out by readings [lo], ..., [hi - 1] of the
    identifier source. *)
Definition issued (randomUUID : nat → string) (lo hi : nat) : list string :=
  randomUUID <$> seq lo (hi - lo).

(** No identifier occurs twice in the store, and each one is a reading
    already taken from the identifier source. *)
Definition uniqueIds (randomUUID : nat → string) (st : Store) : Prop :=
  NoDup (storeIds st)
  ∧ ∀ i, i ∈ storeIds st → ∃ k : nat, (k < uuids st)%nat ∧ i = randomUUID k.

(** What an operation does to the identifiers: each identifier of the new
    store, counted with multiplicity, is one of the old store or one of
    those handed out during the operation. *)
Definition idsSpec (randomUUID : nat → string) (st st' : Store) : Prop :=
  (uuids st ≤ uuids st')%nat
  ∧ storeIds st' ⊆+ storeIds st ++ issued randomUUID (uuids st) (uuids st').

(** The same for an updater passed to [updateActiveSteps]. *)
Definition updaterIds (randomUUID : nat → string)
  (updater : list Step → M (list Step)) : Prop :=
  ∀ prev s,
    (uuids s ≤ uuids (updater prev s).2)%nat
    ∧ (step_id <$> (updater prev s).1)
      ⊆+ (step_id <$> prev)
         ++ issued randomUUID (uuids s) (uuids (updater prev s).2)
    ∧ librarySteps (updater prev s).2 = librarySteps s.

(** The operations whose payload does not overwrite [id]. *)
Definition keepsId (op : Op) : Prop :=
  match op with
  | UpdateStep _ updates => ps_id updates = None
  | UpdateLibraryStep _ updates => pl_id updates = None
  | _ => True
  end.

(** The operations of [useLibrary] that change the library alone, and the
    operations of [useStepGroups] that change a group's own fields. *)
Definition isLibraryMutation (op : Op) : Prop :=
  match op with
  | AddLibraryStep | UpdateLibraryStep _ _ | DeleteLibraryStep _
  | MoveLibraryStep _ _ | SaveStepToLibrary _ => True
  | _ => False
  end.

Definition isGroupEdit (op : Op) : Prop :=
  match op with
  | UpdateGroupTitle _ _ | UpdateGroupInputText _ _ => True
  | _ => False
  end.

(* ================================================================== *)
(** ** Sample data used by the examples *)
(* ================================================================== *)

Definition sampleStep (id code : string) (muted : bool) : Step :=
  mkStep id ("title " +:+ id) code muted 0 0.

(** The behaviour of a JavaScript engine on a handful of step bodies, used
    to instantiate the evaluator in the examples. Only the bodies listed
    occur there; any other text is answered like a body that does not
    parse. *)
Definition sampleEngine (code input : string) : Completion JsValue :=
  if decide (code = "return input") then Normal (JsString input)
  else if decide (code = "return input + '!'") then
    Normal (JsString (input +:+ "!"))
  else if decide (code = "return input.length > 0") then
    Normal (JsBoolean (negb (bool_decide (input = ""))))
  else if decide (code = "return null") then Normal JsNull
  else if decide (code = "return") then Normal JsUndefined
  else if decide (code = "throw new Error('bad')") then
    Throw (ThrownError "bad")
  else if decide (code = "throw 'plain'") then
    Throw (ThrownValue (JsString "plain"))
  else if decide (code = "throw Object.create(null)") then
    Throw (ThrownValue (JsUnprintable
             (ThrownError "Cannot convert object to primitive value")))
  else if decide (code = "throw Object.assign(new Error(), { message: 42 })")
  then Throw (ThrownErrorHolding (JsOther "42"))
  else if decide (code = "throw Object.assign(new Error(), { message: Symbol('s') })")
  then Throw (ThrownErrorHolding
                (JsSymbol "Symbol(s)"
                   (ThrownError "Cannot convert a Symbol value to a string")))
  else if decide (code = "throw Object.defineProperty(new Error(), 'message', { get() { throw 'no' } })")
  then Throw (ThrownErrorUnreadable (ThrownValue (JsString "no")))
  else Throw (ThrownError "Unexpected identifier").

(** A prototype chain on which [__proto__] is the only name found. *)
Definition sampleInherited : Inherited := λ _ _, Normal JsUndefined.

Definition sampleClock (n : nat) : Z := (1000 + Z.of_nat n)%Z.
Definition sampleUUID (n : nat) : string := "id-" +:+ showNat n.

(** One group with one step, both selected; an empty library. *)
Definition sampleStore : Store :=
  mkStore
    [mkGroup "g" "Group 1" [sampleStep "s" "return input" false] 0 0 None]
    (Some "g") (Some "s") [] None 0 0.

(** One selected group with three steps. *)
Definition sampleStore3 : Store :=
  mkStore
    [mkGroup "g" "Group 1"
       [sampleStep "a" "return input" false;
        sampleStep "b" "return input + '!'" false;
        sampleStep "c" "return null" true] 0 0 (Some "hello")]
    (Some "g") (Some "a") [] None 0 0.

(** A pipeline with a muted step and a failing step. *)
Definition samplePipeline : list Step :=
  [sampleStep "a" "return input + '!'" false;
   sampleStep "b" "throw 'plain'" true;
   sampleStep "c" "throw new Error('bad')" false;
   sampleStep "d" "return input" false].

(** The same with a step that throws an object without string conversion. *)
Definition sampleBadPipeline : list Step :=
  [sampleStep "a" "return input + '!'" false;
   sampleStep "b" "throw 'plain'" true;
   sampleStep "c" "throw Object.create(null)" false;
   sampleStep "d" "return input" false].

(** A pipeline whose failing step has the id [__proto__], and one whose
    failing step throws an [Error] with a number as [message]. *)
Definition sampleProtoPipeline : list Step :=
  [sampleStep "a" "return input + '!'" false;
   sampleStep "__proto__" "throw new Error('bad')" false].

Definition sampleOddPipeline : list Step :=
  [sampleStep "a" "throw Object.assign(new Error(), { message: 42 })" false].

(** A pipeline in which no unmuted step fails. *)
Definition sampleGoodPipeline : list Step :=
  [sampleStep "a" "return input + '!'" false;
   sampleStep "b" "throw 'plain'" true;
   sampleStep "c" "return input.length > 0" false].

(** An update payload that overwrites [createdAt]. *)
Definition backdating : PartialStep :=
  mkPartialStep None None None None (Some 5000%Z) None.

Definition sampleOps : list Op :=
  [AddGroup; AddStep; AddStep;
   UpdateStep "id-1" (mkPartialStep None (Some "trim") None None None None);
   MoveStep 0 1; AddLibraryStep; DeleteStep "id-2"].

(** Lower-casing and trimming of the ASCII range, used to instantiate the
    two string functions of the search in the examples. *)
Definition sampleLowerChar (c : Ascii.ascii) : Ascii.ascii :=
  let n := Ascii.nat_of_ascii c in
  if (65 <=? n)%nat && (n <=? 90)%nat then Ascii.ascii_of_nat (n + 32) else c.

Fixpoint sampleToLowerCase (s : string) : string :=
  match s with
  | String.EmptyString => String.EmptyString
  | String.String c rest =>
      String.String (sampleLowerChar c) (sampleToLowerCase rest)
  end.

Fixpoint dropSpaces (chars : list Ascii.ascii) : list Ascii.ascii :=
  match chars with
  | c :: rest => if Ascii.eqb c (Ascii.ascii_of_nat 32) then dropSpaces rest
                 else chars
  | [] => []
  end.

Definition sampleTrim (s : string) : string :=
  String.string_of_list_ascii
    (reverse (dropSpaces (reverse (dropSpaces (String.list_ascii_of_string s))))).

(** Two groups; the first is selected and has three steps. *)
(** A library of two templates. *)
Definition sampleLibraryStore : Store :=
  mkStore [] None None
    [mkLibraryStep "t1" "Alpha" "return input" 0 0;
     mkLibraryStep "t2" "Beta" "return input + '!'" 0 0] None 0 0.

Definition sampleStore2 : Store :=
  mkStore
    [mkGroup "g" "Group 1"
       [sampleStep "a" "return input" false;
        sampleStep "b" "return input + '!'" false;
        sampleStep "c" "throw new Error('bad')" false] 0 0 (Some "hello");
     mkGroup "h" "Group 2" [sampleStep "d" "return input" false] 0 0 None]
    (Some "g") (Some "b")
    [mkLibraryStep "t" "Template" "return input" 0 0] None 0 0.

(* ================================================================== *)
(** * Properties *)
(* ================================================================== *)

Section MoveItemFacts.
Context {A : Type}.
Implicit Types (l : list A) (i j : Z).

Lemma moveItem_out_of_range i j l :
  (i < 0 ∨ Z.of_nat (length l) ≤ i ∨ j < 0 ∨ Z.of_nat (length l) ≤ j)%Z →
  moveItem i j l = l.
Proof.
  intros H. unfold moveItem.
  destruct ((i <? 0) || (i >=? Z.of_nat (length l))
            || (j <? 0) || (j >=? Z.of_nat (length l)))%Z eqn:E; [done|].
  repeat (apply orb_false_elim in E as [E ?]). lia.
Qed.

(** Within the guard, [splice(fromIndex, 1)] removes exactly the element at
    [fromIndex]. *)
Lemma splice_one_in_range (n : nat) l x :
  l !! n = Some x →
  JsArray.splice (Z.of_nat n) 1 [] l = ([x], take n l ++ drop (S n) l).
Proof.
  intros Hx. pose proof (lookup_lt_Some _ _ _ Hx) as Hlt.
  unfold JsArray.splice, JsArray.relativeIndex.
  destruct (Z.of_nat n <? 0)%Z eqn:E; [lia|].
  replace (Z.min (Z.of_nat n) (Z.of_nat (length l))) with (Z.of_nat n) by lia.
  replace (Z.min (Z.max 1 0) (Z.of_nat (length l) - Z.of_nat n)) with 1%Z by lia.
  rewrite Nat2Z.id. change (Z.to_nat 1) with 1%nat.
  rewrite (drop_S _ _ _ Hx). simpl. rewrite take_0.
  by replace (n + 1)%nat with (S n) by lia.
Qed.

(** [splice(toIndex, 0, moved)] inserts [moved] in front of position
    [toIndex]. *)
Lemma splice_insert_in_range (m : nat) l x :
  (m ≤ length l)%nat →
  JsArray.splice (Z.of_nat m) 0 [x] l = ([], take m l ++ x :: drop m l).
Proof.
  intros Hle. unfold JsArray.splice, JsArray.relativeIndex.
  destruct (Z.of_nat m <? 0)%Z eqn:E; [lia|].
  replace (Z.min (Z.of_nat m) (Z.of_nat (length l))) with (Z.of_nat m) by lia.
  replace (Z.min (Z.max 0 0) (Z.of_nat (length l) - Z.of_nat m)) with 0%Z by lia.
  rewrite Nat2Z.id. change (Z.to_nat 0) with 0%nat.
  by rewrite take_0, Nat.add_0_r.
Qed.

(** The in-range case in closed form: delete at [fromIndex], insert at
    [toIndex]. *)
Lemma moveItem_in_range (n m : nat) l x :
  l !! n = Some x → (m < length l)%nat →
  moveItem (Z.of_nat n) (Z.of_nat m) l
  = take m (delete n l) ++ x :: drop m (delete n l).
Proof.
  intros Hx Hm. pose proof (lookup_lt_Some _ _ _ Hx) as Hn.
  unfold moveItem.
  destruct ((Z.of_nat n <? 0) || (Z.of_nat n >=? Z.of_nat (length l))
            || (Z.of_nat m <? 0) || (Z.of_nat m >=? Z.of_nat (length l)))%Z eqn:E.
  { repeat (apply orb_true_elim in E as [E|E]); lia. }
  rewrite (splice_one_in_range _ _ _ Hx).
  rewrite <- delete_take_drop.
  rewrite splice_insert_in_range; [done|].
  rewrite length_delete by eauto. lia.
Qed.

End MoveItemFacts.

(* ------------------------------------------------------------------ *)
(** ** Generic facts about [JsArray.find] and [traverse] *)
(* ------------------------------------------------------------------ *)

Section FindFacts.
Context {A : Type} (P : A → Prop) `{!∀ x, Decision (P x)}.

Lemma find_Some l x : JsArray.find P l = Some x → x ∈ l ∧ P x.
Proof.
  unfold JsArray.find. destruct (list_find P l) as [[i y]|] eqn:E; [|done].
  simpl. intros [= <-]. apply list_find_Some in E as (Hi & HP & _).
  split; [by eapply list_elem_of_lookup_2|done].
Qed.

Lemma find_None l : JsArray.find P l = None ↔ Forall (λ x, ¬ P x) l.
Proof.
  unfold JsArray.find. rewrite fmap_None. apply list_find_None.
Qed.

Lemma find_cons x l :
  JsArray.find P (x :: l) = if decide (P x) then Some x else JsArray.find P l.
Proof.
  unfold JsArray.find. simpl. destruct (decide (P x)); [done|].
  by destruct (list_find P l) as [[? ?]|].
Qed.

End FindFacts.

(** [find] commutes with an element-wise relation that respects the
    predicates. *)
Lemma find_Forall2 {A : Type} (P Q : A → Prop) `{!∀ x, Decision (P x)}
  `{!∀ x, Decision (Q x)} (R : A → A → Prop) l l' :
  Forall2 R l l' → (∀ x y, R x y → (P x ↔ Q y)) →
  option_Forall2 R (JsArray.find P l) (JsArray.find Q l').
Proof.
  intros HF HPQ. induction HF as [|x y l l' HR HF IH].
  - constructor.
  - rewrite !find_cons. specialize (HPQ _ _ HR).
    destruct (decide (P x)), (decide (Q y)); try tauto. by constructor.
Qed.

Section TraverseFacts.
Context {A B : Type} (f : A → M B).

Lemma traverse_cons x l st :
  traverse f (x :: l) st
  = ((f x st).1 :: (traverse f l (f x st).2).1, (traverse f l (f x st).2).2).
Proof. reflexivity. Qed.

(** A component of the store that [f] leaves alone is left alone by
    [traverse f]. *)
Lemma traverse_preserves {T : Type} (proj : Store → T) l st :
  (∀ x s, proj (f x s).2 = proj s) → proj (traverse f l st).2 = proj st.
Proof.
  intros Hf. revert st. induction l as [|x l IH]; intros st; [done|].
  rewrite traverse_cons. simpl. by rewrite IH, Hf.
Qed.

(** A relation between argument and result that holds in every state holds
    element-wise. *)
Lemma traverse_Forall2 (R : A → B → Prop) l st :
  (∀ x s, R x (f x s).1) → Forall2 R l (traverse f l st).1.
Proof.
  intros Hf. revert st. induction l as [|x l IH]; intros st.
  - constructor.
  - rewrite traverse_cons. simpl. constructor; [apply Hf|apply IH].
Qed.

(** The same for a relation indexed by the clock readings [lo .. hi) taken
    while the element was processed. *)
Lemma traverse_window (R : nat → nat → A → B → Prop) l st :
  (∀ lo hi lo' hi' x y, (lo' ≤ lo)%nat → (hi ≤ hi')%nat →
     R lo hi x y → R lo' hi' x y) →
  (∀ x s, (ticks s ≤ ticks (f x s).2)%nat ∧
          R (ticks s) (ticks (f x s).2) x (f x s).1) →
  (ticks st ≤ ticks (traverse f l st).2)%nat ∧
  Forall2 (R (ticks st) (ticks (traverse f l st).2)) l (traverse f l st).1.
Proof.
  intros Hmono Hf. revert st. induction l as [|x l IH]; intros st.
  - split; [done|constructor].
  - rewrite traverse_cons. simpl.
    destruct (Hf x st) as [Hle HR].
    destruct (IH (f x st).2) as [Hle' HF].
    split; [lia|]. constructor.
    + eapply Hmono; [| |exact HR]; lia.
    + eapply Forall2_impl; [exact HF|]. intros a b Hab.
      eapply Hmono; [| |exact Hab]; lia.
Qed.

End TraverseFacts.

(* ------------------------------------------------------------------ *)
(** ** Reordering at the level of the store *)
(* ------------------------------------------------------------------ *)

Section StoreMoveFacts.
Variable clock : nat → Z.

Lemma updateActiveSteps_inactive g st :
  activeGroup st = None → exec (updateActiveSteps clock g) st = st.
Proof.
  intros H. unfold exec, updateActiveSteps, bind, getStore. simpl.
  by rewrite H.
Qed.

Lemma updateActiveSteps_active g st active :
  activeGroup st = Some active →
  exec (updateActiveSteps clock g) st
  = setStepGroups (traverse (updateGroupOf clock active g) (stepGroups st) st).1
      (traverse (updateGroupOf clock active g) (stepGroups st) st).2.
Proof.
  intros H. unfold exec, updateActiveSteps, bind, getStore. simpl.
  by rewrite H.
Qed.

(** What [updateActiveSteps] does to the active step list when the updater
    computes the new list from the old one alone. *)
Lemma activeSteps_updateActiveSteps (g : list Step → M (list Step))
  (h : list Step → list Step) st :
  (∀ prev s, (g prev s).1 = h prev) →
  (∀ prev s, selectedGroupId (g prev s).2 = selectedGroupId s) →
  activeSteps (exec (updateActiveSteps clock g) st)
  = match activeGroup st with
    | Some _ => h (activeSteps st)
    | None => []
    end.
Proof.
  intros Hg Hsel.
  destruct (activeGroup st) as [active|] eqn:Hact.
  2:{ rewrite updateActiveSteps_inactive by done.
      unfold activeSteps. by rewrite Hact. }
  rewrite (updateActiveSteps_active _ _ _ Hact).
  set (body := updateGroupOf clock active g).
  assert (Hs : selectedGroupId (traverse body (stepGroups st) st).2
               = selectedGroupId st).
  { apply (traverse_preserves body selectedGroupId). intros x s.
    unfold body, updateGroupOf. destruct (decide _); [|done].
    unfold bind, dateNow, ret. simpl. apply Hsel. }
  pose (R := λ x y : StepGroup,
          group_id y = group_id x ∧
          (group_id x = group_id active → group_steps y = h (group_steps x)) ∧
          (group_id x ≠ group_id active → y = x)).
  assert (HF : Forall2 R (stepGroups st) (traverse body (stepGroups st) st).1).
  { apply traverse_Forall2. intros x s. unfold body, updateGroupOf, R.
    destruct (decide _) as [e|n]; unfold bind, dateNow, ret; simpl.
    - by rewrite Hg.
    - done. }
  assert (Hresp : ∀ x y, R x y →
            (selectedGroupId st = Some (group_id x)
             ↔ selectedGroupId st = Some (group_id y))).
  { intros x y (Hid & _). by rewrite Hid. }
  pose proof (find_Forall2 _ _ R _ _ HF Hresp) as Hfind.
  unfold activeGroup in Hact. rewrite Hact in Hfind.
  unfold activeSteps at 1, activeGroup at 1. simpl. rewrite Hs.
  unfold activeSteps, activeGroup. rewrite Hact. simpl.
  inversion Hfind as [x y HR Hx Hy|]; subst. simpl.
  destruct HR as (_ & Hsteps & _). by apply Hsteps.
Qed.

End StoreMoveFacts.

Section MoveClaims.
Variable clock : nat → Z.

Lemma moveItem_nil {A : Type} i j : moveItem i j ([] : list A) = [].
Proof. apply moveItem_out_of_range. simpl. lia. Qed.

Lemma activeSteps_moveStep i j st :
  activeSteps (exec (moveStep clock i j) st) = moveItem i j (activeSteps st).
Proof.
  unfold moveStep.
  rewrite (activeSteps_updateActiveSteps clock _ (moveItem i j)) by done.
  unfold activeSteps. destruct (activeGroup st); [done|].
  simpl. by rewrite moveItem_nil.
Qed.

Lemma librarySteps_moveLibraryStep i j st :
  librarySteps (exec (moveLibraryStep i j) st)
  = moveItem i j (librarySteps st).
Proof. reflexivity. Qed.

Lemma moveItem_perm {A : Type} i j (l : list A) : moveItem i j l ≡ₚ l.
Proof.
  destruct (decide (0 ≤ i < Z.of_nat (length l) ∧ 0 ≤ j < Z.of_nat (length l))%Z)
    as [[Hi Hj]|Hout].
  - destruct (lookup_lt_is_Some_2 l (Z.to_nat i)) as [x Hx]; [lia|].
    rewrite <- (Z2Nat.id i), <- (Z2Nat.id j) by lia.
    rewrite (moveItem_in_range _ _ _ x) by (done || lia).
    rewrite <- Permutation_middle, take_drop.
    rewrite delete_take_drop.
    rewrite <- (take_drop_middle l (Z.to_nat i) x) at 3 by done.
    by rewrite <- Permutation_middle.
  - rewrite moveItem_out_of_range by lia. done.
Qed.

Lemma moveItem_same {A : Type} i (l : list A) : moveItem i i l = l.
Proof.
  destruct (decide (0 ≤ i < Z.of_nat (length l))%Z) as [Hi|Hout].
  - destruct (lookup_lt_is_Some_2 l (Z.to_nat i)) as [x Hx]; [lia|].
    rewrite <- (Z2Nat.id i) by lia.
    rewrite (moveItem_in_range _ _ _ x) by (done || lia).
    rewrite delete_take_drop.
    rewrite take_app_le by (rewrite length_take; lia).
    rewrite take_take, Nat.min_id.
    rewrite drop_app_ge by (rewrite length_take; lia).
    rewrite length_take, Nat.min_l by lia.
    rewrite Nat.sub_diag, drop_0.
    by apply take_drop_middle.
  - rewrite moveItem_out_of_range by lia. done.
Qed.

End MoveClaims.

Lemma moveItem_relocated {A : Type} i j (l : list A) :
  inRange i j l → relocated i j l (moveItem i j l).
Proof.
  intros [Hi Hj]. unfold relocated.
  destruct (lookup_lt_is_Some_2 l (Z.to_nat i)) as [x Hx]; [lia|].
  split; [by eexists|].
  replace (moveItem i j l)
    with (moveItem (Z.of_nat (Z.to_nat i)) (Z.of_nat (Z.to_nat j)) l)
    by (by rewrite !Z2Nat.id by lia).
  rewrite (moveItem_in_range _ _ _ x) by (done || lia).
  assert (Hlen : length (take (Z.to_nat j) (delete (Z.to_nat i) l)) = Z.to_nat j).
  { rewrite length_take, length_delete by eauto. lia. }
  split.
  - rewrite Hx. rewrite <- Hlen at 1. apply list_lookup_middle. done.
  - rewrite <- Hlen at 1. rewrite delete_middle. apply take_drop.
Qed.

(** C4. For every step sequence and every pair of indices of which one is
    out of range (negative, or at least the length), [moveStep] and
    [moveLibraryStep] leave the sequence element for element as it was
    (the model is total: nothing is thrown); for in-range indices they
    relocate the single element at [fromIndex] to position [toIndex]. *)
Theorem move_out_of_range_noop_in_range_relocates
  (clock : nat → Z) (st : Store) (fromIndex toIndex : Z) :
  (outOfRange fromIndex toIndex (activeSteps st) →
     activeSteps (exec (moveStep clock fromIndex toIndex) st) = activeSteps st)
  ∧ (outOfRange fromIndex toIndex (librarySteps st) →
     librarySteps (exec (moveLibraryStep fromIndex toIndex) st)
     = librarySteps st)
  ∧ (inRange fromIndex toIndex (activeSteps st) →
     relocated fromIndex toIndex (activeSteps st)
       (activeSteps (exec (moveStep clock fromIndex toIndex) st)))
  ∧ (inRange fromIndex toIndex (librarySteps st) →
     relocated fromIndex toIndex (librarySteps st)
       (librarySteps (exec (moveLibraryStep fromIndex toIndex) st))).
Proof.
  rewrite activeSteps_moveStep, librarySteps_moveLibraryStep.
  split; [|split; [|split]].
  - intros H. by apply moveItem_out_of_range.
  - intros H. by apply moveItem_out_of_range.
  - apply moveItem_relocated.
  - apply moveItem_relocated.
Qed.

(** C8. The sequence returned by [moveStep] (and [moveLibraryStep]) is a
    permutation of the input: the same elements, each with all its fields,
    only positions differ; its length is the input's; and moving an element
    to its own index returns the input sequence. This holds for every pair
    of indices, in range or not. *)
Theorem move_is_permutation
  (clock : nat → Z) (st : Store) (fromIndex toIndex : Z) :
  activeSteps (exec (moveStep clock fromIndex toIndex) st) ≡ₚ activeSteps st
  ∧ length (activeSteps (exec (moveStep clock fromIndex toIndex) st))
    = length (activeSteps st)
  ∧ activeSteps (exec (moveStep clock fromIndex fromIndex) st) = activeSteps st
  ∧ librarySteps (exec (moveLibraryStep fromIndex toIndex) st)
    ≡ₚ librarySteps st
  ∧ length (librarySteps (exec (moveLibraryStep fromIndex toIndex) st))
    = length (librarySteps st)
  ∧ librarySteps (exec (moveLibraryStep fromIndex fromIndex) st)
    = librarySteps st.
Proof.
  rewrite !activeSteps_moveStep, !librarySteps_moveLibraryStep.
  repeat split;
    first [ apply moveItem_perm
          | apply Permutation_length, moveItem_perm
          | apply moveItem_same ].
Qed.

(* ------------------------------------------------------------------ *)
(** ** Transform engine *)
(* ------------------------------------------------------------------ *)

Section EngineFacts.
Variable callFunction : string → string → Completion JsValue.

Local Abbreviation runSteps := (runSteps callFunction).
Local Abbreviation tryStep := (tryStep callFunction).
Local Abbreviation allSucceed := (allSucceed callFunction).
Local Abbreviation foldTransforms := (foldTransforms callFunction).

Lemma unmuted_cons step steps :
  unmuted (step :: steps)
  = if step_muted step then unmuted steps else step :: unmuted steps.
Proof.
  unfold unmuted. rewrite filter_cons.
  destruct (step_muted step); by case_decide.
Qed.

Lemma unmuted_Forall steps :
  Forall (λ step, step_muted step = false) (unmuted steps).
Proof. apply Forall_forall. intros x Hx. by apply list_elem_of_filter in Hx as []. Qed.

(** A muted step neither reads nor changes the running value: the loop
    behaves as on the list without the muted steps. *)
Lemma runSteps_unmuted current steps :
  runSteps current steps = runSteps current (unmuted steps).
Proof.
  revert current. induction steps as [|step steps IH]; intros current; [done|].
  rewrite unmuted_cons. simpl. destruct (step_muted step) eqn:Hm; [done|].
  simpl. rewrite Hm. destruct (tryStep step current); [apply IH|done].
Qed.

Lemma foldTransforms_app input l1 l2 :
  foldTransforms input (l1 ++ l2) = foldTransforms (foldTransforms input l1) l2.
Proof. apply foldl_app. Qed.

Lemma allSucceed_app current l1 l2 :
  allSucceed current (l1 ++ l2)
  ↔ allSucceed current l1 ∧ allSucceed (foldTransforms current l1) l2.
Proof.
  revert current. induction l1 as [|step l1 IH]; intros current; simpl.
  - tauto.
  - unfold foldTransforms. simpl. unfold transformOf.
    destruct (tryStep step current); [apply IH|tauto].
Qed.

(** Running a prefix of unmuted steps that all succeed amounts to folding
    their transforms, and the loop goes on with the rest. *)
Lemma runSteps_succeeding_prefix current pre rest :
  Forall (λ step, step_muted step = false) pre →
  allSucceed current pre →
  runSteps current (pre ++ rest) = runSteps (foldTransforms current pre) rest.
Proof.
  revert current. induction pre as [|step pre IH]; intros current Hm Hok; [done|].
  apply Forall_cons in Hm as [Hm Hms]. simpl in *. rewrite Hm.
  unfold foldTransforms. simpl. unfold transformOf.
  destruct (tryStep step current) as [next|]; [|done].
  by apply IH.
Qed.

Lemma runSteps_failing current step rest error message :
  step_muted step = false →
  tryStep step current = Throw error →
  getErrorMessage error = Normal message →
  runSteps current (step :: rest)
  = Normal (mkExecResult current (errorsWith (step_id step) message)
              (Some step)).
Proof. intros Hm Ht Hmsg. simpl. by rewrite Hm, Ht, Hmsg. Qed.

Lemma runSteps_failing_handler current step rest error raised :
  step_muted step = false →
  tryStep step current = Throw error →
  getErrorMessage error = Throw raised →
  runSteps current (step :: rest) = Throw raised.
Proof. intros Hm Ht Hmsg. simpl. by rewrite Hm, Ht, Hmsg. Qed.

End EngineFacts.

Lemma resolveScopeSteps_nil scope anchorId :
  resolveScopeSteps [] scope anchorId = [].
Proof. destruct scope; simpl; by destruct (falsy anchorId). Qed.

Lemma resolveScopeSteps_App_nil selected scope anchorId :
  resolveScopeSteps_App [] selected scope anchorId = [].
Proof.
  destruct scope; simpl; [done| |].
  all: by destruct (falsy _).
Qed.

(** The record after the one assignment: one own entry under the key,
    unless the key is [__proto__], which stores none. *)
Lemma errorsWith_own key message :
  key ≠ PROTO → errorsWith key message = mkRecord {[ key := message ]} None.
Proof. intros H. unfold errorsWith. by case_decide. Qed.

Lemma errorsWith_proto message :
  errorsWith PROTO message = mkRecord ∅ (Some message).
Proof. done. Qed.

(** C2. Let [pipeline] be the steps to run (the whole list for scope
    [all]). When no non-muted step of it fails, [executePipeline] returns
    the left fold of the non-muted steps' transforms over the input text,
    in list order, with an empty error map and no failed step. Muted steps
    take no part: the result is that of the loop on the list without them.
    An empty step list returns the input text unchanged with no errors.
    All of this holds of both engines: [executePipeline] of [usePipeline],
    and [executePipeline] of [App.tsx], whose steps to run are those of
    its own resolver ([pipeline_App], where the selected step stands in
    for a missing anchor). *)
Theorem execute_is_left_fold
  (callFunction : string → string → Completion JsValue)
  (inputText : string) (activeSteps : list Step) (selected : option Step)
  (scope : RunScope) (anchorId : option string) :
  let pipeline := resolveScopeSteps activeSteps scope anchorId in
  let pipeline_App :=
    resolveScopeSteps_App activeSteps selected scope anchorId in
  (allSucceed callFunction inputText (unmuted pipeline) →
   executePipeline callFunction inputText activeSteps scope anchorId
   = Normal
       (mkExecResult (foldTransforms callFunction inputText (unmuted pipeline))
          ∅ None))
  ∧ executePipeline callFunction inputText activeSteps scope anchorId
    = runSteps callFunction inputText (unmuted pipeline)
  ∧ executePipeline callFunction inputText [] scope anchorId
    = Normal (mkExecResult inputText ∅ None)
  ∧ (allSucceed callFunction inputText (unmuted pipeline_App) →
     executePipeline_App callFunction inputText activeSteps selected scope
       anchorId
     = Normal
         (mkExecResult
            (foldTransforms callFunction inputText (unmuted pipeline_App))
            ∅ None))
  ∧ executePipeline_App callFunction inputText activeSteps selected scope
      anchorId
    = runSteps callFunction inputText (unmuted pipeline_App)
  ∧ executePipeline_App callFunction inputText [] selected scope anchorId
    = Normal (mkExecResult inputText ∅ None)
  ∧ (scope = ScopeAll → pipeline = activeSteps ∧ pipeline_App = activeSteps).
Proof.
  intros pipeline pipeline_App.
  assert (Hfold : ∀ steps,
            allSucceed callFunction inputText (unmuted steps) →
            runSteps callFunction inputText steps
            = Normal
                (mkExecResult
                   (foldTransforms callFunction inputText (unmuted steps))
                   ∅ None)).
  { intros steps Hok. rewrite runSteps_unmuted.
    rewrite <- (app_nil_r (unmuted steps)) at 1.
    rewrite runSteps_succeeding_prefix; [done|apply unmuted_Forall|done]. }
  unfold executePipeline, executePipeline_App.
  fold pipeline. fold pipeline_App.
  split; [apply Hfold|]. split; [apply runSteps_unmuted|].
  split; [by rewrite resolveScopeSteps_nil|].
  split; [apply Hfold|]. split; [apply runSteps_unmuted|].
  split; [by rewrite resolveScopeSteps_App_nil|].
  by intros ->.
Qed.

(** The halting behaviour when the message of the error can be obtained.
    Let [pipeline] be the resolved steps. If step number [S n] among its
    non-muted steps (the steps actually evaluated) raises [error], the
    steps before it having succeeded, and [getErrorMessage error] yields
    [message], then [executePipeline] returns the running value produced
    just before that step (the input text when [n = 0]), the error record
    after [errors[id] = message] for the failing step's id, and the
    failing step as [failedStep]. That record has exactly one own entry,
    keyed by the id and holding [message], unless the id is [__proto__],
    for which it has none. No later step is evaluated: the loop gives the
    same result whatever follows the failing step. *)
Lemma execute_halts_at_first_failure
  (callFunction : string → string → Completion JsValue)
  (inputText : string) (activeSteps : list Step) (scope : RunScope)
  (anchorId : option string) (n : nat) (failing : Step) (error : Thrown)
  (message : JsValue) :
  let pipeline := resolveScopeSteps activeSteps scope anchorId in
  let before :=
    foldTransforms callFunction inputText (take n (unmuted pipeline)) in
  let result :=
    Normal (mkExecResult before (errorsWith (step_id failing) message)
              (Some failing)) in
  unmuted pipeline !! n = Some failing →
  allSucceed callFunction inputText (take n (unmuted pipeline)) →
  tryStep callFunction failing before = Throw error →
  getErrorMessage error = Normal message →
  executePipeline callFunction inputText activeSteps scope anchorId = result
  ∧ (n = 0%nat → before = inputText)
  ∧ (∀ later, runSteps callFunction inputText
                (take n (unmuted pipeline) ++ failing :: later) = result)
  ∧ (step_id failing ≠ PROTO →
     errorsWith (step_id failing) message
     = mkRecord {[ step_id failing := message ]} None)
  ∧ (step_id failing = PROTO →
     ownEntries (errorsWith (step_id failing) message) = ∅).
Proof.
  intros pipeline before result Hn Hok Hthrow Hmsg.
  assert (Hmuted : step_muted failing = false).
  { apply list_elem_of_lookup_2 in Hn. by apply list_elem_of_filter in Hn as []. }
  assert (Hpre : Forall (λ step, step_muted step = false)
                   (take n (unmuted pipeline))).
  { apply Forall_take, unmuted_Forall. }
  assert (Hgen : ∀ later, runSteps callFunction inputText
                   (take n (unmuted pipeline) ++ failing :: later) = result).
  { intros later. rewrite runSteps_succeeding_prefix by done.
    by eapply runSteps_failing. }
  split; [|split; [|split; [|split]]].
  - unfold executePipeline. fold pipeline. rewrite runSteps_unmuted.
    rewrite <- (take_drop_middle _ _ _ Hn). apply Hgen.
  - intros ->. done.
  - exact Hgen.
  - apply errorsWith_own.
  - by intros ->.
Qed.

(** C1 fails where the message of the error cannot be obtained. If the
    step that raises [error] is reached as above, but [getErrorMessage]
    itself raises [raised] on it (the thrown value is not an [Error] and
    [String()] cannot convert it, or it is an [Error] whose [message]
    cannot be read), then the exception leaves the [catch]
    clause: [executePipeline] returns no output, no error map and no
    failed step, it throws [raised]. *)
Theorem execute_throws_when_message_fails
  (callFunction : string → string → Completion JsValue)
  (inputText : string) (activeSteps : list Step) (scope : RunScope)
  (anchorId : option string) (n : nat) (failing : Step)
  (error raised : Thrown) :
  let pipeline := resolveScopeSteps activeSteps scope anchorId in
  let before :=
    foldTransforms callFunction inputText (take n (unmuted pipeline)) in
  unmuted pipeline !! n = Some failing →
  allSucceed callFunction inputText (take n (unmuted pipeline)) →
  tryStep callFunction failing before = Throw error →
  getErrorMessage error = Throw raised →
  executePipeline callFunction inputText activeSteps scope anchorId
  = Throw raised.
Proof.
  intros pipeline before Hn Hok Hthrow Hmsg.
  assert (Hmuted : step_muted failing = false).
  { apply list_elem_of_lookup_2 in Hn. by apply list_elem_of_filter in Hn as []. }
  unfold executePipeline. fold pipeline. rewrite runSteps_unmuted.
  rewrite <- (take_drop_middle _ _ _ Hn).
  rewrite runSteps_succeeding_prefix; [|apply Forall_take, unmuted_Forall|done].
  by eapply runSteps_failing_handler.
Qed.

(** The engine of [App.tsx] is the same loop, run on the steps its own
    resolver returns. *)
Lemma executePipeline_App_anchor
  (callFunction : string → string → Completion JsValue)
  inputText activeSteps selected scope anchorId :
  executePipeline_App callFunction inputText activeSteps selected scope anchorId
  = executePipeline callFunction inputText activeSteps scope
      (match anchorId with
       | Some a => Some a
       | None => step_id <$> selected
       end).
Proof. by destruct scope. Qed.

(** C9. When a non-muted step's function returns [null], the running value
    becomes the empty string, exactly as for [undefined]; any other
    returned value becomes its string representation [String(value)]. *)
Theorem nullish_result_becomes_empty_string
  (callFunction : string → string → Completion JsValue)
  (current : string) (step : Step) (rest : list Step) (result : JsValue) :
  step_muted step = false →
  callFunction (step_code step) current = Normal result →
  (result = JsNull →
     runSteps callFunction current (step :: rest)
     = runSteps callFunction "" rest)
  ∧ (result = JsUndefined →
     runSteps callFunction current (step :: rest)
     = runSteps callFunction "" rest)
  ∧ (∀ text, result ≠ JsNull → result ≠ JsUndefined →
     toJsString result = Normal text →
     runSteps callFunction current (step :: rest)
     = runSteps callFunction text rest).
Proof.
  intros Hm Hcall. simpl. rewrite Hm. unfold tryStep. rewrite Hcall.
  split; [|split].
  - by intros ->.
  - by intros ->.
  - intros text H1 H2 Htext.
    assert (nullishOr result (JsString "") = result) as ->
      by (by destruct result).
    by rewrite Htext.
Qed.

(* ------------------------------------------------------------------ *)
(** ** Scope resolver *)
(* ------------------------------------------------------------------ *)

Section ScopeFacts.
Context {A : Type} (P : A → Prop) `{!∀ x, Decision (P x)}.

Lemma findIndex_absent l :
  Forall (λ x, ¬ P x) l → JsArray.findIndex P l = (-1)%Z.
Proof.
  intros Hl. unfold JsArray.findIndex.
  by rewrite (proj2 (list_find_None P l) Hl).
Qed.

Lemma findIndex_first pre x post :
  Forall (λ y, ¬ P y) pre → P x →
  JsArray.findIndex P (pre ++ x :: post) = Z.of_nat (length pre).
Proof.
  intros Hpre Hx. unfold JsArray.findIndex.
  assert (list_find P (pre ++ x :: post) = Some (length pre, x)) as ->; [|done].
  apply list_find_Some. split; [by apply list_lookup_middle|]. split; [done|].
  intros j y Hj Hlt. rewrite lookup_app_l in Hj by done.
  rewrite Forall_forall in Hpre. apply Hpre.
  by eapply list_elem_of_lookup_2.
Qed.

Lemma slice_from (pre post : list A) :
  JsArray.slice (Z.of_nat (length pre)) None (pre ++ post) = post.
Proof.
  unfold JsArray.slice, JsArray.relativeIndex.
  destruct (Z.ltb_spec (Z.of_nat (length pre)) 0); [lia|].
  rewrite length_app.
  replace (Z.min _ _) with (Z.of_nat (length pre)) by lia.
  rewrite Nat2Z.id, drop_app_length.
  apply take_ge. lia.
Qed.

Lemma slice_to (pre post : list A) :
  JsArray.slice 0 (Some (Z.of_nat (length pre))) (pre ++ post) = pre.
Proof.
  unfold JsArray.slice, JsArray.relativeIndex. simpl.
  destruct (Z.ltb_spec (Z.of_nat (length pre)) 0); [lia|].
  rewrite length_app.
  replace (Z.min (Z.of_nat (length pre)) _) with (Z.of_nat (length pre)) by lia.
  replace (Z.min 0 _) with 0%Z by lia.
  rewrite Z.sub_0_r, Nat2Z.id. simpl. apply take_app_length.
Qed.

End ScopeFacts.

Lemma falsy_spec (anchor : option string) :
  falsy anchor = true ↔ anchor = None ∨ anchor = Some "".
Proof.
  destruct anchor as [a|]; simpl; [|tauto].
  rewrite bool_decide_eq_true. split; [intros ->; tauto|].
  intros [?|[= ->]]; done.
Qed.

(** The anchor is missing: [null], the empty string, or not the id of a
    step of the list. *)
Lemma resolveScopeSteps_fallback steps scope anchorId :
  anchorId = None ∨ anchorId = Some ""
  ∨ (∀ a, anchorId = Some a → a ∉ (step_id <$> steps)) →
  resolveScopeSteps steps scope anchorId = steps.
Proof.
  intros H. unfold resolveScopeSteps. destruct scope; [done| |].
  all: destruct (falsy anchorId) eqn:Hf; [done|].
  all: destruct H as [->|[->|H]]; [done|done|].
  all: destruct anchorId as [a|]; [|done].
  all: rewrite findIndex_absent; [done|].
  all: apply Forall_forall; intros x Hx [= Ha].
  all: apply (H a eq_refl); rewrite <- Ha; by apply list_elem_of_fmap_2.
Qed.

(** The anchor is a non-empty id whose first occurrence splits the list. *)
Lemma resolveScopeSteps_present pre st post a :
  a ≠ "" → step_id st = a → a ∉ (step_id <$> pre) →
  resolveScopeSteps (pre ++ st :: post) ScopeFrom (Some a) = st :: post
  ∧ resolveScopeSteps (pre ++ st :: post) ScopeTo (Some a) = pre ++ [st].
Proof.
  intros Hne Hid Hpre. unfold resolveScopeSteps, falsy.
  rewrite bool_decide_eq_false_2 by done.
  rewrite findIndex_first; [| |by rewrite Hid].
  2:{ apply Forall_forall. intros x Hx [= Hx']. apply Hpre.
      rewrite <- Hx'. by apply list_elem_of_fmap_2. }
  destruct (Z.ltb_spec (Z.of_nat (length pre)) 0); [lia|].
  split.
  - apply slice_from.
  - replace (Z.of_nat (length pre) + 1)%Z
      with (Z.of_nat (length (pre ++ [st]))) by (rewrite length_app; simpl; lia).
    rewrite (cons_middle st pre post), app_assoc. apply slice_to.
Qed.

(** C3, as amended. [resolveScopeSteps] with scope [all] returns the whole
    list; with [from] or [to] and an anchor that is [null], the empty
    string, or not the id of a step of the list, it returns the whole list
    (the same fallback for both scopes); with a non-empty anchor that is
    present, [from] returns the steps from its first occurrence (inclusive)
    through the end and [to] the steps from the start through that
    occurrence (inclusive). The version in [App.tsx] does the same after
    replacing a [null] anchor by the id of the selected step, if any. *)
Theorem resolveScope_contract
  (steps : list Step) (anchorId : option string) (selected : option Step) :
  resolveScopeSteps steps ScopeAll anchorId = steps
  ∧ (∀ scope,
       anchorId = None ∨ anchorId = Some ""
       ∨ (∀ a, anchorId = Some a → a ∉ (step_id <$> steps)) →
       resolveScopeSteps steps scope anchorId = steps)
  ∧ (∀ pre st post a,
       steps = pre ++ st :: post → anchorId = Some a →
       a ≠ "" → step_id st = a → a ∉ (step_id <$> pre) →
       resolveScopeSteps steps ScopeFrom anchorId = st :: post
       ∧ resolveScopeSteps steps ScopeTo anchorId = pre ++ [st])
  ∧ (∀ scope,
       resolveScopeSteps_App steps selected scope anchorId
       = resolveScopeSteps steps scope
           (match anchorId with
            | Some a => Some a
            | None => step_id <$> selected
            end)).
Proof.
  split; [done|]. split; [|split].
  - intros scope. apply resolveScopeSteps_fallback.
  - intros pre st post a -> -> Hne Hid Hpre.
    by apply resolveScopeSteps_present.
  - by intros [].
Qed.

(** C3 as stated fails in two places. In [App.tsx] a [null] anchor does not
    give the whole list when a step is selected; and an anchor that is
    present but is the empty string is treated as no anchor, so [to] does
    not stop at it. *)
Lemma resolveScope_counterexample :
  let a := sampleStep "a" "return input" false in
  let b := sampleStep "b" "return input" false in
  let e := sampleStep "" "return input" false in
  (resolveScopeSteps_App [a; b] (Some b) ScopeFrom None = [b]
   ∧ [b] ≠ [a; b])
  ∧ ("" ∈ (step_id <$> [e; b])
     ∧ resolveScopeSteps [e; b] ScopeTo (Some "") = [e; b]
     ∧ [e; b] ≠ [e]).
Proof.
  simpl. split; [split; [reflexivity|discriminate]|].
  split; [apply list_elem_of_here|].
  split; [reflexivity|discriminate].
Qed.

(* ------------------------------------------------------------------ *)
(** ** Library operations *)
(* ------------------------------------------------------------------ *)

(** C10. After [deleteLibraryStep(id)] the library holds no step with that
    id; the library selection becomes [null] if it was [id] and is unchanged
    otherwise, so it never refers to the deleted item; the library is the
    old one without the steps carrying [id], the others unchanged and in
    their order; nothing else in the store changes. *)
Theorem deleteLibraryStep_contract (id : string) (st : Store) :
  let st' := exec (deleteLibraryStep id) st in
  (id ∉ (lib_id <$> librarySteps st'))
  ∧ selectedLibraryStepId st'
    = (if decide (selectedLibraryStepId st = Some id) then None
       else selectedLibraryStepId st)
  ∧ selectedLibraryStepId st' ≠ Some id
  ∧ librarySteps st' = filter (λ step, lib_id step ≠ id) (librarySteps st)
  ∧ (∀ step, step ∈ librarySteps st → lib_id step ≠ id →
       step ∈ librarySteps st')
  ∧ (∀ step, step ∈ librarySteps st' → step ∈ librarySteps st)
  ∧ stepGroups st' = stepGroups st
  ∧ selectedGroupId st' = selectedGroupId st
  ∧ selectedStepId st' = selectedStepId st.
Proof.
  intros st'.
  assert (Hlib : librarySteps st'
                 = filter (λ step, lib_id step ≠ id) (librarySteps st)).
  { unfold st', exec, deleteLibraryStep, bind, getStore, modify. simpl.
    by destruct (decide (selectedLibraryStepId st = Some id)). }
  assert (Hsel : selectedLibraryStepId st'
                 = if decide (selectedLibraryStepId st = Some id) then None
                   else selectedLibraryStepId st).
  { unfold st', exec, deleteLibraryStep, bind, getStore, modify. simpl.
    by destruct (decide (selectedLibraryStepId st = Some id)). }
  split; [|split; [|split; [|split; [|split; [|split]]]]].
  - rewrite Hlib. intros (x & Hid & Hx)%list_elem_of_fmap.
    apply list_elem_of_filter in Hx as [Hne _]. by apply Hne.
  - exact Hsel.
  - rewrite Hsel. by case_decide.
  - exact Hlib.
  - intros step Hin Hne. rewrite Hlib. by apply list_elem_of_filter.
  - intros step. rewrite Hlib. by intros [_ ?]%list_elem_of_filter.
  - unfold st', exec, deleteLibraryStep, bind, getStore, modify. simpl.
    by destruct (decide (selectedLibraryStepId st = Some id)).
Qed.

(** The library template made from a step. *)
Lemma createLibraryStep_seeded clock randomUUID index target st :
  createLibraryStep clock randomUUID index (Some target) st
  = (mkLibraryStep (randomUUID (uuids st)) (step_title target)
       (step_code target) (clock (ticks st)) (clock (S (ticks st))),
     setTicks (S (S (ticks st))) (setUuids (S (uuids st)) st)).
Proof. reflexivity. Qed.

(** C7, as amended. The [saveStepToLibrary] of [App.tsx] behaves as
    claimed: it appends a new library step with the title and code of the
    given step, or of the selected step when none is given, and leaves the
    store alone only when no step is given and none is selected. The
    [saveStepToLibrary] of [useLibrary] leaves the store alone whenever no
    step is given, selected step or not (its callers pass the selected
    step themselves); given a step, it appends a new library step with the
    title and code of the first active step carrying the given step's id,
    or of the given step when there is none. *)
Theorem saveStepToLibrary_contract
  (clock : nat → Z) (randomUUID : nat → string) (st : Store) :
  let template (source : Step) :=
    mkLibraryStep (randomUUID (uuids st)) (step_title source)
      (step_code source) (clock (ticks st)) (clock (S (ticks st))) in
  (* App.tsx *)
  (∀ given,
     librarySteps (exec (saveStepToLibrary_App clock randomUUID (Some given)) st)
     = librarySteps st ++ [template given])
  ∧ (∀ selected, selectedStep st = Some selected →
     librarySteps (exec (saveStepToLibrary_App clock randomUUID None) st)
     = librarySteps st ++ [template selected])
  ∧ (selectedStep st = None →
     exec (saveStepToLibrary_App clock randomUUID None) st = st)
  (* useLibrary *)
  ∧ exec (saveStepToLibrary clock randomUUID None) st = st
  ∧ (∀ given,
     librarySteps (exec (saveStepToLibrary clock randomUUID (Some given)) st)
     = librarySteps st
       ++ [template
             (default given
                (JsArray.find (λ s, step_id s = step_id given)
                   (activeSteps st)))])
  ∧ (∀ given, given ∈ activeSteps st →
     (∀ other, other ∈ activeSteps st → step_id other = step_id given →
        other = given) →
     librarySteps (exec (saveStepToLibrary clock randomUUID (Some given)) st)
     = librarySteps st ++ [template given]).
Proof.
  intros template.
  split; [|split; [|split; [|split; [|split]]]].
  - intros given. reflexivity.
  - intros selected Hsel.
    unfold exec, saveStepToLibrary_App, bind, getStore. simpl.
    rewrite Hsel. reflexivity.
  - intros Hsel.
    unfold exec, saveStepToLibrary_App, bind, getStore. simpl.
    by rewrite Hsel.
  - reflexivity.
  - intros given. reflexivity.
  - intros given Hin Huniq.
    unfold exec, saveStepToLibrary, bind, getStore. simpl.
    destruct (JsArray.find (λ s, step_id s = step_id given) (activeSteps st))
      as [found|] eqn:Hfind.
    + apply find_Some in Hfind as [Hfin Hid]. simpl.
      by rewrite (Huniq found Hfin Hid).
    + reflexivity.
Qed.

(** C7 as stated fails for the [saveStepToLibrary] of [useLibrary]: with a
    step selected and no argument, nothing is saved. *)
Lemma saveStepToLibrary_counterexample :
  selectedStep sampleStore = Some (sampleStep "s" "return input" false)
  ∧ librarySteps
      (exec (saveStepToLibrary sampleClock sampleUUID None) sampleStore) = [].
Proof. split; reflexivity. Qed.

(* ------------------------------------------------------------------ *)
(** ** Persistence *)
(* ------------------------------------------------------------------ *)

Lemma withInputText_jsGroup g :
  withInputText (jsGroup g) = Some (jsGroup (defaultInputText g)).
Proof. by destruct g as [i t ss c u [text|]]. Qed.

Lemma mapM_withInputText groups :
  mapM withInputText (jsGroup <$> groups)
  = Some (jsGroup <$> (defaultInputText <$> groups)).
Proof.
  induction groups as [|g groups IH]; [done|].
  rewrite !fmap_cons. cbn [mapM].
  rewrite withInputText_jsGroup, IH. done.
Qed.

(** The loader on an object whose [version] is the current one. *)
Lemma loadStoredState_current props :
  props !! "version" = Some (JNum STORAGE_VERSION) →
  loadStoredState (ItemJson (JObj props))
  = match (match arrayItems (props !! "stepGroups") with
           | Some items => mapM withInputText items
           | None => Some []
           end) with
    | None => emptyLoaded
    | Some groups =>
        mkLoaded STORAGE_VERSION groups
          (orElse (props !! "selectedGroupId") JNull)
          (orElse (props !! "selectedStepId") JNull)
          (default [] (arrayItems (props !! "librarySteps")))
    end.
Proof. intros H. unfold loadStoredState. simpl. by rewrite H. Qed.

Lemma loadStoredState_saveState state :
  loadStoredState (saveState state) = loadedOf (withDefaults state).
Proof.
  unfold saveState. rewrite loadStoredState_current by done.
  set (props := list_to_map _).
  change (props !! "stepGroups")
    with (Some (JArr (jsGroup <$> stored_stepGroups state))).
  change (props !! "selectedGroupId")
    with (Some (jsNullable (stored_selectedGroupId state))).
  change (props !! "selectedStepId")
    with (Some (jsNullable (stored_selectedStepId state))).
  change (props !! "librarySteps")
    with (Some (JArr (jsLibraryStep <$> stored_librarySteps state))).
  cbn [arrayItems]. rewrite mapM_withInputText.
  unfold loadedOf, withDefaults. cbn [stored_stepGroups stored_selectedGroupId
    stored_selectedStepId stored_librarySteps default].
  f_equal.
  - by destruct (stored_selectedGroupId state).
  - by destruct (stored_selectedStepId state).
Qed.

Lemma jsStep_inj : Inj (=) (=) jsStep.
Proof.
  intros [i1 t1 c1 m1 a1 u1] [i2 t2 c2 m2 a2 u2] H.
  pose proof (f_equal (λ j, getProp j "id") H) as Hi.
  pose proof (f_equal (λ j, getProp j "title") H) as Ht.
  pose proof (f_equal (λ j, getProp j "code") H) as Hc.
  pose proof (f_equal (λ j, getProp j "muted") H) as Hm.
  pose proof (f_equal (λ j, getProp j "createdAt") H) as Ha.
  pose proof (f_equal (λ j, getProp j "updatedAt") H) as Hu.
  vm_compute in Hi, Ht, Hc, Hm, Ha, Hu. congruence.
Qed.

Lemma jsLibraryStep_inj : Inj (=) (=) jsLibraryStep.
Proof.
  intros [i1 t1 c1 a1 u1] [i2 t2 c2 a2 u2] H.
  pose proof (f_equal (λ j, getProp j "id") H) as Hi.
  pose proof (f_equal (λ j, getProp j "title") H) as Ht.
  pose proof (f_equal (λ j, getProp j "code") H) as Hc.
  pose proof (f_equal (λ j, getProp j "createdAt") H) as Ha.
  pose proof (f_equal (λ j, getProp j "updatedAt") H) as Hu.
  vm_compute in Hi, Ht, Hc, Ha, Hu. congruence.
Qed.


Lemma jsGroup_inj : Inj (=) (=) jsGroup.
Proof.
  intros [i1 t1 ss1 a1 u1 x1] [i2 t2 ss2 a2 u2 x2] H.
  pose proof (f_equal (λ j, getProp j "id") H) as Hi.
  pose proof (f_equal (λ j, getProp j "title") H) as Ht.
  pose proof (f_equal (λ j, getProp j "steps") H) as Hs.
  pose proof (f_equal (λ j, getProp j "createdAt") H) as Ha.
  pose proof (f_equal (λ j, getProp j "updatedAt") H) as Hu.
  pose proof (f_equal (λ j, getProp j "inputText") H) as Hx.
  destruct x1 as [x1|], x2 as [x2|].
  all: change (Some (Some (JStr i1)) = Some (Some (JStr i2))) in Hi.
  all: change (Some (Some (JStr t1)) = Some (Some (JStr t2))) in Ht.
  all: change (Some (Some (JArr (jsStep <$> ss1)))
               = Some (Some (JArr (jsStep <$> ss2)))) in Hs.
  all: change (Some (Some (JNum a1)) = Some (Some (JNum a2))) in Ha.
  all: change (Some (Some (JNum u1)) = Some (Some (JNum u2))) in Hu.
  all: vm_compute in Hx; try discriminate.
  all: injection Hs as Hs; apply (list_fmap_eq_inj jsStep jsStep_inj) in Hs.
  all: congruence.
Qed.

Lemma jsNullable_inj : Inj (=) (=) jsNullable.
Proof. intros [a|] [b|] H; simpl in H; congruence. Qed.

(** Two typed states with the same image are the same state. *)
Lemma loadedOf_inj : Inj (=) (=) loadedOf.
Proof.
  intros [g1 a1 b1 l1] [g2 a2 b2 l2] H. unfold loadedOf in H. simpl in H.
  injection H as Hg Ha Hb Hl.
  apply (list_fmap_eq_inj jsGroup jsGroup_inj) in Hg.
  apply (list_fmap_eq_inj jsLibraryStep jsLibraryStep_inj) in Hl.
  apply jsNullable_inj in Ha. apply jsNullable_inj in Hb.
  congruence.
Qed.

Lemma withDefaults_id state :
  Forall (λ g, is_Some (group_inputText g)) (stored_stepGroups state) →
  withDefaults state = state.
Proof.
  intros H. destruct state as [gs a b ls]. unfold withDefaults. simpl in *.
  f_equal. induction H as [|g gs [text Hg] _ IH]; [done|].
  rewrite fmap_cons, IH. f_equal.
  destruct g. simpl in Hg. subst. done.
Qed.

Lemma loadStoredState_not_object parsed :
  (∀ props, parsed ≠ JObj props) → loadStoredState (ItemJson parsed) = emptyLoaded.
Proof.
  intros H. destruct parsed; simpl; try done.
  - by destruct (negb b).
  - by destruct (negb (negb (n =? 0)%Z)).
  - by destruct (negb (negb (bool_decide (s = "")))).
  - by destruct (H props).
Qed.

Lemma loadStoredState_other_version props :
  props !! "version" ≠ Some (JNum STORAGE_VERSION) →
  loadStoredState (ItemJson (JObj props)) = emptyLoaded.
Proof.
  intros H. unfold loadStoredState. simpl.
  destruct (props !! "version") as [[| | v | | |]|]; try done.
  destruct (Z.eqb_spec v STORAGE_VERSION) as [->|]; [done|]. done.
Qed.

Lemma mapM_withInputText_null items :
  JNull ∈ items → mapM withInputText items = None.
Proof.
  intros Hin. destruct (mapM withInputText items) as [groups|] eqn:E; [|done].
  apply mapM_Some in E. apply list_elem_of_lookup in Hin as [i Hi].
  destruct (Forall2_lookup_l _ _ _ _ _ E Hi) as (y & _ & Hy).
  discriminate Hy.
Qed.

(** The defaulting of the groups goes through exactly when none of them
    is [null]. *)
Lemma withInputText_defaultedGroup group :
  group ≠ JNull → withInputText group = Some (defaultedGroup group).
Proof. by destruct group. Qed.

Lemma mapM_withInputText_defaulted items :
  JNull ∉ items → mapM withInputText items = Some (defaultedGroup <$> items).
Proof.
  induction items as [|item items IH]; intros Hnot; [done|].
  apply not_elem_of_cons in Hnot as [Hitem Hitems].
  rewrite fmap_cons. cbn [mapM].
  rewrite withInputText_defaultedGroup by done. by rewrite IH.
Qed.

(** C5, as amended. Saving the envelope and loading it back reproduces the
    groups, steps, library steps and the two selections, except that a
    group saved without [inputText] comes back with [inputText = ""]; when
    every group carries an [inputText] the state comes back exactly. A
    stored payload that is missing, unreadable or not JSON, whose top level
    is not an object, or whose [version] is not [1], loads as the canonical
    empty state. In an object of version [1], a [stepGroups] that is not
    an array is read as the empty array and the rest of the envelope is
    kept. When [stepGroups] is an array, everything turns on its
    elements: if one of them is [null] the whole envelope loads as the
    canonical empty state, whatever the other fields hold; if none is,
    each element is loaded as a copy of its own properties with
    [inputText] defaulted to the empty string ([defaultedGroup]), the
    selections are kept, and a [librarySteps] that is not an array is
    read as the empty array. *)
Theorem save_load_roundtrip (st : Store) :
  let state := storedStateOf st in
  loadStoredState (saveState state) = loadedOf (withDefaults state)
  ∧ (Forall (λ g, is_Some (group_inputText g)) (stepGroups st) →
     loadStoredState (saveState state) = loadedOf state)
  ∧ (∀ other, loadStoredState (saveState state) = loadedOf other →
     other = withDefaults state)
  ∧ (∀ item, item = ItemMissing ∨ item = ItemEmpty ∨ item = ItemUnreadable
             ∨ item = ItemMalformed →
     loadStoredState item = emptyLoaded)
  ∧ (∀ parsed, (∀ props, parsed ≠ JObj props) →
     loadStoredState (ItemJson parsed) = emptyLoaded)
  ∧ (∀ props, props !! "version" ≠ Some (JNum 1) →
     loadStoredState (ItemJson (JObj props)) = emptyLoaded)
  ∧ (∀ props, props !! "version" = Some (JNum 1) →
     arrayItems (props !! "stepGroups") = None →
     loadStoredState (ItemJson (JObj props))
     = mkLoaded 1 []
         (orElse (props !! "selectedGroupId") JNull)
         (orElse (props !! "selectedStepId") JNull)
         (default [] (arrayItems (props !! "librarySteps"))))
  ∧ (∀ props items, props !! "version" = Some (JNum 1) →
     props !! "stepGroups" = Some (JArr items) →
     (JNull ∈ items → loadStoredState (ItemJson (JObj props)) = emptyLoaded)
     ∧ (JNull ∉ items →
        loadStoredState (ItemJson (JObj props))
        = mkLoaded 1 (defaultedGroup <$> items)
            (orElse (props !! "selectedGroupId") JNull)
            (orElse (props !! "selectedStepId") JNull)
            (default [] (arrayItems (props !! "librarySteps"))))
     ∧ (JNull ∉ items → arrayItems (props !! "librarySteps") = None →
        loadStoredState (ItemJson (JObj props))
        = mkLoaded 1 (defaultedGroup <$> items)
            (orElse (props !! "selectedGroupId") JNull)
            (orElse (props !! "selectedStepId") JNull)
            []))
  ∧ (∀ props groups, props !! "version" = Some (JNum 1) →
     props !! "stepGroups" = Some (JArr (jsGroup <$> groups)) →
     arrayItems (props !! "librarySteps") = None →
     loadStoredState (ItemJson (JObj props))
     = mkLoaded 1 (jsGroup <$> (defaultInputText <$> groups))
         (orElse (props !! "selectedGroupId") JNull)
         (orElse (props !! "selectedStepId") JNull)
         []).
Proof.
  intros state.
  split; [|split; [|split; [|split; [|split; [|split; [|split; [|split]]]]]]].
  - apply loadStoredState_saveState.
  - intros H. rewrite loadStoredState_saveState.
    by rewrite withDefaults_id.
  - intros other H. rewrite loadStoredState_saveState in H.
    symmetry. by apply loadedOf_inj.
  - by intros item [->|[->|[->| ->]]].
  - apply loadStoredState_not_object.
  - apply loadStoredState_other_version.
  - intros props Hv Hg. rewrite loadStoredState_current by done.
    by rewrite Hg.
  - intros props items Hv Hg. rewrite loadStoredState_current by done.
    rewrite Hg. cbn [arrayItems]. split; [|split].
    + intros Hnull. by rewrite mapM_withInputText_null.
    + intros Hnot. by rewrite mapM_withInputText_defaulted.
    + intros Hnot Hl. rewrite mapM_withInputText_defaulted by done.
      by rewrite Hl.
  - intros props groups Hv Hg Hl. rewrite loadStoredState_current by done.
    rewrite Hg, Hl. cbn [arrayItems]. by rewrite mapM_withInputText.
Qed.

(** C5 as stated fails on a group that has no [inputText] yet, as
    [addGroup] makes them: it comes back with [inputText = ""]. It also
    fails on an array of groups that holds a [null]: the array is not
    coerced, the whole envelope is rejected, selection and library
    included. *)
Lemma save_load_counterexample :
  let st := performAll sampleClock sampleUUID [AddGroup] emptyStore in
  let state := storedStateOf st in
  stepGroups st = [mkGroup "id-0" "Group 1" [] 1000 1001 None]
  ∧ loadStoredState (saveState state) = loadedOf (withDefaults state)
  ∧ stored_stepGroups (withDefaults state)
    = [mkGroup "id-0" "Group 1" [] 1000 1001 (Some "")]
  ∧ loadStoredState (saveState state) ≠ loadedOf state
  ∧ loadStoredState
      (ItemJson (JObj (list_to_map
         [("version", JNum 1); ("stepGroups", JArr [JNull]);
          ("selectedGroupId", JStr "g");
          ("librarySteps", JArr [jsLibraryStep (mkLibraryStep "l" "t" "c" 0 0)])])))
    = emptyLoaded.
Proof.
  intros st state.
  assert (Hstate : state
            = mkStored [mkGroup "id-0" "Group 1" [] 1000 1001 None]
                (Some "id-0") None []).
  { vm_compute. reflexivity. }
  split; [vm_compute; reflexivity|].
  split; [apply loadStoredState_saveState|].
  rewrite loadStoredState_saveState, Hstate.
  split; [reflexivity|].
  split; [|reflexivity].
  intros H. apply loadedOf_inj in H. discriminate H.
Qed.

(* ------------------------------------------------------------------ *)
(** ** Timestamps *)
(* ------------------------------------------------------------------ *)

Section StampFacts.
Variable clock : nat → Z.
Variable randomUUID : nat → string.

Local Abbreviation freshStamp := (freshStamp clock).
Local Abbreviation freshEntity := (freshEntity clock).
Local Abbreviation readBetween := (readBetween clock).
Local Abbreviation stepRel := (stepRel clock).
Local Abbreviation stepsRel := (stepsRel clock).
Local Abbreviation groupRel := (groupRel clock).
Local Abbreviation libRel := (libRel clock).

Lemma readBetween_mono lo hi lo' hi' t :
  (lo' ≤ lo)%nat → (hi ≤ hi')%nat →
  readBetween lo hi t → readBetween lo' hi' t.
Proof. intros ?? (n & ? & ?). exists n. split; [lia|done]. Qed.

Lemma freshStamp_mono lo hi lo' hi' keeps olds olds' c u :
  (lo' ≤ lo)%nat → (hi ≤ hi')%nat → olds ⊆ olds' →
  freshStamp lo hi keeps olds c u → freshStamp lo' hi' keeps olds' c u.
Proof.
  intros Hlo Hhi Hsub (n & Hn & Hu & Hc). exists n.
  split; [lia|]. split; [done|]. intros Hk.
  destruct (Hc Hk) as [Hin|(m & Hm & Hcm)].
  - left. by apply Hsub.
  - right. exists m. split; [lia|done].
Qed.

Lemma freshStamp_olds lo hi keeps olds olds' c u :
  olds ⊆ olds' →
  freshStamp lo hi keeps olds c u → freshStamp lo hi keeps olds' c u.
Proof. by apply freshStamp_mono. Qed.

Lemma stepsRel_mono lo hi lo' hi' keeps prev next :
  (lo' ≤ lo)%nat → (hi ≤ hi')%nat →
  stepsRel lo hi keeps prev next → stepsRel lo' hi' keeps prev next.
Proof.
  intros Hlo Hhi H s' Hs'. destruct (H s' Hs') as [?|Hf]; [by left|right].
  by eapply freshStamp_mono.
Qed.

Lemma groupRel_mono lo hi lo' hi' keeps g g' :
  (lo' ≤ lo)%nat → (hi ≤ hi')%nat →
  groupRel lo hi keeps g g' → groupRel lo' hi' keeps g g'.
Proof.
  intros Hlo Hhi [->|(Hc & Hu & Hs)]; [by left|right].
  split; [done|]. split; [by eapply readBetween_mono|].
  by eapply stepsRel_mono.
Qed.

Lemma stepRel_mono lo hi lo' hi' keeps s s' :
  (lo' ≤ lo)%nat → (hi ≤ hi')%nat →
  stepRel lo hi keeps s s' → stepRel lo' hi' keeps s s'.
Proof.
  intros Hlo Hhi [->|(Hu & Hc)]; [by left|right].
  split; [by eapply readBetween_mono|done].
Qed.

Lemma libRel_mono lo hi lo' hi' keeps l l' :
  (lo' ≤ lo)%nat → (hi ≤ hi')%nat →
  libRel lo hi keeps l l' → libRel lo' hi' keeps l l'.
Proof.
  intros Hlo Hhi [->|(Hu & Hc)]; [by left|right].
  split; [by eapply readBetween_mono|done].
Qed.

Lemma Forall2_elem_of_r {X Y : Type} (R : X → Y → Prop) l k y :
  Forall2 R l k → y ∈ k → ∃ x, x ∈ l ∧ R x y.
Proof.
  intros HF (i & Hi)%list_elem_of_lookup.
  destruct (Forall2_lookup_r _ _ _ _ _ HF Hi) as (x & Hx & HR).
  exists x. split; [by eapply list_elem_of_lookup_2|done].
Qed.

Lemma stepRel_stepsRel lo hi keeps prev next :
  Forall2 (stepRel lo hi keeps) prev next → stepsRel lo hi keeps prev next.
Proof.
  intros HF s' Hs'.
  destruct (Forall2_elem_of_r _ _ _ _ HF Hs') as (s & Hs & [->|(Hu & Hc)]).
  - by left.
  - right. destruct Hu as (n & Hn & Hu). exists n.
    split; [done|]. split; [done|]. intros Hk. left.
    rewrite (Hc Hk). by apply list_elem_of_fmap_2.
Qed.

(** What the entity list of a group list looks like. *)
Lemma elem_of_groupEntities e groups :
  e ∈ groupEntities groups
  ↔ (∃ g, e = GroupEntity g ∧ g ∈ groups)
    ∨ (∃ g s, e = StepEntity s ∧ g ∈ groups ∧ s ∈ group_steps g).
Proof.
  unfold groupEntities. rewrite elem_of_app, !list_elem_of_fmap.
  setoid_rewrite list_elem_of_bind. split.
  - intros [(g & -> & Hg)|(s & -> & g & Hs & Hg)]; [left|right]; eauto.
  - intros [(g & -> & Hg)|(g & s & -> & Hg & Hs)]; [left|right]; eauto.
Qed.

Lemma groupRel_entities lo hi keeps groups groups' :
  Forall2 (groupRel lo hi keeps) groups groups' →
  ∀ e, e ∈ groupEntities groups' →
    e ∈ groupEntities groups
    ∨ freshEntity lo hi keeps (groupEntities groups) e.
Proof.
  intros HF e [(g' & -> & Hg')|(g' & s' & -> & Hg' & Hs')]%elem_of_groupEntities.
  - destruct (Forall2_elem_of_r _ _ _ _ HF Hg') as (g & Hg & [->|(Hc & Hu & _)]).
    + left. apply elem_of_groupEntities. left. eauto.
    + right. destruct Hu as (n & Hn & Hu). exists n.
      split; [done|]. split; [done|]. intros _. left. simpl. rewrite Hc.
      apply (list_elem_of_fmap_2' _ _ (GroupEntity g)); [|done].
      apply elem_of_groupEntities. left. eauto.
  - destruct (Forall2_elem_of_r _ _ _ _ HF Hg') as (g & Hg & [->|(_ & _ & Hss)]).
    + left. apply elem_of_groupEntities. right. eauto.
    + destruct (Hss s' Hs') as [Hin|Hfresh].
      * left. apply elem_of_groupEntities. right. eauto.
      * right. eapply freshStamp_olds; [|exact Hfresh].
        intros c (s & -> & Hs)%list_elem_of_fmap.
        apply (list_elem_of_fmap_2' _ _ (StepEntity s)); [|done].
        apply elem_of_groupEntities. right. eauto.
Qed.

End StampFacts.

Section UpdaterFacts.
Variable clock : nat → Z.
Variable randomUUID : nat → string.

Local Abbreviation freshStamp := (freshStamp clock).
Local Abbreviation readBetween := (readBetween clock).
Local Abbreviation stepRel := (stepRel clock).
Local Abbreviation stepsRel := (stepsRel clock).
Local Abbreviation groupRel := (groupRel clock).
Local Abbreviation updaterSpec := (updaterSpec clock).

Lemma stepsRel_subset lo hi keeps (prev next : list Step) :
  next ⊆ prev → stepsRel lo hi keeps prev next.
Proof. intros H s' Hs'. left. by apply H. Qed.

(** Two readings [c] then [u], taken in this order inside the window. *)
Lemma freshStamp_created lo hi keeps olds (m n : nat) :
  (lo ≤ m ≤ n)%nat → (n < hi)%nat →
  freshStamp lo hi keeps olds (clock m) (clock n).
Proof.
  intros Hm Hn. exists n. split; [lia|]. split; [done|].
  intros _. right. exists m. split; [lia|done].
Qed.

Lemma addStep_updater_spec keeps :
  updaterSpec keeps (λ prev,
    s <- createStep clock randomUUID (length prev + 1) ;;
    let next := prev ++ [s] in
    modify (setSelectedStepId (step_id <$> last next)) ;;;
    ret next).
Proof.
  intros prev s. unfold bind, ret, modify, createStep, dateNow,
    cryptoRandomUUID. simpl.
  split; [done|]. split; [done|]. split; [lia|].
  intros s' [Hin|Heq%list_elem_of_singleton]%elem_of_app; [by left|right].
  subst s'. simpl. apply freshStamp_created; lia.
Qed.

Lemma updateStep_updater_spec id updates :
  updaterSpec (ps_createdAt updates = None) (λ prev,
    traverse (λ step,
      if decide (step_id step = id) then
        t <- dateNow clock ;; ret (mergeStep step updates t)
      else ret step) prev).
Proof.
  intros prev s. set (f := λ step : Step, _).
  split; [|split].
  - apply (traverse_preserves f selectedGroupId). intros x s0. unfold f.
    by destruct (decide _).
  - apply (traverse_preserves f librarySteps). intros x s0. unfold f.
    by destruct (decide _).
  - destruct (traverse_window f
      (λ lo hi, stepRel lo hi (ps_createdAt updates = None)) prev s)
      as [Hle HF].
    + intros. by eapply stepRel_mono.
    + intros x s0. unfold f. destruct (decide _); unfold bind, ret, dateNow;
        simpl.
      * split; [lia|]. right. split.
        -- exists (ticks s0). split; [lia|done].
        -- intros Hk. destruct updates. simpl in *. by subst.
      * split; [lia|]. by left.
    + split; [done|]. by apply stepRel_stepsRel.
Qed.

Lemma deleteStep_updater_spec keeps id (selected : option string) :
  updaterSpec keeps (λ prev,
    let next := filter (λ step, step_id step ≠ id) prev in
    (if decide (selected = Some id)
     then modify (setSelectedStepId (step_id <$> head next))
     else ret tt) ;;;
    ret next).
Proof.
  intros prev s. unfold bind, ret, modify.
  destruct (decide (selected = Some id)); simpl.
  all: split; [done|]; split; [done|]; split; [lia|].
  all: apply stepsRel_subset; intros x; by intros [_ ?]%list_elem_of_filter.
Qed.

Lemma moveStep_updater_spec keeps i j :
  updaterSpec keeps (λ prev, ret (moveItem i j prev)).
Proof.
  intros prev s. unfold ret. simpl.
  split; [done|]. split; [done|]. split; [lia|].
  apply stepsRel_subset. intros x. by rewrite moveItem_perm.
Qed.

Lemma elem_of_splice_insert {A : Type} (k : Z) (x y : A) (l : list A) :
  y ∈ (JsArray.splice k 0 [x] l).2 → y = x ∨ y ∈ l.
Proof.
  unfold JsArray.splice. simpl.
  intros [Hin|[Heq|Hin]%elem_of_cons]%elem_of_app.
  - right. apply elem_of_take in Hin as (i & Hi & _).
    by eapply list_elem_of_lookup_2.
  - by left.
  - right. apply list_elem_of_lookup in Hin as [i Hi].
    rewrite lookup_drop in Hi. by eapply list_elem_of_lookup_2.
Qed.

Lemma addStepFromLibrary_updater_spec keeps libraryStep index :
  updaterSpec keeps (λ prev,
    i <- cryptoRandomUUID randomUUID ;;
    c <- dateNow clock ;;
    u <- dateNow clock ;;
    let newStep :=
      mkStep i (lib_title libraryStep) (lib_code libraryStep) false c u in
    let next :=
      match index with
      | Some k => snd (JsArray.splice k 0 [newStep] prev)
      | None => prev ++ [newStep]
      end in
    modify (setSelectedStepId (Some (step_id newStep))) ;;;
    ret next).
Proof.
  intros prev s. unfold bind, ret, modify, dateNow, cryptoRandomUUID. simpl.
  split; [done|]. split; [done|]. split; [lia|].
  intros s' Hs'.
  assert (s' = mkStep (randomUUID (uuids s)) (lib_title libraryStep)
                 (lib_code libraryStep) false (clock (ticks s))
                 (clock (S (ticks s))) ∨ s' ∈ prev) as [->|Hin].
  { destruct index as [k|].
    - by apply elem_of_splice_insert in Hs'.
    - apply elem_of_app in Hs' as [?|Heq%list_elem_of_singleton]; eauto. }
  - right. simpl. apply freshStamp_created; lia.
  - by left.
Qed.

(** *** From updaters to [updateActiveSteps] *)

Lemma updateGroupOf_spec keeps updater active g s :
  updaterSpec keeps updater →
  let r := updateGroupOf clock active updater g s in
  selectedGroupId r.2 = selectedGroupId s
  ∧ librarySteps r.2 = librarySteps s
  ∧ (ticks s ≤ ticks r.2)%nat
  ∧ groupRel (ticks s) (ticks r.2) keeps g r.1
  ∧ group_id r.1 = group_id g
  ∧ (group_id g = group_id active →
     readBetween (ticks s) (ticks r.2) (group_updatedAt r.1)).
Proof.
  intros Hu r. unfold r, updateGroupOf.
  destruct (decide (group_id g = group_id active)) as [Heq|Hne].
  - destruct (Hu (group_steps g) s) as (Hsel & Hlib & Hle & Hsteps).
    unfold bind, ret, dateNow. simpl.
    assert (Hread : readBetween (ticks s)
              (S (ticks (updater (group_steps g) s).2))
              (clock (ticks (updater (group_steps g) s).2))).
    { eexists. split; [|done]. lia. }
    split; [done|]. split; [done|]. split; [lia|].
    split; [|split; [done|by intros _]].
    right. split; [done|]. split; [done|].
    eapply stepsRel_mono; [| |exact Hsteps]; lia.
  - unfold ret. simpl. split; [done|]. split; [done|]. split; [lia|].
    split; [by left|]. split; [done|]. by intros ?.
Qed.

Lemma Forall2_refl_groupRel lo hi keeps groups :
  Forall2 (groupRel lo hi keeps) groups groups.
Proof. apply Forall_Forall2_diag, Forall_forall. intros g _. by left. Qed.

(** The stores before and after [updateActiveSteps]. *)
Lemma updateActiveSteps_spec keeps updater st :
  updaterSpec keeps updater →
  let st' := exec (updateActiveSteps clock updater) st in
  selectedGroupId st' = selectedGroupId st
  ∧ librarySteps st' = librarySteps st
  ∧ (ticks st ≤ ticks st')%nat
  ∧ Forall2 (groupRel (ticks st) (ticks st') keeps)
      (stepGroups st) (stepGroups st')
  ∧ (∀ g, activeGroup st = Some g →
     ∃ g', activeGroup st' = Some g'
       ∧ group_id g' = group_id g
       ∧ stampedDuring clock st st' (group_updatedAt g')
       ∧ groupRel (ticks st) (ticks st') keeps g g').
Proof.
  intros Hu st'. unfold st'.
  destruct (activeGroup st) as [active|] eqn:Hact.
  2:{ rewrite updateActiveSteps_inactive by done.
      split; [done|]. split; [done|]. split; [lia|].
      split; [apply Forall2_refl_groupRel|]. by intros g. }
  rewrite (updateActiveSteps_active _ _ _ _ Hact).
  set (body := updateGroupOf clock active updater).
  assert (Hs : selectedGroupId (traverse body (stepGroups st) st).2
               = selectedGroupId st).
  { apply (traverse_preserves body selectedGroupId). intros x s.
    apply (updateGroupOf_spec keeps updater active x s Hu). }
  assert (Hl : librarySteps (traverse body (stepGroups st) st).2
               = librarySteps st).
  { apply (traverse_preserves body librarySteps). intros x s.
    apply (updateGroupOf_spec keeps updater active x s Hu). }
  destruct (traverse_window body
    (λ lo hi g g', groupRel lo hi keeps g g' ∧ group_id g' = group_id g
       ∧ (group_id g = group_id active →
          readBetween lo hi (group_updatedAt g')))
    (stepGroups st) st) as [Hle HF].
  { intros lo hi lo' hi' x y Hlo Hhi (HR & Hid & Hst).
    split; [by eapply groupRel_mono|]. split; [done|].
    intros Heq. eapply readBetween_mono; [| |by apply Hst]; lia. }
  { intros x s.
    destruct (updateGroupOf_spec keeps updater active x s Hu)
      as (_ & _ & ? & ? & ? & ?). done. }
  simpl. split; [done|]. split; [done|]. split; [done|].
  split.
  { eapply Forall2_impl; [exact HF|]. by intros x y [? _]. }
  intros g [= <-].
  pose proof (find_Forall2
    (λ group, selectedGroupId st = Some (group_id group))
    (λ group, selectedGroupId st = Some (group_id group)) _ _ _ HF) as Hfind.
  unfold activeGroup in Hact. rewrite Hact in Hfind.
  assert (Hresp : ∀ x y : StepGroup,
            groupRel (ticks st) (ticks (traverse body (stepGroups st) st).2)
              keeps x y ∧ group_id y = group_id x
            ∧ (group_id x = group_id active →
               readBetween (ticks st)
                 (ticks (traverse body (stepGroups st) st).2)
                 (group_updatedAt y)) →
            (selectedGroupId st = Some (group_id x)
             ↔ selectedGroupId st = Some (group_id y))).
  { intros x y (_ & Hid & _). by rewrite Hid. }
  specialize (Hfind Hresp).
  inversion Hfind as [x y (HR & Hid & Hst) Hx Hy|]; subst.
  exists y. unfold activeGroup. simpl. rewrite Hs.
  split; [done|]. split; [done|]. split; [by apply Hst|done].
Qed.

End UpdaterFacts.

Section OperationFacts.
Variable clock : nat → Z.
Variable randomUUID : nat → string.

Local Abbreviation freshStamp := (freshStamp clock).
Local Abbreviation freshEntity := (freshEntity clock).
Local Abbreviation readBetween := (readBetween clock).
Local Abbreviation stepsRel := (stepsRel clock).
Local Abbreviation groupRel := (groupRel clock).
Local Abbreviation libRel := (libRel clock).
Local Abbreviation stampSpec := (stampSpec clock).
Local Abbreviation perform := (perform clock randomUUID).

Lemma groupEntities_subset groups groups' :
  groups' ⊆ groups → groupEntities groups' ⊆ groupEntities groups.
Proof.
  intros Hsub e. rewrite !elem_of_groupEntities.
  intros [(g & -> & Hg)|(g & s & -> & Hg & Hs)]; [left|right]; eauto 6.
Qed.

(** Assembling [stampSpec] from what happened to the groups and to the
    library. *)
Lemma stampSpec_intro keeps st st' :
  (ticks st ≤ ticks st')%nat →
  (∀ e, e ∈ groupEntities (stepGroups st') →
     e ∈ groupEntities (stepGroups st)
     ∨ freshEntity (ticks st) (ticks st') keeps
         (groupEntities (stepGroups st)) e) →
  (∀ l, l ∈ librarySteps st' →
     l ∈ librarySteps st
     ∨ freshStamp (ticks st) (ticks st') keeps
         (lib_createdAt <$> librarySteps st) (lib_createdAt l)
         (lib_updatedAt l)) →
  stampSpec keeps st st'.
Proof.
  intros Hle Hg Hl. split; [done|]. unfold entities.
  intros e [He|(l & -> & Hin)%list_elem_of_fmap]%elem_of_app.
  - destruct (Hg e He) as [?|Hf].
    + left. apply elem_of_app. by left.
    + right. eapply (freshStamp_olds clock); [|exact Hf].
      intros c (e0 & -> & He0)%list_elem_of_fmap.
      apply list_elem_of_fmap_2, elem_of_app. by left.
  - destruct (Hl l Hin) as [?|Hf].
    + left. apply elem_of_app. right. by apply list_elem_of_fmap_2.
    + right. eapply (freshStamp_olds clock); [|exact Hf].
      intros c (l0 & -> & Hl0)%list_elem_of_fmap.
      apply (list_elem_of_fmap_2' _ _ (LibraryEntity l0)); [|done].
      apply elem_of_app. right. by apply list_elem_of_fmap_2.
Qed.

Lemma stampSpec_same_entities keeps st st' :
  (ticks st ≤ ticks st')%nat →
  stepGroups st' ⊆ stepGroups st → librarySteps st' ⊆ librarySteps st →
  stampSpec keeps st st'.
Proof.
  intros Hle Hg Hl. apply stampSpec_intro; [done| |].
  - intros e He. left. by eapply groupEntities_subset.
  - intros l Hin. left. by apply Hl.
Qed.

Lemma stampSpec_groups keeps st st' :
  (ticks st ≤ ticks st')%nat →
  Forall2 (groupRel (ticks st) (ticks st') keeps)
    (stepGroups st) (stepGroups st') →
  librarySteps st' = librarySteps st →
  stampSpec keeps st st'.
Proof.
  intros Hle HF Hl. apply stampSpec_intro; [done| |].
  - by apply groupRel_entities.
  - intros l Hin. left. by rewrite <- Hl.
Qed.

Lemma stampSpec_updateActiveSteps keeps updater st :
  updaterSpec clock keeps updater →
  stampSpec keeps st (exec (updateActiveSteps clock updater) st).
Proof.
  intros Hu.
  destruct (updateActiveSteps_spec clock keeps updater st Hu)
    as (_ & Hl & Hle & HF & _).
  by apply stampSpec_groups.
Qed.

(** A group whose title or input text is replaced. *)
Lemma stampSpec_retitle keeps (edit : StepGroup → Z → StepGroup) id st :
  (∀ g t, group_createdAt (edit g t) = group_createdAt g
          ∧ group_updatedAt (edit g t) = t
          ∧ group_steps (edit g t) = group_steps g) →
  let f := λ group : StepGroup,
    if decide (group_id group = id) then
      t <- dateNow clock ;; ret (edit group t)
    else ret group in
  stampSpec keeps st
    (setStepGroups (traverse f (stepGroups st) st).1
       (traverse f (stepGroups st) st).2).
Proof.
  intros Hedit f.
  assert (Hl : librarySteps (traverse f (stepGroups st) st).2 = librarySteps st).
  { apply (traverse_preserves f librarySteps). intros x s. unfold f.
    by destruct (decide _). }
  destruct (traverse_window f (λ lo hi, groupRel lo hi keeps)
              (stepGroups st) st) as [Hle HF].
  { intros. by eapply groupRel_mono. }
  { intros x s. unfold f. destruct (decide _); unfold bind, ret, dateNow; simpl.
    - split; [lia|]. right. destruct (Hedit x (clock (ticks s))) as (Hc & Hu & Hs).
      split; [done|]. split.
      + exists (ticks s). split; [lia|done].
      + rewrite Hs. by apply stepsRel_subset.
    - split; [lia|]. by left. }
  by apply stampSpec_groups.
Qed.

Lemma stampSpec_library_append keeps st (m n : nat) (new : LibraryStep) st' :
  (ticks st ≤ m ≤ n)%nat → (n < ticks st')%nat →
  lib_createdAt new = clock m → lib_updatedAt new = clock n →
  stepGroups st' = stepGroups st →
  librarySteps st' = librarySteps st ++ [new] →
  stampSpec keeps st st'.
Proof.
  intros Hm Hn Hc Hu Hg Hl. apply stampSpec_intro; [lia| |].
  - intros e He. left. by rewrite <- Hg.
  - intros l. rewrite Hl.
    intros [?|Heq%list_elem_of_singleton]%elem_of_app; [by left|right].
    subst l. rewrite Hc, Hu. apply freshStamp_created; lia.
Qed.

(** Every operation satisfies [stampSpec]. *)
Lemma perform_stampSpec op st :
  stampSpec (keepsCreatedAt op) st (exec (perform op) st).
Proof.
  destruct op; simpl.
  - (* addGroup *)
    apply stampSpec_intro; [simpl; lia| |].
    + intros e [(g & -> & Hg)|(g & s & -> & Hg & Hs)]%elem_of_groupEntities.
      * simpl in Hg. apply elem_of_app in Hg as [Hg|Hg%list_elem_of_singleton].
        -- left. apply elem_of_groupEntities. left. eauto.
        -- right. subst g. simpl. apply freshStamp_created; lia.
      * simpl in Hg. apply elem_of_app in Hg as [Hg|Hg%list_elem_of_singleton].
        -- left. apply elem_of_groupEntities. right. eauto.
        -- subst g. simpl in Hs. by apply elem_of_nil in Hs.
    + intros l Hl. by left.
  - (* updateGroupTitle *)
    apply (stampSpec_retitle _
      (λ g t, mkGroup (group_id g) title (group_steps g) (group_createdAt g) t
                (group_inputText g))). done.
  - (* deleteGroup *)
    unfold exec, deleteGroup, bind, getStore, modify. simpl.
    case_decide; simpl.
    all: apply stampSpec_same_entities; simpl; [done| |done].
    all: intros g; by intros [_ ?]%list_elem_of_filter.
  - (* updateGroupInputText *)
    apply (stampSpec_retitle _
      (λ g t, mkGroup (group_id g) (group_title g) (group_steps g)
                (group_createdAt g) t (Some inputText))). done.
  - by apply stampSpec_same_entities.
  - (* addStep *)
    apply stampSpec_updateActiveSteps, addStep_updater_spec.
  - (* updateStep *)
    apply stampSpec_updateActiveSteps, updateStep_updater_spec.
  - (* deleteStep *)
    apply (stampSpec_updateActiveSteps _ _ st),
      (deleteStep_updater_spec clock _ id (selectedStepId st)).
  - (* moveStep *)
    apply stampSpec_updateActiveSteps, moveStep_updater_spec.
  - by apply stampSpec_same_entities.
  - (* addLibraryStep *)
    apply (stampSpec_library_append _ _ (ticks st) (S (ticks st))
             (createLibraryStep clock randomUUID
                (length (librarySteps st) + 1) None st).1);
      simpl; (done || lia).
  - (* updateLibraryStep *)
    unfold exec, updateLibraryStep, bind, getStore, modify. simpl.
    set (f := λ step : LibraryStep, _).
    assert (Hg : stepGroups (traverse f (librarySteps st) st).2 = stepGroups st).
    { apply (traverse_preserves f stepGroups). intros x s. unfold f.
      by destruct (decide _). }
    destruct (traverse_window f
      (λ lo hi, libRel lo hi (pl_createdAt updates = None))
      (librarySteps st) st) as [Hle HF].
    { intros. by eapply libRel_mono. }
    { intros x s. unfold f. destruct (decide _); unfold bind, ret, dateNow; simpl.
      - split; [lia|]. right. split.
        + exists (ticks s). split; [lia|done].
        + intros Hk. destruct updates. simpl in *. by subst.
      - split; [lia|]. by left. }
    apply stampSpec_intro; simpl; [done| |].
    + intros e He. left. by rewrite <- Hg.
    + intros l Hin.
      destruct (Forall2_elem_of_r _ _ _ _ HF Hin) as (l0 & Hl0 & [->|(Hu & Hc)]).
      * by left.
      * right. destruct Hu as (n & Hn & Hu). exists n.
        split; [done|]. split; [done|]. intros Hk. left.
        rewrite (Hc Hk). by apply list_elem_of_fmap_2.
  - (* deleteLibraryStep *)
    unfold exec, deleteLibraryStep, bind, getStore, modify. simpl.
    case_decide; simpl.
    all: apply stampSpec_same_entities; simpl; [done|done|].
    all: intros l; by intros [_ ?]%list_elem_of_filter.
  - (* moveLibraryStep *)
    apply stampSpec_same_entities; simpl; [done|done|].
    intros l. by rewrite moveItem_perm.
  - (* saveStepToLibrary *)
    destruct stepToSave as [given|].
    + apply (stampSpec_library_append _ _ (ticks st) (S (ticks st))
               (createLibraryStep clock randomUUID
                  (length (librarySteps st) + 1)
                  (Some (default given
                     (JsArray.find (λ s, step_id s = step_id given)
                        (activeSteps st)))) st).1);
        simpl; (done || lia).
    + by apply stampSpec_same_entities.
  - (* addStepFromLibrary *)
    apply stampSpec_updateActiveSteps, addStepFromLibrary_updater_spec.
  - by apply stampSpec_same_entities.
Qed.

End OperationFacts.

Section ActiveGroupFacts.
Variable clock : nat → Z.
Variable randomUUID : nat → string.

Local Abbreviation readBetween := (readBetween clock).
Local Abbreviation perform := (perform clock randomUUID).

(** A relation between the step list given to the updater and the one it
    returns carries over to the active group. *)
Lemma updateActiveSteps_active_rel
  (Rs : nat → nat → list Step → list Step → Prop) updater st g :
  (∀ lo hi lo' hi' a b, (lo' ≤ lo)%nat → (hi ≤ hi')%nat →
     Rs lo hi a b → Rs lo' hi' a b) →
  (∀ prev s,
     selectedGroupId (updater prev s).2 = selectedGroupId s
     ∧ (ticks s ≤ ticks (updater prev s).2)%nat
     ∧ Rs (ticks s) (ticks (updater prev s).2) prev (updater prev s).1) →
  activeGroup st = Some g →
  let st' := exec (updateActiveSteps clock updater) st in
  ∃ g', activeGroup st' = Some g'
    ∧ Rs (ticks st) (ticks st') (group_steps g) (group_steps g').
Proof.
  intros Hmono Hu Hact st'. unfold st'.
  rewrite (updateActiveSteps_active _ _ _ _ Hact).
  set (body := updateGroupOf clock g updater).
  assert (Hs : selectedGroupId (traverse body (stepGroups st) st).2
               = selectedGroupId st).
  { apply (traverse_preserves body selectedGroupId). intros x s.
    unfold body, updateGroupOf. destruct (decide _); [|done].
    unfold bind, ret, dateNow. simpl. apply Hu. }
  pose (R := λ (lo hi : nat) (x y : StepGroup),
          group_id y = group_id x
          ∧ (group_id x = group_id g →
             Rs lo hi (group_steps x) (group_steps y))).
  destruct (traverse_window body R (stepGroups st) st) as [Hle HF].
  { intros lo hi lo' hi' x y Hlo Hhi [Hid HR]. split; [done|].
    intros Heq. by eapply Hmono; [| |apply HR]. }
  { intros x s. unfold body, updateGroupOf, R.
    destruct (decide _) as [Heq|Hne]; unfold bind, ret, dateNow; simpl.
    - destruct (Hu (group_steps x) s) as (_ & Hle & HR).
      split; [lia|]. split; [done|]. intros _.
      eapply Hmono; [| |exact HR]; lia.
    - split; [lia|]. split; [done|]. by intros ?. }
  assert (Hresp : ∀ x y : StepGroup,
            R (ticks st) (ticks (traverse body (stepGroups st) st).2) x y →
            (selectedGroupId st = Some (group_id x)
             ↔ selectedGroupId st = Some (group_id y))).
  { intros x y [Hid _]. by rewrite Hid. }
  pose proof (find_Forall2 _ _ _ _ _ HF Hresp) as Hfind.
  unfold activeGroup in Hact. rewrite Hact in Hfind.
  inversion Hfind as [x y [Hid HR] Hx Hy|]; subst.
  exists y. unfold activeGroup. simpl. rewrite Hs.
  split; [done|]. by apply HR.
Qed.

(** [updateStep] refreshes [updatedAt] on every step it changes. *)
Lemma updateStep_refreshes id updates st g :
  activeGroup st = Some g →
  let st' := exec (updateStep clock id updates) st in
  ∃ g', activeGroup st' = Some g'
    ∧ Forall2 (refreshed clock id updates (ticks st) (ticks st'))
        (group_steps g) (group_steps g').
Proof.
  intros Hact.
  apply (updateActiveSteps_active_rel
    (λ lo hi, Forall2 (refreshed clock id updates lo hi))); [| |done].
  - intros lo hi lo' hi' a b Hlo Hhi HF.
    eapply Forall2_impl; [exact HF|]. intros x y. unfold refreshed.
    destruct (decide _); [|done]. intros (t & Ht & ->).
    exists t. split; [by eapply readBetween_mono|done].
  - intros prev s. set (f := λ step : Step, _).
    split; [|apply (traverse_window f (refreshed clock id updates) prev s)].
    + apply (traverse_preserves f selectedGroupId). intros x s0. unfold f.
      by destruct (decide _).
    + intros lo hi lo' hi' x y Hlo Hhi. unfold refreshed.
      destruct (decide _); [|done]. intros (t & Ht & ->).
      exists t. split; [by eapply readBetween_mono|done].
    + intros x s0. unfold f, refreshed.
      destruct (decide _); unfold bind, ret, dateNow; simpl.
      * split; [lia|]. exists (clock (ticks s0)). split; [|done].
        exists (ticks s0). split; [lia|done].
      * split; [lia|done].
Qed.

(** Every operation that changes the active group's steps stamps the
    active group. *)
Lemma stepMutation_stamps_group op st g :
  isStepMutation op → activeGroup st = Some g →
  let st' := exec (perform op) st in
  ∃ g', activeGroup st' = Some g'
    ∧ group_id g' = group_id g
    ∧ stampedDuring clock st st' (group_updatedAt g').
Proof.
  intros Hop Hact st'.
  assert (∃ updater,
            updaterSpec clock (keepsCreatedAt op) updater
            ∧ st' = exec (updateActiveSteps clock updater) st)
    as (updater & Hu & ->).
  { unfold st'. destruct op; try done; simpl; eexists; (split; [|reflexivity]).
    - apply addStep_updater_spec.
    - apply updateStep_updater_spec.
    - apply (deleteStep_updater_spec clock _ id (selectedStepId st)).
    - apply moveStep_updater_spec.
    - apply addStepFromLibrary_updater_spec. }
  destruct (updateActiveSteps_spec clock _ updater st Hu)
    as (_ & _ & _ & _ & Hgroup).
  destruct (Hgroup g Hact) as (g' & ? & ? & ? & _). eauto.
Qed.

End ActiveGroupFacts.

Section InvariantFacts.
Variable clock : nat → Z.
Variable randomUUID : nat → string.

Local Abbreviation perform := (perform clock randomUUID).
Local Abbreviation performAll := (performAll clock randomUUID).

Lemma stampSpec_wellStamped (keeps : Prop) st st' :
  clockMonotone clock → keeps →
  stampSpec clock keeps st st' →
  wellStamped clock st → wellStamped clock st'.
Proof.
  intros Hmono Hkeeps [Hle Hspec] Hinv e He.
  destruct (Hspec e He) as [Hold|(n & Hn & Hu & Hc)].
  - destruct (Hinv e Hold) as [Hord Hbound]. split; [done|].
    intros k Hk. apply Hbound. lia.
  - split.
    + rewrite Hu. destruct (Hc Hkeeps) as [Hin|(m & Hm & ->)].
      * apply list_elem_of_fmap in Hin as (e0 & -> & He0).
        destruct (Hinv e0 He0) as [Hord Hbound].
        etrans; [exact Hord|]. apply Hbound. lia.
      * apply Hmono. lia.
    + intros k Hk. rewrite Hu. apply Hmono. lia.
Qed.

Lemma wellStamped_perform op st :
  clockMonotone clock → keepsCreatedAt op →
  wellStamped clock st → wellStamped clock (exec (perform op) st).
Proof.
  intros Hmono Hkeeps. eapply stampSpec_wellStamped; [done|exact Hkeeps|].
  apply perform_stampSpec.
Qed.

Lemma wellStamped_performAll ops st :
  clockMonotone clock → Forall keepsCreatedAt ops →
  wellStamped clock st → wellStamped clock (performAll ops st).
Proof.
  intros Hmono Hops. revert st.
  induction Hops as [|op ops Hop _ IH]; intros st Hinv; [done|].
  simpl. apply IH. by apply wellStamped_perform.
Qed.

Lemma wellStamped_empty : wellStamped clock emptyStore.
Proof. intros e He. by apply elem_of_nil in He. Qed.

End InvariantFacts.

Lemma sampleClock_monotone : clockMonotone sampleClock.
Proof. intros i j Hij. unfold sampleClock. lia. Qed.

(** C6, as amended. Every operation stamps the entities it creates or
    changes: each entity of the store after the operation is an entity of
    the store before it, unchanged, or has [updatedAt] equal to a reading
    of the clock taken during the operation. Every operation that changes
    the steps of the active group ([addStep], [updateStep], [deleteStep],
    [moveStep], [addStepFromLibrary]) stamps the active group.
    [updateStep(id, updates)] replaces every active step carrying [id] by
    its merge with [updates] stamped with such a reading, so [updatedAt] is
    refreshed on every change of title, code or muted. Consequently, when
    the clock never goes back and no update payload carries [createdAt],
    every operation keeps a store well stamped (each entity has
    [updatedAt >= createdAt] and no [updatedAt] is ahead of the clock),
    and every step, group and library step of a store reached from the
    empty store by any sequence of operations has
    [updatedAt >= createdAt]. *)
Theorem timestamps_contract (clock : nat → Z) (randomUUID : nat → string) :
  (∀ op st e,
     e ∈ entities (exec (perform clock randomUUID op) st) →
     e ∈ entities st
     ∨ stampedDuring clock st (exec (perform clock randomUUID op) st)
         (updatedAtOf e))
  ∧ (∀ op st g,
       isStepMutation op → activeGroup st = Some g →
       ∃ g', activeGroup (exec (perform clock randomUUID op) st) = Some g'
         ∧ group_id g' = group_id g
         ∧ stampedDuring clock st (exec (perform clock randomUUID op) st)
             (group_updatedAt g'))
  ∧ (∀ id updates st g,
       activeGroup st = Some g →
       ∃ g', activeGroup (exec (updateStep clock id updates) st) = Some g'
         ∧ Forall2
             (refreshed clock id updates (ticks st)
                (ticks (exec (updateStep clock id updates) st)))
             (group_steps g) (group_steps g'))
  ∧ (clockMonotone clock →
     ∀ op st, keepsCreatedAt op → wellStamped clock st →
       wellStamped clock (exec (perform clock randomUUID op) st))
  ∧ (clockMonotone clock →
     ∀ ops, Forall keepsCreatedAt ops →
       timestampsOrdered (performAll clock randomUUID ops emptyStore)).
Proof.
  split; [|split; [|split; [|split]]].
  - intros op st e He.
    destruct (perform_stampSpec clock randomUUID op st) as [_ Hspec].
    destruct (Hspec e He) as [?|(n & Hn & Hu & _)]; [by left|right].
    by exists n.
  - intros op st g. apply stepMutation_stamps_group.
  - intros id updates st g. apply updateStep_refreshes.
  - intros Hmono op st. by apply wellStamped_perform.
  - intros Hmono ops Hops e He.
    eapply (wellStamped_performAll clock randomUUID ops emptyStore); try done.
    apply wellStamped_empty.
Qed.

(** The ordering part of C6 at work on a run of seven operations. *)
Lemma timestamps_contract_witness :
  timestampsOrdered (performAll sampleClock sampleUUID sampleOps emptyStore).
Proof.
  apply (timestamps_contract sampleClock sampleUUID).
  - exact sampleClock_monotone.
  - repeat constructor.
Defined.

(** C6 as stated fails when an update payload carries [createdAt]: the
    clock is monotone, and yet the updated step has [createdAt] after
    [updatedAt]. *)
Lemma timestamps_counterexample :
  let st := performAll sampleClock sampleUUID
              [AddGroup; AddStep; UpdateStep "id-1" backdating] emptyStore in
  activeSteps st
  = [mkStep "id-1" "title 1" "return input" false 5000 1005]
  ∧ (1005 < 5000)%Z
  ∧ ¬ timestampsOrdered st.
Proof.
  intros st.
  assert (Hgroups : stepGroups st
            = [mkGroup "id-0" "Group 1"
                 [mkStep "id-1" "title 1" "return input" false 5000 1005]
                 1000 1006 None]).
  { vm_compute. reflexivity. }
  split; [vm_compute; reflexivity|]. split; [reflexivity|].
  intros H.
  assert (Hin : StepEntity
            (mkStep "id-1" "title 1" "return input" false 5000 1005)
          ∈ entities st).
  { unfold entities. rewrite Hgroups.
    apply elem_of_app. left. apply elem_of_groupEntities. right.
    eexists _, _. split; [done|]. split; apply list_elem_of_here. }
  specialize (H _ Hin). simpl in H. lia.
Qed.

(* ------------------------------------------------------------------ *)
(** ** Instances of the engine theorems *)
(* ------------------------------------------------------------------ *)

(** C2 on a pipeline of three steps, one of them muted: the engine of
    [usePipeline] on the whole list, and the engine of [App.tsx] on the
    steps up to the selected one. *)
Lemma execute_is_left_fold_witness :
  let a := sampleStep "a" "return input + '!'" false in
  allSucceed sampleEngine "hello" (unmuted sampleGoodPipeline)
  ∧ executePipeline sampleEngine "hello" sampleGoodPipeline ScopeAll None
    = Normal (mkExecResult "true" ∅ None)
  ∧ resolveScopeSteps_App sampleGoodPipeline (Some a) ScopeTo None = [a]
  ∧ executePipeline_App sampleEngine "hello" sampleGoodPipeline (Some a)
      ScopeTo None
    = Normal (mkExecResult "hello!" ∅ None).
Proof.
  intros a.
  assert (H : allSucceed sampleEngine "hello" (unmuted sampleGoodPipeline)).
  { simpl. exact I. }
  split; [exact H|]. split.
  { exact (proj1 (execute_is_left_fold sampleEngine "hello" sampleGoodPipeline
                    None ScopeAll None) H). }
  split; [reflexivity|].
  refine (proj1 (proj2 (proj2 (proj2
            (execute_is_left_fold sampleEngine "hello" sampleGoodPipeline
               (Some a) ScopeTo None)))) _).
  simpl. exact I.
Defined.

(** The halting behaviour on a pipeline whose second evaluated step throws
    an [Error]. *)
Lemma execute_halts_at_first_failure_example :
  unmuted samplePipeline !! 1%nat
  = Some (sampleStep "c" "throw new Error('bad')" false)
  ∧ executePipeline sampleEngine "hello" samplePipeline ScopeAll None
    = Normal (mkExecResult "hello!"
                (mkRecord {[ "c" := JsString "bad" ]} None)
                (Some (sampleStep "c" "throw new Error('bad')" false))).
Proof.
  split; [reflexivity|].
  refine (proj1 (execute_halts_at_first_failure sampleEngine "hello"
                   samplePipeline ScopeAll None 1
                   (sampleStep "c" "throw new Error('bad')" false)
                   (ThrownError "bad") (JsString "bad") _ _ _ _)).
  - reflexivity.
  - simpl. exact I.
  - reflexivity.
  - reflexivity.
Qed.

(** C1 fails on a pipeline whose second evaluated step throws an object
    that has no string conversion: the call throws a [TypeError]. *)
Lemma execute_throws_when_message_fails_witness :
  unmuted sampleBadPipeline !! 1%nat
  = Some (sampleStep "c" "throw Object.create(null)" false)
  ∧ executePipeline sampleEngine "hello" sampleBadPipeline ScopeAll None
    = Throw (ThrownError "Cannot convert object to primitive value").
Proof.
  split; [reflexivity|].
  refine (execute_throws_when_message_fails sampleEngine "hello"
            sampleBadPipeline ScopeAll None 1
            (sampleStep "c" "throw Object.create(null)" false)
            (ThrownValue (JsUnprintable
               (ThrownError "Cannot convert object to primitive value")))
            (ThrownError "Cannot convert object to primitive value") _ _ _ _).
  - reflexivity.
  - simpl. exact I.
  - reflexivity.
  - reflexivity.
Defined.

(** C9 on a step that returns [null]. *)
Lemma nullish_result_becomes_empty_string_witness :
  sampleEngine "return null" "hello" = Normal JsNull
  ∧ runSteps sampleEngine "hello"
      [sampleStep "n" "return null" false;
       sampleStep "a" "return input + '!'" false]
    = Normal (mkExecResult "!" ∅ None).
Proof.
  split; [reflexivity|].
  refine (proj1 (nullish_result_becomes_empty_string sampleEngine "hello"
                   (sampleStep "n" "return null" false)
                   [sampleStep "a" "return input + '!'" false]
                   JsNull _ _) _); reflexivity.
Defined.

(* ------------------------------------------------------------------ *)
(** ** Further instances *)
(* ------------------------------------------------------------------ *)

(** C3 on a list of three steps with the anchor in the middle. *)
Lemma resolveScope_contract_witness :
  let a := sampleStep "a" "return input" false in
  let b := sampleStep "b" "return input" false in
  let c := sampleStep "c" "return input" false in
  resolveScopeSteps [a; b; c] ScopeFrom (Some "b") = [b; c]
  ∧ resolveScopeSteps [a; b; c] ScopeTo (Some "b") = [a; b].
Proof.
  intros a b c.
  refine (proj1 (proj2 (proj2 (resolveScope_contract [a; b; c] (Some "b") None)))
            [a] b [c] "b" _ _ _ _ _); try done.
  intros H. apply list_elem_of_singleton in H. discriminate H.
Defined.

(** C4 on a group of three steps: the first step is moved to the end. *)
Lemma move_witness :
  inRange 0 2 (activeSteps sampleStore3)
  ∧ activeSteps (exec (moveStep sampleClock 0 2) sampleStore3)
    = [sampleStep "b" "return input + '!'" false;
       sampleStep "c" "return null" true;
       sampleStep "a" "return input" false]
  ∧ relocated 0 2 (activeSteps sampleStore3)
      (activeSteps (exec (moveStep sampleClock 0 2) sampleStore3)).
Proof.
  assert (H : inRange 0 2 (activeSteps sampleStore3)).
  { unfold inRange. simpl. lia. }
  split; [exact H|]. split; [reflexivity|].
  exact (proj1 (proj2 (proj2
    (move_out_of_range_noop_in_range_relocates sampleClock sampleStore3 0 2)))
    H).
Defined.

(** C7 on a store with a selected step, for the [App.tsx] version. *)
Lemma saveStepToLibrary_contract_witness :
  selectedStep sampleStore = Some (sampleStep "s" "return input" false)
  ∧ librarySteps
      (exec (saveStepToLibrary_App sampleClock sampleUUID None) sampleStore)
    = [mkLibraryStep "id-0" "title s" "return input" 1000 1001].
Proof.
  split; [reflexivity|].
  exact (proj1 (proj2 (saveStepToLibrary_contract sampleClock sampleUUID
                         sampleStore))
           (sampleStep "s" "return input" false) eq_refl).
Defined.

(** An array of groups that holds [null] is not a malformed array in the
    sense of C5: reading [inputText] of [null] throws, and the loader's
    [catch] clause returns the empty state. *)
Lemma loadStoredState_null_group :
  loadStoredState
    (ItemJson (JObj (list_to_map
       [("version", JNum 1); ("stepGroups", JArr [JNull])])))
  = emptyLoaded.
Proof. reflexivity. Qed.

(** The scenario of the specification, with [+ '!'] as the transform:
    one step, then a second step, the second step muted, the second step
    replaced by one that throws. *)
Lemma pipeline_scenario :
  let first := sampleStep "1" "return input + '!'" false in
  let second := sampleStep "2" "return input + '!'" false in
  let second_muted := sampleStep "2" "return input + '!'" true in
  let second_bad := sampleStep "2" "throw new Error('bad')" false in
  executePipeline sampleEngine "hello" [first] ScopeAll None
  = Normal (mkExecResult "hello!" ∅ None)
  ∧ executePipeline sampleEngine "hello" [first; second] ScopeAll None
    = Normal (mkExecResult "hello!!" ∅ None)
  ∧ executePipeline sampleEngine "hello" [first; second_muted] ScopeAll None
    = Normal (mkExecResult "hello!" ∅ None)
  ∧ executePipeline sampleEngine "hello" [first; second_bad] ScopeAll None
    = Normal (mkExecResult "hello!"
                (mkRecord {[ "2" := JsString "bad" ]} None)
                (Some second_bad)).
Proof. repeat split. Qed.

(* ------------------------------------------------------------------ *)
(** ** The active group and its updaters, in closed form *)
(* ------------------------------------------------------------------ *)

Section FindSplit.
Context {A : Type} (P : A → Prop) `{!∀ x, Decision (P x)}.

Lemma find_split l x :
  JsArray.find P l = Some x →
  ∃ pre post, l = pre ++ x :: post ∧ Forall (λ y, ¬ P y) pre ∧ P x.
Proof.
  unfold JsArray.find.
  destruct (list_find P l) as [[i y]|] eqn:E; [|done]. simpl. intros [= ->].
  apply list_find_Some in E as (Hi & HP & Hbefore).
  exists (take i l), (drop (S i) l).
  split; [by rewrite take_drop_middle|]. split; [|done].
  apply Forall_forall. intros z Hz.
  apply list_elem_of_lookup in Hz as [j Hj].
  pose proof (lookup_lt_Some _ _ _ Hj) as Hlt.
  rewrite length_take in Hlt.
  rewrite lookup_take_lt in Hj by lia.
  apply (Hbefore j z Hj). lia.
Qed.

Lemma find_first pre x post :
  Forall (λ y, ¬ P y) pre → P x → JsArray.find P (pre ++ x :: post) = Some x.
Proof.
  intros Hpre Hx. induction Hpre as [|y pre Hy _ IH]; simpl.
  - rewrite find_cons. by rewrite decide_True.
  - rewrite find_cons. by rewrite decide_False.
Qed.

Lemma find_is_Some l : is_Some (JsArray.find P l) ↔ Exists P l.
Proof.
  induction l as [|y l IH].
  - split; [intros [? Hs]; discriminate Hs|intros Hx; inversion Hx].
  - rewrite find_cons, Exists_cons. destruct (decide (P y)); [split; [by left|by eexists]|].
    rewrite IH. tauto.
Qed.

End FindSplit.

Lemma traverse_app {A B : Type} (f : A → M B) l1 l2 st :
  traverse f (l1 ++ l2) st
  = ((traverse f l1 st).1 ++ (traverse f l2 (traverse f l1 st).2).1,
     (traverse f l2 (traverse f l1 st).2).2).
Proof.
  revert st. induction l1 as [|x l1 IH]; intros st.
  - simpl. by destruct (traverse f l2 st).
  - change ((x :: l1) ++ l2) with (x :: (l1 ++ l2)).
    rewrite !traverse_cons. cbn [fst snd]. by rewrite IH.
Qed.

Section ActiveGroupKit.
Variable clock : nat → Z.

Implicit Types (g : list Step → M (list Step)) (st : Store).

Lemma updateGroupOf_miss active g x st :
  group_id x ≠ group_id active → updateGroupOf clock active g x st = (x, st).
Proof. intros H. unfold updateGroupOf. by rewrite decide_False. Qed.

Lemma updateGroupOf_hit active g x st :
  group_id x = group_id active →
  updateGroupOf clock active g x st
  = (mkGroup (group_id x) (group_title x) (g (group_steps x) st).1
       (group_createdAt x) (clock (ticks (g (group_steps x) st).2))
       (group_inputText x),
     setTicks (S (ticks (g (group_steps x) st).2)) (g (group_steps x) st).2).
Proof. intros H. unfold updateGroupOf. by rewrite decide_True. Qed.

Lemma traverse_updateGroupOf_miss active g groups st :
  Forall (λ x, group_id x ≠ group_id active) groups →
  traverse (updateGroupOf clock active g) groups st = (groups, st).
Proof.
  intros H. revert st. induction H as [|x groups Hx _ IH]; intros st; [done|].
  rewrite traverse_cons, updateGroupOf_miss by done. cbn [fst snd].
  by rewrite IH.
Qed.

(** The active group is the first group carrying the selected id. *)
Lemma activeGroup_split st active :
  activeGroup st = Some active →
  ∃ pre post, stepGroups st = pre ++ active :: post
    ∧ Forall (λ x, group_id x ≠ group_id active) pre
    ∧ selectedGroupId st = Some (group_id active).
Proof.
  intros H. apply find_split in H as (pre & post & Hl & Hpre & Hsel).
  exists pre, post. split; [done|]. split; [|done].
  eapply Forall_impl; [exact Hpre|]. simpl. intros x Hx Hid. apply Hx.
  by rewrite Hid.
Qed.

Lemma updateActiveSteps_split g st active pre post :
  activeGroup st = Some active →
  stepGroups st = pre ++ active :: post →
  Forall (λ x, group_id x ≠ group_id active) pre →
  exec (updateActiveSteps clock g) st
  = setStepGroups
      (pre ++ updatedGroup clock active g st
           :: (traverse (updateGroupOf clock active g) post
                 (afterActive active g st)).1)
      (traverse (updateGroupOf clock active g) post (afterActive active g st)).2.
Proof.
  intros Hact Hl Hpre. rewrite (updateActiveSteps_active clock _ _ _ Hact).
  rewrite Hl, traverse_app, traverse_updateGroupOf_miss by done.
  cbn [fst snd]. rewrite traverse_cons. cbn [fst snd].
  rewrite updateGroupOf_hit by done. reflexivity.
Qed.

(** With no second group of the same id, the updater runs once. *)
Lemma updateActiveSteps_once g st active pre post :
  activeGroup st = Some active →
  stepGroups st = pre ++ active :: post →
  Forall (λ x, group_id x ≠ group_id active) pre →
  Forall (λ x, group_id x ≠ group_id active) post →
  exec (updateActiveSteps clock g) st
  = setStepGroups (pre ++ updatedGroup clock active g st :: post)
      (afterActive active g st).
Proof.
  intros Hact Hl Hpre Hpost.
  rewrite (updateActiveSteps_split _ _ _ _ _ Hact Hl Hpre).
  by rewrite traverse_updateGroupOf_miss.
Qed.

Lemma activeGroup_unique_split st active :
  NoDup (group_id <$> stepGroups st) →
  activeGroup st = Some active →
  ∃ pre post, stepGroups st = pre ++ active :: post
    ∧ Forall (λ x, group_id x ≠ group_id active) pre
    ∧ Forall (λ x, group_id x ≠ group_id active) post.
Proof.
  intros Hnd Hact.
  destruct (activeGroup_split _ _ Hact) as (pre & post & Hl & Hpre & _).
  exists pre, post. split; [done|]. split; [done|].
  rewrite Hl, fmap_app, fmap_cons in Hnd.
  apply NoDup_app in Hnd as (_ & _ & Hnd).
  apply NoDup_cons in Hnd as [Hnotin _].
  apply Forall_forall. intros x Hx Hid. apply Hnotin.
  rewrite <- Hid. by apply list_elem_of_fmap_2.
Qed.

(** The active steps after [updateActiveSteps]: what the updater returned
    on the active steps, in the store in which the operation began. *)
Lemma activeSteps_updateActiveSteps_run g st active :
  activeGroup st = Some active →
  (∀ prev s, selectedGroupId (g prev s).2 = selectedGroupId s) →
  activeGroup (exec (updateActiveSteps clock g) st)
  = Some (updatedGroup clock active g st)
  ∧ activeSteps (exec (updateActiveSteps clock g) st)
    = (g (activeSteps st) st).1.
Proof.
  intros Hact Hsel.
  destruct (activeGroup_split _ _ Hact) as (pre & post & Hl & Hpre & Hid).
  rewrite (updateActiveSteps_split _ _ _ _ _ Hact Hl Hpre).
  set (rest := traverse _ post _).
  assert (Hs : selectedGroupId rest.2 = selectedGroupId st).
  { unfold rest.
    rewrite (traverse_preserves (updateGroupOf clock active g) selectedGroupId).
    - unfold afterActive. simpl. apply Hsel.
    - intros x s. unfold updateGroupOf. destruct (decide _); [|done].
      unfold bind, dateNow, ret. simpl. apply Hsel. }
  assert (Hag : activeGroup (setStepGroups (pre ++ updatedGroup clock active g st :: rest.1) rest.2)
                = Some (updatedGroup clock active g st)).
  { unfold activeGroup. simpl. rewrite Hs. apply find_first.
    - eapply Forall_impl; [exact Hpre|]. simpl. intros x Hx. rewrite Hid.
      intros [= Heq]. by apply Hx.
    - done. }
  split; [exact Hag|].
  unfold activeSteps. rewrite Hag, Hact. reflexivity.
Qed.

End ActiveGroupKit.

Section StepOperationFacts.
Variable clock : nat → Z.
Variable randomUUID : nat → string.

Implicit Types (g : list Step → M (list Step)) (st : Store).

(** A component of the store that the updater, [setStepGroups] and the
    clock leave alone is left alone by [updateActiveSteps]. *)
Lemma updateActiveSteps_preserves {T : Type} (proj : Store → T) g st :
  (∀ prev s, proj (g prev s).2 = proj s) →
  (∀ v s, proj (setStepGroups v s) = proj s) →
  (∀ n s, proj (setTicks n s) = proj s) →
  proj (exec (updateActiveSteps clock g) st) = proj st.
Proof.
  intros Hg Hset Hticks.
  destruct (activeGroup st) as [active|] eqn:Hact.
  2:{ by rewrite updateActiveSteps_inactive. }
  rewrite (updateActiveSteps_active _ _ _ _ Hact), Hset.
  apply (traverse_preserves (updateGroupOf clock active g) proj).
  intros x s. unfold updateGroupOf. destruct (decide _); [|done].
  unfold bind, dateNow, ret. cbn [fst snd]. by rewrite Hticks, Hg.
Qed.

Lemma updateActiveSteps_frame g st :
  Forall2 (sameGroupBut (selectedGroupId st)) (stepGroups st)
    (stepGroups (exec (updateActiveSteps clock g) st)).
Proof.
  destruct (activeGroup st) as [active|] eqn:Hact.
  2:{ rewrite updateActiveSteps_inactive by done.
      apply Forall_Forall2_diag, Forall_forall. by intros x _. }
  rewrite (updateActiveSteps_active _ _ _ _ Hact). cbn [stepGroups setStepGroups].
  destruct (activeGroup_split _ _ Hact) as (_ & _ & _ & _ & Hid).
  apply traverse_Forall2. intros x s. unfold updateGroupOf, sameGroupBut.
  destruct (decide _) as [e|n]; unfold bind, dateNow, ret; cbn [fst snd].
  - repeat split; try done. rewrite Hid, e. done.
  - done.
Qed.


(** *** [deleteStep] *)

Local Abbreviation deleteStepUpdater id st :=
  (λ prev : list Step,
     (if decide (selectedStepId st = Some id)
      then modify (setSelectedStepId
                     (step_id <$> head (filter (λ step, step_id step ≠ id) prev)))
      else ret tt) ;;;
     ret (filter (λ step, step_id step ≠ id) prev)).

Lemma activeSteps_deleteStep id st :
  activeSteps (exec (deleteStep clock id) st)
  = filter (λ step, step_id step ≠ id) (activeSteps st).
Proof.
  change (exec (deleteStep clock id) st)
    with (exec (updateActiveSteps clock (deleteStepUpdater id st)) st).
  rewrite (activeSteps_updateActiveSteps clock _
             (filter (λ step, step_id step ≠ id))).
  - unfold activeSteps. by destruct (activeGroup st).
  - intros prev s. unfold bind. by destruct (decide _).
  - intros prev s. unfold bind. by destruct (decide _).
Qed.

(** [deleteStep] is [updateActiveSteps] with an updater that touches the
    step selection only. *)
Lemma deleteStep_updater id st :
  ∃ g, exec (deleteStep clock id) st = exec (updateActiveSteps clock g) st
    ∧ (∀ prev s, librarySteps (g prev s).2 = librarySteps s)
    ∧ (∀ prev s, selectedLibraryStepId (g prev s).2 = selectedLibraryStepId s)
    ∧ (∀ prev s, selectedGroupId (g prev s).2 = selectedGroupId s).
Proof.
  exists (deleteStepUpdater id st). split; [reflexivity|].
  split; [|split]; intros prev s; unfold bind; by destruct (decide _).
Qed.

Lemma selectedStepId_deleteStep id st :
  NoDup (group_id <$> stepGroups st) →
  selectedStepId (exec (deleteStep clock id) st)
  = if decide (selectedStepId st = Some id ∧ is_Some (activeGroup st))
    then step_id <$> head (filter (λ step, step_id step ≠ id) (activeSteps st))
    else selectedStepId st.
Proof.
  intros Hnd.
  change (exec (deleteStep clock id) st)
    with (exec (updateActiveSteps clock (deleteStepUpdater id st)) st).
  destruct (activeGroup st) as [active|] eqn:Hact.
  2:{ rewrite updateActiveSteps_inactive by done.
      rewrite decide_False; [done|]. intros [_ [? ?]]. done. }
  destruct (activeGroup_unique_split _ _ Hnd Hact)
    as (pre & post & Hl & Hpre & Hpost).
  rewrite (updateActiveSteps_once _ _ _ _ _ _ Hact Hl Hpre Hpost).
  unfold activeSteps. rewrite Hact. cbn [fmap option_fmap option_map default].
  unfold afterActive, bind. cbn [selectedStepId setStepGroups setTicks].
  destruct (decide (selectedStepId st = Some id)) as [e|n].
  - rewrite decide_True by eauto. reflexivity.
  - rewrite decide_False by tauto. reflexivity.
Qed.

End StepOperationFacts.

(** X1. [deleteStep(id)] removes from the active group every step carrying
    [id] and keeps the others, unchanged and in their order. The step
    selection is left alone when it is not [id]; when it is [id] (and group
    ids are unique, so that the updater runs once) it moves to the first
    step that remains, or to none when no step remains, so in an active
    group it never refers to the deleted step. The library and the group
    selection are untouched, and without an active group nothing happens. *)
Theorem deleteStep_contract (clock : nat → Z) (id : string) (st : Store) :
  let st' := exec (deleteStep clock id) st in
  activeSteps st' = filter (λ step, step_id step ≠ id) (activeSteps st)
  ∧ (id ∉ (step_id <$> activeSteps st'))
  ∧ (selectedStepId st ≠ Some id → selectedStepId st' = selectedStepId st)
  ∧ (NoDup (group_id <$> stepGroups st) →
     selectedStepId st'
     = (if decide (selectedStepId st = Some id ∧ is_Some (activeGroup st))
        then step_id <$> head (activeSteps st')
        else selectedStepId st)
     ∧ (is_Some (activeGroup st) → selectedStepId st' ≠ Some id))
  ∧ librarySteps st' = librarySteps st
  ∧ selectedGroupId st' = selectedGroupId st
  ∧ (activeGroup st = None → st' = st).
Proof.
  intros st'. unfold st'.
  rewrite activeSteps_deleteStep.
  split; [done|]. split; [|split; [|split; [|split; [|split]]]].
  - intros (x & Hid & Hx)%list_elem_of_fmap.
    apply list_elem_of_filter in Hx as [Hne _]. by apply Hne.
  - intros Hne.
    apply (updateActiveSteps_preserves clock selectedStepId); try done.
    intros prev s. unfold bind. by rewrite decide_False.
  - intros Hnd. rewrite (selectedStepId_deleteStep _ _ _ Hnd).
    split; [done|]. intros Hact. case_decide as Hc.
    + destruct (filter _ (activeSteps st)) as [|x l] eqn:Hf; [done|].
      simpl. intros [= Hx].
      assert (Hin : x ∈ filter (λ step, step_id step ≠ id) (activeSteps st))
        by (rewrite Hf; apply list_elem_of_here).
      apply list_elem_of_filter in Hin as [Hne _]. done.
    + intros Hs. apply Hc. done.
  - apply (updateActiveSteps_preserves clock librarySteps); try done.
    intros prev s. unfold bind. by destruct (decide _).
  - apply (updateActiveSteps_preserves clock selectedGroupId); try done.
    intros prev s. unfold bind. by destruct (decide _).
  - intros Hact. by apply updateActiveSteps_inactive.
Qed.

Section AddStepFacts.
Variable clock : nat → Z.
Variable randomUUID : nat → string.

(** The step [createStep(index)] makes in the store [st]. *)
Lemma createStep_run index st :
  createStep clock randomUUID index st
  = (mkStep (randomUUID (uuids st)) ("title " +:+ showNat index) DEFAULT_CODE
       false (clock (ticks st)) (clock (S (ticks st))),
     setTicks (S (S (ticks st))) (setUuids (S (uuids st)) st)).
Proof. reflexivity. Qed.

Lemma activeSteps_addStep st :
  activeSteps (exec (addStep clock randomUUID) st)
  = match activeGroup st with
    | Some _ =>
        activeSteps st
        ++ [mkStep (randomUUID (uuids st))
              ("title " +:+ showNat (length (activeSteps st) + 1)) DEFAULT_CODE
              false (clock (ticks st)) (clock (S (ticks st)))]
    | None => []
    end.
Proof.
  destruct (activeGroup st) as [active|] eqn:Hact.
  - unfold addStep.
    edestruct (activeSteps_updateActiveSteps_run clock) as [_ ->];
      [exact Hact| |reflexivity].
    done.
  - unfold addStep. rewrite updateActiveSteps_inactive by done.
    unfold activeSteps. by rewrite Hact.
Qed.

End AddStepFacts.

(** X2. With an active group, [addStep] appends to its steps one new step,
    with the next identifier of the source, the title [title n] where [n]
    is the new number of steps, the default code, not muted, and both
    timestamps read from the clock; the steps already there are
    unchanged. When group ids are unique the new step's id becomes the
    step selection, and when that id is not already carried by an active
    step the selected step is the new step. The library and the group
    selection are untouched. Without an active group nothing happens. *)
Theorem addStep_contract (clock : nat → Z) (randomUUID : nat → string)
  (st : Store) (active : StepGroup) :
  let created :=
    mkStep (randomUUID (uuids st))
      ("title " +:+ showNat (length (activeSteps st) + 1)) DEFAULT_CODE false
      (clock (ticks st)) (clock (S (ticks st))) in
  let st' := exec (addStep clock randomUUID) st in
  activeGroup st = Some active →
  activeSteps st' = activeSteps st ++ [created]
  ∧ (NoDup (group_id <$> stepGroups st) →
     selectedStepId st' = Some (step_id created)
     ∧ (step_id created ∉ (step_id <$> activeSteps st) →
        selectedStep st' = Some created))
  ∧ librarySteps st' = librarySteps st
  ∧ selectedGroupId st' = selectedGroupId st.
Proof.
  intros created st' Hact. unfold st'.
  assert (Hsteps : activeSteps (exec (addStep clock randomUUID) st)
                   = activeSteps st ++ [created]).
  { rewrite activeSteps_addStep. by rewrite Hact. }
  split; [exact Hsteps|]. split; [|split].
  - intros Hnd.
    assert (Hsel : selectedStepId (exec (addStep clock randomUUID) st)
                   = Some (step_id created)).
    { destruct (activeGroup_unique_split _ _ Hnd Hact)
        as (pre & post & Hl & Hpre & Hpost).
      unfold addStep.
      rewrite (updateActiveSteps_once _ _ _ _ _ _ Hact Hl Hpre Hpost).
      unfold afterActive, bind. cbn [selectedStepId setStepGroups setTicks].
      rewrite createStep_run. cbn [fst snd modify setSelectedStepId selectedStepId].
      rewrite last_snoc. unfold created, activeSteps. by rewrite Hact. }
    split; [exact Hsel|]. intros Hfresh.
    unfold selectedStep. rewrite Hsel, Hsteps.
    apply find_first; [|done].
    apply Forall_forall. intros x Hx [= Hid]. apply Hfresh.
    change (step_id created) with (randomUUID (uuids st)).
    rewrite Hid. by apply list_elem_of_fmap_2.
  - apply (updateActiveSteps_preserves clock librarySteps); done.
  - apply (updateActiveSteps_preserves clock selectedGroupId); done.
Qed.

Lemma filter_all {A : Type} (P : A → Prop) `{!∀ x, Decision (P x)} l :
  Forall P l → filter P l = l.
Proof.
  induction 1 as [|x l Hx _ IH]; [done|].
  by rewrite filter_cons_True, IH.
Qed.

(** X3. Adding a step and then deleting the step just added gives back
    the active steps as they were, provided the identifier handed out for
    the new step is not already the id of an active step (a step with the
    same id would be deleted with it). *)
Theorem addStep_then_deleteStep (clock : nat → Z) (randomUUID : nat → string)
  (st : Store) :
  randomUUID (uuids st) ∉ (step_id <$> activeSteps st) →
  activeSteps
    (exec (deleteStep clock (randomUUID (uuids st)))
       (exec (addStep clock randomUUID) st))
  = activeSteps st.
Proof.
  intros Hfresh. rewrite activeSteps_deleteStep, activeSteps_addStep.
  destruct (activeGroup st) as [active|] eqn:Hact.
  2:{ unfold activeSteps. by rewrite Hact. }
  rewrite filter_app, filter_cons_False by (simpl; tauto).
  rewrite filter_nil, app_nil_r.
  apply filter_all, Forall_forall. intros x Hx Hid. apply Hfresh.
  rewrite <- Hid. by apply list_elem_of_fmap_2.
Qed.

Lemma splice_insert_position {A : Type} (k : Z) (x : A) (l : list A) :
  (JsArray.splice k 0 [x] l).2
  = take (Z.to_nat (JsArray.relativeIndex (Z.of_nat (length l)) k)) l
    ++ x :: drop (Z.to_nat (JsArray.relativeIndex (Z.of_nat (length l)) k)) l.
Proof.
  unfold JsArray.splice. cbn [snd].
  set (p := JsArray.relativeIndex _ _).
  assert (0 ≤ p ≤ Z.of_nat (length l))%Z.
  { unfold p, JsArray.relativeIndex. destruct (Z.ltb_spec k 0); lia. }
  replace (Z.min (Z.max 0 0) (Z.of_nat (length l) - p)) with 0%Z by lia.
  change (Z.to_nat 0) with 0%nat. by rewrite Nat.add_0_r.
Qed.

(** X4. With an active group, [addStepFromLibrary(libraryStep, index)]
    puts into the active steps one new step that copies the title and the
    code of the library step, is not muted, and has the next identifier of
    the source and timestamps read from the clock. Without an index, or
    with an index at or beyond the end, the step is appended; with an
    index [k] within the list it is inserted in front of position [k], so
    it is then the step at position [k]; a negative index counts from the
    end. The other steps keep their order, the library is unchanged, and
    when group ids are unique the new step's id becomes the step
    selection. Without an active group nothing happens. *)
Theorem addStepFromLibrary_contract (clock : nat → Z)
  (randomUUID : nat → string) (libraryStep : LibraryStep) (index : option Z)
  (st : Store) (active : StepGroup) :
  let created :=
    mkStep (randomUUID (uuids st)) (lib_title libraryStep)
      (lib_code libraryStep) false (clock (ticks st)) (clock (S (ticks st))) in
  let st' := exec (addStepFromLibrary clock randomUUID libraryStep index) st in
  let steps := activeSteps st in
  activeGroup st = Some active →
  (index = None → activeSteps st' = steps ++ [created])
  ∧ (∀ k, index = Some k →
       let p := Z.to_nat (JsArray.relativeIndex (Z.of_nat (length steps)) k) in
       activeSteps st' = take p steps ++ created :: drop p steps)
  ∧ (∀ k : nat, index = Some (Z.of_nat k) → (k ≤ length steps)%nat →
       activeSteps st' = take k steps ++ created :: drop k steps
       ∧ activeSteps st' !! k = Some created)
  ∧ (∀ k, index = Some k → (Z.of_nat (length steps) ≤ k)%Z →
       activeSteps st' = steps ++ [created])
  ∧ length (activeSteps st') = S (length steps)
  ∧ (NoDup (group_id <$> stepGroups st) →
     selectedStepId st' = Some (step_id created))
  ∧ librarySteps st' = librarySteps st
  ∧ selectedGroupId st' = selectedGroupId st.
Proof.
  intros created st' steps Hact.
  assert (Hsteps : activeSteps st'
            = match index with
              | Some k => (JsArray.splice k 0 [created] steps).2
              | None => steps ++ [created]
              end).
  { unfold st', addStepFromLibrary.
    edestruct (activeSteps_updateActiveSteps_run clock) as [_ ->];
      [exact Hact|done|reflexivity]. }
  assert (Hgen : ∀ k, index = Some k →
            let p := Z.to_nat (JsArray.relativeIndex (Z.of_nat (length steps)) k) in
            activeSteps st' = take p steps ++ created :: drop p steps).
  { intros k Hk p. rewrite Hsteps, Hk. apply splice_insert_position. }
  split; [|split; [|split; [|split; [|split; [|split; [|split]]]]]].
  - intros Hi. by rewrite Hsteps, Hi.
  - exact Hgen.
  - intros k Hk Hle. pose proof (Hgen _ Hk) as Hg. cbn zeta in Hg.
    assert (Hp : Z.to_nat (JsArray.relativeIndex (Z.of_nat (length steps))
                             (Z.of_nat k)) = k).
    { unfold JsArray.relativeIndex.
      destruct (Z.ltb_spec (Z.of_nat k) 0); lia. }
    rewrite Hp in Hg. split; [exact Hg|]. rewrite Hg.
    assert (Hlen : length (take k steps) = k) by (rewrite length_take; lia).
    apply list_lookup_middle. by rewrite Hlen.
  - intros k Hk Hge. pose proof (Hgen _ Hk) as Hg. cbn zeta in Hg.
    assert (Hp : Z.to_nat (JsArray.relativeIndex (Z.of_nat (length steps)) k)
                 = length steps).
    { unfold JsArray.relativeIndex. destruct (Z.ltb_spec k 0); lia. }
    rewrite Hp in Hg. by rewrite Hg, take_ge, drop_ge by lia.
  - rewrite Hsteps. destruct index as [k|].
    + rewrite splice_insert_position, length_app. simpl.
      rewrite length_take, length_drop.
      assert (0 ≤ JsArray.relativeIndex (Z.of_nat (length steps)) k
              ≤ Z.of_nat (length steps))%Z.
      { unfold JsArray.relativeIndex. destruct (Z.ltb_spec k 0); lia. }
      lia.
    + rewrite length_app. simpl. lia.
  - intros Hnd.
    destruct (activeGroup_unique_split _ _ Hnd Hact)
      as (pre & post & Hl & Hpre & Hpost).
    unfold st', addStepFromLibrary.
    rewrite (updateActiveSteps_once _ _ _ _ _ _ Hact Hl Hpre Hpost).
    reflexivity.
  - apply (updateActiveSteps_preserves clock librarySteps); done.
  - apply (updateActiveSteps_preserves clock selectedGroupId); done.
Qed.

Lemma addGroup_facts (clock : nat → Z) (randomUUID : nat → string) st :
  randomUUID (uuids st) ∉ (group_id <$> stepGroups st) →
  activeGroup (exec (addGroup clock randomUUID) st)
  = Some (mkGroup (randomUUID (uuids st))
            ("Group " +:+ showNat (length (stepGroups st) + 1)) []
            (clock (ticks st)) (clock (S (ticks st))) None)
  ∧ activeSteps (exec (addGroup clock randomUUID) st) = [].
Proof.
  intros Hfresh.
  assert (Hsel : selectedGroupId (exec (addGroup clock randomUUID) st)
                 = Some (randomUUID (uuids st))).
  { unfold exec, addGroup, bind, getStore, modify.
    cbn [fst snd selectedGroupId setStepGroups setSelectedGroupId].
    by rewrite last_snoc. }
  assert (Hact : activeGroup (exec (addGroup clock randomUUID) st)
            = Some (mkGroup (randomUUID (uuids st))
                      ("Group " +:+ showNat (length (stepGroups st) + 1)) []
                      (clock (ticks st)) (clock (S (ticks st))) None)).
  { unfold activeGroup. rewrite Hsel.
    change (stepGroups (exec (addGroup clock randomUUID) st))
      with (stepGroups st
            ++ [mkGroup (randomUUID (uuids st))
                  ("Group " +:+ showNat (length (stepGroups st) + 1)) []
                  (clock (ticks st)) (clock (S (ticks st))) None]).
    apply find_first; [|done].
    apply Forall_forall. intros x Hx [= Hid]. apply Hfresh.
    rewrite Hid. by apply list_elem_of_fmap_2. }
  split; [done|]. unfold activeSteps. by rewrite Hact.
Qed.

(** X5. [addGroup] appends one new group, with the next identifier of the
    source, the title [Group n] where [n] is the new number of groups, no
    steps, no input text and timestamps read from the clock, and selects
    it; the groups already there, the step selection and the library are
    unchanged. When the new id is not already carried by a group, the new
    group is the active group, so the active step list is empty and the
    input text shown is empty. *)
Theorem addGroup_contract (clock : nat → Z) (randomUUID : nat → string)
  (st : Store) :
  let created :=
    mkGroup (randomUUID (uuids st))
      ("Group " +:+ showNat (length (stepGroups st) + 1)) []
      (clock (ticks st)) (clock (S (ticks st))) None in
  let st' := exec (addGroup clock randomUUID) st in
  stepGroups st' = stepGroups st ++ [created]
  ∧ selectedGroupId st' = Some (group_id created)
  ∧ (group_id created ∉ (group_id <$> stepGroups st) →
     activeGroup st' = Some created
     ∧ activeSteps st' = []
     ∧ initialInputText st' = "")
  ∧ selectedStepId st' = selectedStepId st
  ∧ librarySteps st' = librarySteps st.
Proof.
  intros created st'.
  assert (Hgroups : stepGroups st' = stepGroups st ++ [created])
    by reflexivity.
  assert (Hsel : selectedGroupId st' = Some (group_id created)).
  { unfold st', exec, addGroup, bind, getStore, modify.
    cbn [fst snd selectedGroupId setStepGroups setSelectedGroupId].
    by rewrite last_snoc. }
  split; [done|]. split; [done|]. split; [|done].
  intros Hfresh.
  destruct (addGroup_facts clock randomUUID st Hfresh) as [Hact Hsteps].
  split; [done|]. split; [done|].
  unfold initialInputText. fold st' in Hact. by rewrite Hact.
Qed.

Lemma find_filter {A : Type} (P Q : A → Prop) `{!∀ x, Decision (P x)}
  `{!∀ x, Decision (Q x)} (l : list A) :
  (∀ x, P x → Q x) → JsArray.find P (filter Q l) = JsArray.find P l.
Proof.
  intros HPQ. induction l as [|x l IH]; [done|].
  rewrite filter_cons, (find_cons P x l).
  destruct (decide (Q x)) as [q|q].
  - rewrite find_cons. by rewrite IH.
  - rewrite IH. rewrite decide_False; [done|]. intros p. by apply q, HPQ.
Qed.

(** X6. [deleteGroup(id)] removes every group carrying [id] and keeps the
    others, unchanged and in their order. When the deleted id was the
    selected one, the selection moves to the first group that remains and
    that group becomes the active group (no group, no selection);
    otherwise the selection and the active group stay as they are. The
    selected id after the operation is never [id]. The step selection and
    the library are untouched. *)
Theorem deleteGroup_contract (id : string) (st : Store) :
  let st' := exec (deleteGroup id) st in
  stepGroups st' = filter (λ group, group_id group ≠ id) (stepGroups st)
  ∧ (id ∉ (group_id <$> stepGroups st'))
  ∧ selectedGroupId st'
    = (if decide (selectedGroupId st = Some id)
       then group_id <$> head (stepGroups st')
       else selectedGroupId st)
  ∧ activeGroup st'
    = (if decide (selectedGroupId st = Some id)
       then head (stepGroups st')
       else activeGroup st)
  ∧ selectedGroupId st' ≠ Some id
  ∧ selectedStepId st' = selectedStepId st
  ∧ librarySteps st' = librarySteps st.
Proof.
  intros st'.
  assert (Hgroups : stepGroups st'
            = filter (λ group, group_id group ≠ id) (stepGroups st)).
  { unfold st', exec, deleteGroup, bind, getStore, modify.
    by destruct (decide (selectedGroupId st = Some id)). }
  assert (Hsel : selectedGroupId st'
            = if decide (selectedGroupId st = Some id)
              then group_id <$> head (stepGroups st')
              else selectedGroupId st).
  { rewrite Hgroups. unfold st', exec, deleteGroup, bind, getStore, modify.
    cbn [fst snd]. by destruct (decide (selectedGroupId st = Some id)). }
  assert (Hhead : ∀ x, head (stepGroups st') = Some x → group_id x ≠ id).
  { intros x Hx. apply head_Some_elem_of in Hx. rewrite Hgroups in Hx.
    by apply list_elem_of_filter in Hx as [? _]. }
  split; [done|]. split; [|split; [done|split; [|split; [|split]]]].
  - rewrite Hgroups. intros (x & Hid & Hx)%list_elem_of_fmap.
    apply list_elem_of_filter in Hx as [Hne _]. by apply Hne.
  - unfold activeGroup at 1. rewrite Hsel.
    destruct (decide (selectedGroupId st = Some id)) as [e|n].
    + destruct (stepGroups st') as [|x l]; [done|].
      simpl. rewrite find_cons. by rewrite decide_True.
    + rewrite Hgroups. apply find_filter.
      intros x Hx Hid. apply n. by rewrite Hx, Hid.
  - rewrite Hsel. case_decide; [|done].
    destruct (head (stepGroups st')) as [x|] eqn:Hx; [|done].
    simpl. intros [= Hid]. by apply (Hhead x).
  - unfold st', exec, deleteGroup, bind, getStore, modify.
    cbn [fst snd]. by destruct (decide (selectedGroupId st = Some id)).
  - unfold st', exec, deleteGroup, bind, getStore, modify.
    cbn [fst snd]. by destruct (decide (selectedGroupId st = Some id)).
Qed.

(* ------------------------------------------------------------------ *)
(** ** What an operation leaves alone *)
(* ------------------------------------------------------------------ *)

Section FrameFacts.
Variable clock : nat → Z.
Variable randomUUID : nat → string.

Lemma updateActiveSteps_library g st :
  (∀ prev s, librarySteps (g prev s).2 = librarySteps s) →
  (∀ prev s, selectedLibraryStepId (g prev s).2 = selectedLibraryStepId s) →
  (∀ prev s, selectedGroupId (g prev s).2 = selectedGroupId s) →
  librarySteps (exec (updateActiveSteps clock g) st) = librarySteps st
  ∧ selectedLibraryStepId (exec (updateActiveSteps clock g) st)
    = selectedLibraryStepId st
  ∧ selectedGroupId (exec (updateActiveSteps clock g) st) = selectedGroupId st.
Proof.
  intros H1 H2 H3. split; [|split].
  - by apply (updateActiveSteps_preserves clock librarySteps).
  - by apply (updateActiveSteps_preserves clock selectedLibraryStepId).
  - by apply (updateActiveSteps_preserves clock selectedGroupId).
Qed.

Lemma stepMutation_frame op st :
  isStepMutation op →
  Forall2 (sameGroupBut (selectedGroupId st)) (stepGroups st)
    (stepGroups (exec (perform clock randomUUID op) st))
  ∧ librarySteps (exec (perform clock randomUUID op) st) = librarySteps st
  ∧ selectedLibraryStepId (exec (perform clock randomUUID op) st)
    = selectedLibraryStepId st
  ∧ selectedGroupId (exec (perform clock randomUUID op) st)
    = selectedGroupId st.
Proof.
  destruct op; try (by intros []); intros _; cbn [perform].
  - split; [apply updateActiveSteps_frame|].
    by apply updateActiveSteps_library.
  - split; [apply updateActiveSteps_frame|].
    apply updateActiveSteps_library; intros prev s.
    + apply (traverse_preserves _ librarySteps). intros x s0.
      by destruct (decide _).
    + apply (traverse_preserves _ selectedLibraryStepId). intros x s0.
      by destruct (decide _).
    + apply (traverse_preserves _ selectedGroupId). intros x s0.
      by destruct (decide _).
  - destruct (deleteStep_updater clock id st) as (g & -> & H1 & H2 & H3).
    split; [apply updateActiveSteps_frame|].
    by apply updateActiveSteps_library.
  - split; [apply updateActiveSteps_frame|].
    by apply updateActiveSteps_library.
  - split; [apply updateActiveSteps_frame|].
    by apply updateActiveSteps_library.
Qed.

Lemma libraryMutation_frame op st :
  isLibraryMutation op →
  stepGroups (exec (perform clock randomUUID op) st) = stepGroups st
  ∧ selectedGroupId (exec (perform clock randomUUID op) st) = selectedGroupId st
  ∧ selectedStepId (exec (perform clock randomUUID op) st) = selectedStepId st.
Proof.
  destruct op; try (by intros []); intros _; cbn [perform].
  - unfold exec, updateLibraryStep, bind, getStore, modify. cbn [fst snd].
    set (f := λ step : LibraryStep, _).
    split; [|split].
    + cbn [stepGroups setLibrarySteps].
      apply (traverse_preserves f stepGroups).
      intros x s. unfold f. by destruct (decide _).
    + cbn [selectedGroupId setLibrarySteps].
      apply (traverse_preserves f selectedGroupId).
      intros x s. unfold f. by destruct (decide _).
    + cbn [selectedStepId setLibrarySteps].
      apply (traverse_preserves f selectedStepId).
      intros x s. unfold f. by destruct (decide _).
  - unfold exec, deleteLibraryStep, bind, getStore, modify. cbn [fst snd].
    by destruct (decide _).
  - destruct stepToSave; done.
Qed.

Lemma groupEdit_frame op st :
  isGroupEdit op →
  Forall2 (λ x y, group_id y = group_id x ∧ group_steps y = group_steps x
                  ∧ group_createdAt y = group_createdAt x)
    (stepGroups st) (stepGroups (exec (perform clock randomUUID op) st))
  ∧ librarySteps (exec (perform clock randomUUID op) st) = librarySteps st
  ∧ selectedGroupId (exec (perform clock randomUUID op) st) = selectedGroupId st
  ∧ selectedStepId (exec (perform clock randomUUID op) st) = selectedStepId st.
Proof.
  destruct op; try (by intros []); intros _; cbn [perform].
  - unfold exec, updateGroupTitle, bind, getStore, modify. cbn [fst snd].
    split; [|split; [|split]].
    + cbn [stepGroups setStepGroups]. apply traverse_Forall2.
      intros x s. by destruct (decide _).
    + cbn [librarySteps setStepGroups].
      apply (traverse_preserves _ librarySteps).
      intros x s. by destruct (decide _).
    + cbn [selectedGroupId setStepGroups].
      apply (traverse_preserves _ selectedGroupId).
      intros x s. by destruct (decide _).
    + cbn [selectedStepId setStepGroups].
      apply (traverse_preserves _ selectedStepId).
      intros x s. by destruct (decide _).
  - unfold exec, updateGroupInputText, bind, getStore, modify. cbn [fst snd].
    split; [|split; [|split]].
    + cbn [stepGroups setStepGroups]. apply traverse_Forall2.
      intros x s. by destruct (decide _).
    + cbn [librarySteps setStepGroups].
      apply (traverse_preserves _ librarySteps).
      intros x s. by destruct (decide _).
    + cbn [selectedGroupId setStepGroups].
      apply (traverse_preserves _ selectedGroupId).
      intros x s. by destruct (decide _).
    + cbn [selectedStepId setStepGroups].
      apply (traverse_preserves _ selectedStepId).
      intros x s. by destruct (decide _).
Qed.

End FrameFacts.

(** X7. What the operations leave alone. An operation on the steps of the
    active group ([addStep], [updateStep], [deleteStep], [moveStep],
    [addStepFromLibrary]) keeps the groups and their order, keeps the id,
    title, [createdAt] and input text of every group, leaves every group
    that does not carry the selected id exactly as it was, and touches
    neither the library nor the group and library selections. An
    operation on the library ([addLibraryStep], [updateLibraryStep],
    [deleteLibraryStep], [moveLibraryStep], [saveStepToLibrary]) leaves
    the groups, their steps and both selections as they were, so steps
    made from a template are not affected by later changes of the
    template. Renaming a group or storing its input text keeps the steps,
    id and [createdAt] of every group, the library and the selections. *)
Theorem operations_frame (clock : nat → Z) (randomUUID : nat → string)
  (op : Op) (st : Store) :
  let st' := exec (perform clock randomUUID op) st in
  (isStepMutation op →
     Forall2 (sameGroupBut (selectedGroupId st)) (stepGroups st) (stepGroups st')
     ∧ librarySteps st' = librarySteps st
     ∧ selectedLibraryStepId st' = selectedLibraryStepId st
     ∧ selectedGroupId st' = selectedGroupId st)
  ∧ (isLibraryMutation op →
     stepGroups st' = stepGroups st
     ∧ selectedGroupId st' = selectedGroupId st
     ∧ selectedStepId st' = selectedStepId st)
  ∧ (isGroupEdit op →
     Forall2 (λ x y, group_id y = group_id x ∧ group_steps y = group_steps x
                     ∧ group_createdAt y = group_createdAt x)
       (stepGroups st) (stepGroups st')
     ∧ librarySteps st' = librarySteps st
     ∧ selectedGroupId st' = selectedGroupId st
     ∧ selectedStepId st' = selectedStepId st).
Proof.
  intros st'. split; [|split].
  - apply stepMutation_frame.
  - apply libraryMutation_frame.
  - apply groupEdit_frame.
Qed.

(* ------------------------------------------------------------------ *)
(** ** The selection repair effect *)
(* ------------------------------------------------------------------ *)

Lemma activeSteps_setSelectedStepId v st :
  activeSteps (setSelectedStepId v st) = activeSteps st.
Proof. reflexivity. Qed.

Lemma selectedStep_is_Some st :
  is_Some (selectedStep st)
  ↔ Exists (λ step, Some (step_id step) = selectedStepId st) (activeSteps st).
Proof.
  unfold selectedStep. rewrite find_is_Some, !Exists_exists.
  split; intros (x & Hx & Hid); by exists x.
Qed.

(** X8. The effect that repairs the step selection. Afterwards there is no
    step selection when the active step list is empty (in particular
    without an active group), and otherwise the selection is the id of an
    active step, so a selected step exists. A selection that already is
    the non-empty id of an active step is kept; a selection that is
    missing, empty or not the id of an active step becomes the first
    step's id. Nothing but the step selection changes, and running the
    effect again changes nothing. *)
Theorem repairSelection_contract (st : Store) :
  let st' := repairSelection st in
  (activeSteps st = [] → selectedStepId st' = None)
  ∧ (activeSteps st ≠ [] → is_Some (selectedStep st'))
  ∧ (∀ s, selectedStep st = Some s → step_id s ≠ "" → st' = st)
  ∧ (selectedStep st = None ∨ falsy (selectedStepId st) = true →
     selectedStepId st' = step_id <$> head (activeSteps st))
  ∧ st' = setSelectedStepId (selectedStepId st') st
  ∧ repairSelection st' = st'.
Proof.
  intros st'.
  assert (Hshape : st' = setSelectedStepId (selectedStepId st') st).
  { unfold st', repairSelection. destruct (activeGroup st); [|done].
    destruct (activeSteps st); [done|].
    destruct (_ || _); [done|]. by destruct st. }
  assert (Hempty : activeSteps st = [] → selectedStepId st' = None).
  { intros He. unfold st', repairSelection.
    destruct (activeGroup st); [|done]. by rewrite He. }
  assert (Hsome : activeSteps st ≠ [] → is_Some (selectedStep st')).
  { intros Hne. apply selectedStep_is_Some. rewrite Hshape.
    rewrite activeSteps_setSelectedStepId. cbn [selectedStepId setSelectedStepId].
    unfold st', repairSelection.
    destruct (activeGroup st) as [active|] eqn:Hact.
    2:{ unfold activeSteps in Hne. by rewrite Hact in Hne. }
    destruct (activeSteps st) as [|first rest] eqn:Hsteps; [done|].
    destruct (falsy (selectedStepId st)
              || negb (bool_decide (Exists _ (first :: rest)))) eqn:Hc.
    - cbn [selectedStepId setSelectedStepId]. by apply Exists_cons_hd.
    - apply orb_false_elim in Hc as [_ Hc].
      apply negb_false_iff, bool_decide_eq_true in Hc. exact Hc. }
  split; [done|]. split; [done|]. split; [|split; [|split; [done|]]].
  - intros s Hs Hid.
    assert (Hex : Exists (λ step, Some (step_id step) = selectedStepId st)
                    (activeSteps st)).
    { apply selectedStep_is_Some. by rewrite Hs. }
    apply find_Some in Hs as [Hin Hsel].
    unfold st', repairSelection.
    destruct (activeGroup st) as [active|] eqn:Hact.
    2:{ unfold activeSteps in Hin. rewrite Hact in Hin.
        by apply elem_of_nil in Hin. }
    destruct (activeSteps st) as [|first rest] eqn:Hsteps.
    { by apply elem_of_nil in Hin. }
    rewrite Hsel. cbn [falsy]. rewrite bool_decide_eq_false_2 by done.
    rewrite <- Hsel. rewrite bool_decide_eq_true_2 by done. done.
  - intros Hnone.
    assert (Hcond : falsy (selectedStepId st)
                    || negb (bool_decide
                               (Exists (λ step, Some (step_id step)
                                                = selectedStepId st)
                                  (activeSteps st))) = true).
    { destruct Hnone as [Hnone|Hf]; [|by rewrite Hf].
      rewrite bool_decide_eq_false_2, orb_true_r; [done|].
      intros Hex%selectedStep_is_Some. rewrite Hnone in Hex.
      by destruct Hex. }
    unfold st', repairSelection.
    destruct (activeGroup st) as [active|] eqn:Hact.
    2:{ unfold activeSteps. by rewrite Hact. }
    destruct (activeSteps st) as [|first rest] eqn:Hsteps; [done|].
    by rewrite Hcond.
  - unfold st'.
    destruct (activeGroup st) as [active|] eqn:Hact.
    2:{ assert (repairSelection st = setSelectedStepId None st) as ->
          by (unfold repairSelection; by rewrite Hact).
        unfold repairSelection.
        change (activeGroup (setSelectedStepId None st)) with (activeGroup st).
        by rewrite Hact. }
    destruct (activeSteps st) as [|first rest] eqn:Hsteps.
    { assert (repairSelection st = setSelectedStepId None st) as ->
        by (unfold repairSelection; by rewrite Hact, Hsteps).
      unfold repairSelection.
      change (activeGroup (setSelectedStepId None st)) with (activeGroup st).
      change (activeSteps (setSelectedStepId None st)) with (activeSteps st).
      by rewrite Hact, Hsteps. }
    destruct (falsy (selectedStepId st)
              || negb (bool_decide
                         (Exists (λ step, Some (step_id step) = selectedStepId st)
                            (first :: rest)))) eqn:Hc.
    + assert (repairSelection st = setSelectedStepId (Some (step_id first)) st)
        as -> by (unfold repairSelection; by rewrite Hact, Hsteps, Hc).
      unfold repairSelection.
      change (activeGroup (setSelectedStepId (Some (step_id first)) st))
        with (activeGroup st).
      change (activeSteps (setSelectedStepId (Some (step_id first)) st))
        with (activeSteps st).
      rewrite Hact, Hsteps.
      match goal with |- (if ?c then _ else _) = _ => destruct c end; reflexivity.
    + assert (repairSelection st = st) as ->
        by (unfold repairSelection; by rewrite Hact, Hsteps, Hc).
      unfold repairSelection. by rewrite Hact, Hsteps, Hc.
Qed.

(* ------------------------------------------------------------------ *)
(** ** The input text of a group *)
(* ------------------------------------------------------------------ *)

(** X9. The input text is kept per group. With an active group, the
    callback [onInputTextChange(text)] stores [text] in the active group,
    so the input text the pipeline hook is started with for that group is
    [text]; the steps of every group, the groups that do not carry the
    active id (with their own input text), the selections and the library
    are unchanged. Without an active group the callback does nothing. *)
Theorem inputText_kept_per_group (clock : nat → Z) (text : string)
  (st : Store) :
  let st' := exec (onInputTextChange clock text) st in
  (∀ active, activeGroup st = Some active →
     initialInputText st' = text
     ∧ (∃ active', activeGroup st' = Some active'
          ∧ group_id active' = group_id active
          ∧ group_inputText active' = Some text
          ∧ group_steps active' = group_steps active
          ∧ group_title active' = group_title active)
     ∧ Forall2 (λ x y, group_id y = group_id x
                       ∧ group_steps y = group_steps x
                       ∧ (group_id x ≠ group_id active → y = x))
         (stepGroups st) (stepGroups st')
     ∧ selectedGroupId st' = selectedGroupId st
     ∧ selectedStepId st' = selectedStepId st
     ∧ librarySteps st' = librarySteps st)
  ∧ (activeGroup st = None → st' = st).
Proof.
  intros st'. split.
  2:{ intros Hact. unfold st', exec, onInputTextChange, bind, getStore.
      cbn [fst snd]. by rewrite Hact. }
  intros active Hact.
  assert (Hst' : st' = exec (updateGroupInputText clock (group_id active) text) st).
  { unfold st', exec, onInputTextChange, bind, getStore. cbn [fst snd].
    by rewrite Hact. }
  rewrite Hst'. clear st' Hst'.
  pose (f := λ group : StepGroup,
         if decide (group_id group = group_id active)
         then t <- dateNow clock ;;
              ret (mkGroup (group_id group) (group_title group)
                     (group_steps group) (group_createdAt group) t (Some text))
         else ret group).
  pose (r := traverse f (stepGroups st) st).
  change (exec (updateGroupInputText clock (group_id active) text) st)
    with (setStepGroups r.1 r.2).
  assert (Hsel : selectedGroupId r.2 = selectedGroupId st).
  { apply (traverse_preserves f selectedGroupId). intros x s. unfold f.
    by destruct (decide _). }
  pose (R := λ x y : StepGroup,
          group_id y = group_id x ∧ group_steps y = group_steps x
          ∧ group_title y = group_title x
          ∧ (group_id x = group_id active → group_inputText y = Some text)
          ∧ (group_id x ≠ group_id active → y = x)).
  assert (HF : Forall2 R (stepGroups st) r.1).
  { apply traverse_Forall2. intros x s. unfold f, R.
    by destruct (decide _). }
  assert (Hag : option_Forall2 R (activeGroup st)
                  (activeGroup (setStepGroups r.1 r.2))).
  { unfold activeGroup. cbn [stepGroups selectedGroupId setStepGroups].
    rewrite Hsel. apply (find_Forall2 _ _ R _ _ HF).
    intros x y (Hid & _). by rewrite Hid. }
  rewrite Hact in Hag. inversion Hag as [x y HR Hx Hy|]; subst.
  destruct HR as (Hid & Hsteps & Htitle & Htext & _).
  split; [|split; [|split; [|split; [|split]]]].
  - unfold initialInputText. rewrite <- Hy. simpl. by rewrite Htext.
  - exists y. rewrite Htext by done. done.
  - cbn [stepGroups setStepGroups].
    eapply Forall2_impl; [exact HF|]. intros a b (? & ? & _ & _ & ?). done.
  - exact Hsel.
  - cbn [selectedStepId setStepGroups].
    apply (traverse_preserves f selectedStepId). intros x s. unfold f.
    by destruct (decide _).
  - cbn [librarySteps setStepGroups].
    apply (traverse_preserves f librarySteps). intros x s. unfold f.
    by destruct (decide _).
Qed.

(* ------------------------------------------------------------------ *)
(** ** Muting a step *)
(* ------------------------------------------------------------------ *)

Section MuteFacts.
Variable clock : nat → Z.

Lemma activeSteps_updateStep id updates st :
  Forall2 (λ s s', if decide (step_id s = id)
                   then ∃ t, s' = mergeStep s updates t
                   else s' = s)
    (activeSteps st) (activeSteps (exec (updateStep clock id updates) st)).
Proof.
  destruct (activeGroup st) as [active|] eqn:Hact.
  2:{ unfold updateStep. rewrite updateActiveSteps_inactive by done.
      unfold activeSteps. rewrite Hact. constructor. }
  unfold updateStep.
  edestruct (activeSteps_updateActiveSteps_run clock) as [_ ->];
    [exact Hact| |].
  - intros prev s. apply (traverse_preserves _ selectedGroupId).
    intros x s0. by destruct (decide _).
  - apply traverse_Forall2. intros x s. destruct (decide _); [|done].
    by eexists.
Qed.

Lemma unmuted_after_muting id (l l' : list Step) :
  Forall2 (λ s s', if decide (step_id s = id)
                   then step_muted s' = true
                   else s' = s) l l' →
  unmuted l' = unmuted (filter (λ step, step_id step ≠ id) l).
Proof.
  induction 1 as [|x y l l' Hxy _ IH]; [done|].
  rewrite filter_cons, (unmuted_cons y). destruct (decide (step_id x = id)) as [e|n].
  - rewrite Hxy, decide_False by tauto. exact IH.
  - subst y. rewrite decide_True by done. rewrite unmuted_cons.
    by rewrite IH.
Qed.

End MuteFacts.

(** X10. Muting has the effect of deleting, as far as a run of the whole
    list goes. When the first active step carrying [id] is not muted, the
    mute toggle changes, in every active step carrying [id], the muted
    flag to [true] and [updatedAt], and no other step; the steps the
    engine evaluates are then those it would evaluate after
    [deleteStep(id)], so a run of the whole list returns the same result,
    and shows the same output and errors, in both stores. *)
Theorem mute_runs_like_delete (clock : nat → Z)
  (callFunction : string → string → Completion JsValue) (id : string)
  (st : Store) (target : Step) (inputText : string)
  (anchorId : option string) :
  let afterMute := activeSteps (exec (onToggleMuted clock id) st) in
  let afterDelete := activeSteps (exec (deleteStep clock id) st) in
  JsArray.find (λ s, step_id s = id) (activeSteps st) = Some target →
  step_muted target = false →
  Forall2 (λ s s', if decide (step_id s = id)
                   then ∃ t, s' = mkStep (step_id s) (step_title s) (step_code s)
                                    true (step_createdAt s) t
                   else s' = s) (activeSteps st) afterMute
  ∧ unmuted afterMute = unmuted afterDelete
  ∧ executePipeline callFunction inputText afterMute ScopeAll anchorId
    = executePipeline callFunction inputText afterDelete ScopeAll anchorId
  ∧ runPipeline callFunction inputText afterMute ScopeAll anchorId
    = runPipeline callFunction inputText afterDelete ScopeAll anchorId.
Proof.
  intros afterMute afterDelete Hfind Hm.
  assert (Hrun : exec (onToggleMuted clock id) st
            = exec (updateStep clock id
                      (mkPartialStep None None None (Some true) None None)) st).
  { unfold exec, onToggleMuted, bind, getStore. cbn [fst snd].
    by rewrite Hfind, Hm. }
  assert (HF : Forall2 (λ s s', if decide (step_id s = id)
                   then ∃ t, s' = mkStep (step_id s) (step_title s) (step_code s)
                                    true (step_createdAt s) t
                   else s' = s) (activeSteps st) afterMute).
  { unfold afterMute. rewrite Hrun.
    eapply Forall2_impl; [apply activeSteps_updateStep|].
    intros x y Hxy. simpl in Hxy. destruct (decide _); [|done].
    destruct Hxy as [t ->]. by exists t. }
  assert (Hun : unmuted afterMute = unmuted afterDelete).
  { unfold afterDelete. rewrite activeSteps_deleteStep.
    apply unmuted_after_muting. eapply Forall2_impl; [exact HF|].
    intros x y Hxy. simpl in Hxy. destruct (decide _); [|done].
    by destruct Hxy as [t ->]. }
  assert (Hexec : executePipeline callFunction inputText afterMute ScopeAll anchorId
            = executePipeline callFunction inputText afterDelete ScopeAll anchorId).
  { unfold executePipeline. cbn [resolveScopeSteps].
    rewrite (runSteps_unmuted _ _ afterMute), (runSteps_unmuted _ _ afterDelete).
    by rewrite Hun. }
  split; [done|]. split; [done|]. split; [done|].
  unfold runPipeline. by rewrite Hexec.
Qed.

(* ------------------------------------------------------------------ *)
(** ** More on reordering *)
(* ------------------------------------------------------------------ *)

Lemma reinsert {A : Type} (n : nat) (l : list A) x :
  l !! n = Some x → take n (delete n l) ++ x :: drop n (delete n l) = l.
Proof.
  intros Hx. pose proof (lookup_lt_Some _ _ _ Hx) as Hn.
  rewrite delete_take_drop.
  rewrite take_app_le by (rewrite length_take; lia).
  rewrite take_take, Nat.min_id.
  rewrite drop_app_ge by (rewrite length_take; lia).
  rewrite length_take, Nat.min_l by lia.
  rewrite Nat.sub_diag, drop_0.
  by apply take_drop_middle.
Qed.

Lemma moveItem_back {A : Type} i j (l : list A) :
  moveItem j i (moveItem i j l) = l.
Proof.
  destruct (decide (0 ≤ i < Z.of_nat (length l) ∧ 0 ≤ j < Z.of_nat (length l))%Z)
    as [[Hi Hj]|Hout].
  - destruct (lookup_lt_is_Some_2 l (Z.to_nat i)) as [x Hx]; [lia|].
    rewrite <- (Z2Nat.id i), <- (Z2Nat.id j) by lia.
    set (n := Z.to_nat i) in *. set (m := Z.to_nat j).
    assert (Hm : (m < length l)%nat) by lia.
    assert (Hn : (n < length l)%nat) by lia.
    rewrite (moveItem_in_range n m l x) by done.
    set (d := delete n l).
    assert (Hd : length d = (length l - 1)%nat).
    { unfold d. rewrite length_delete by eauto. done. }
    assert (Hlen : length (take m d) = m) by (rewrite length_take; lia).
    assert (Hl' : (take m d ++ x :: drop m d) !! m = Some x).
    { apply list_lookup_middle. by rewrite Hlen. }
    rewrite (moveItem_in_range m n _ x Hl').
    2:{ rewrite length_app, Hlen. simpl. rewrite length_drop. lia. }
    assert (Hdel : delete m (take m d ++ x :: drop m d) = d).
    { rewrite <- Hlen at 1. rewrite delete_middle. apply take_drop. }
    rewrite Hdel. by apply reinsert.
  - rewrite (moveItem_out_of_range i j) by lia.
    rewrite moveItem_out_of_range by lia. done.
Qed.

(** X11. Moving a step from [i] to [j] and then from [j] to [i] gives
    back the step list as it was, for every pair of indices (in range or
    not); the same holds in the library. *)
Theorem move_back_restores (clock : nat → Z) (st : Store) (i j : Z) :
  activeSteps (exec (moveStep clock j i) (exec (moveStep clock i j) st))
  = activeSteps st
  ∧ librarySteps (exec (moveLibraryStep j i) (exec (moveLibraryStep i j) st))
    = librarySteps st.
Proof.
  rewrite !activeSteps_moveStep, !librarySteps_moveLibraryStep.
  split; apply moveItem_back.
Qed.

Lemma moveItem_to_end {A : Type} (n : nat) (l : list A) x :
  l !! n = Some x →
  moveItem (Z.of_nat n) (Z.of_nat (length l) - 1) l = delete n l ++ [x].
Proof.
  intros Hx. pose proof (lookup_lt_Some _ _ _ Hx) as Hn.
  replace (Z.of_nat (length l) - 1)%Z with (Z.of_nat (length l - 1)) by lia.
  rewrite (moveItem_in_range _ _ _ x) by (done || lia).
  assert (Hd : length (delete n l) = (length l - 1)%nat).
  { rewrite length_delete by eauto. done. }
  by rewrite take_ge, drop_ge by lia.
Qed.

(** What is shown of the library is a sublist of it; with a blank search
    it is the library. *)
Lemma visibleLibrarySteps_sublist (toLowerCase trim : string → string)
  librarySearch (library : list LibraryStep) :
  visibleLibrarySteps toLowerCase trim librarySearch library
  `sublist_of` library.
Proof.
  unfold visibleLibrarySteps. destruct (blank _); [done|apply sublist_filter].
Qed.

(** X12. Reordering the library by drag and drop. The rows of the library
    list are the templates the search lets through, and a dragged row
    carries its number among those rows; the drop handlers use that
    number as an index into the whole library. So when row [row] is
    dropped on the list itself, the template at index [row] of the whole
    library goes to the end: the library becomes the old one without it,
    followed by it. When it is dropped on row [target], that template is
    taken out and put back at index [target]. With a blank search the
    rows are the library, and the template moved is the template
    dragged; under a search the two agree only when row [row] shows the
    template at index [row] of the library. The drop handler of the step
    list does the same for a text payload [REORDER:n], which no drag
    source of the application writes: the step at index [n] of the
    active steps goes to the end, and an [n] that is not an index leaves
    the steps as they were. *)
Theorem drop_on_list_moves_to_end (clock : nat → Z)
  (toLowerCase trim : string → string) (st : Store) (librarySearch : string)
  (row target : nat) (dragged over : LibraryStep) (fromIndex : Z) :
  let library := librarySteps st in
  let shown := visibleLibrarySteps toLowerCase trim librarySearch library in
  let steps := activeSteps st in
  let steps' := activeSteps (exec (dropStepOnList clock fromIndex) st) in
  (shown !! row = Some dragged →
   ∃ moved,
     library !! row = Some moved
     ∧ librarySteps (exec (dragLibraryRowOntoList row) st)
       = delete row library ++ [moved]
     ∧ (shown !! target = Some over →
        librarySteps (exec (dragLibraryRowOntoRow row target) st)
        = take target (delete row library)
          ++ moved :: drop target (delete row library))
     ∧ (searchQuery toLowerCase trim librarySearch = "" →
        shown = library ∧ moved = dragged)
     ∧ (moved = dragged ↔ library !! row = shown !! row))
  ∧ (∀ x, (0 ≤ fromIndex)%Z → steps !! Z.to_nat fromIndex = Some x →
     steps' = delete (Z.to_nat fromIndex) steps ++ [x])
  ∧ ((fromIndex < 0 ∨ Z.of_nat (length steps) ≤ fromIndex)%Z → steps' = steps).
Proof.
  intros library shown steps steps'.
  assert (Hs : steps' = moveItem fromIndex (Z.of_nat (length steps) - 1) steps).
  { unfold steps', exec, dropStepOnList, bind, getStore. cbn [fst snd].
    apply activeSteps_moveStep. }
  split; [|split].
  - intros Hrow.
    pose proof (visibleLibrarySteps_sublist toLowerCase trim librarySearch
                  library) as Hsub.
    fold shown in Hsub.
    assert (Hlen : (row < length library)%nat).
    { apply lookup_lt_Some in Hrow. apply sublist_length in Hsub. lia. }
    destruct (lookup_lt_is_Some_2 _ _ Hlen) as [moved Hmoved].
    exists moved. split; [done|]. split; [|split; [|split]].
    + change (librarySteps (exec (dragLibraryRowOntoList row) st))
        with (moveItem (Z.of_nat row)
                (Z.max 0 (Z.of_nat (length library) - 1)) library).
      replace (Z.max 0 (Z.of_nat (length library) - 1))
        with (Z.of_nat (length library) - 1)%Z by lia.
      by apply moveItem_to_end.
    + intros Htarget.
      change (librarySteps (exec (dragLibraryRowOntoRow row target) st))
        with (moveItem (Z.of_nat row) (Z.of_nat target) library).
      apply moveItem_in_range; [done|].
      apply lookup_lt_Some in Htarget. apply sublist_length in Hsub. lia.
    + intros Hq.
      assert (Hshown : shown = library).
      { unfold shown, visibleLibrarySteps, blank. rewrite Hq.
        by rewrite bool_decide_eq_true_2. }
      split; [done|]. rewrite Hshown in Hrow. congruence.
    + rewrite Hrow, Hmoved. split; [by intros ->|by intros [= ->]].
  - intros x H0 Hx. rewrite Hs. rewrite <- (Z2Nat.id fromIndex) at 1 by done.
    by apply moveItem_to_end.
  - intros Hout. rewrite Hs. apply moveItem_out_of_range. lia.
Qed.

(** X12 under a search: the library shows its one template with [bet] in
    the title; dragged onto the list, it stays where it is and the
    template at the head of the library goes to the end. *)
Lemma drop_on_list_moves_to_end_witness :
  let alpha := mkLibraryStep "t1" "Alpha" "return input" 0 0 in
  let beta := mkLibraryStep "t2" "Beta" "return input + '!'" 0 0 in
  librarySteps sampleLibraryStore = [alpha; beta]
  ∧ visibleLibrarySteps sampleToLowerCase sampleTrim "bet"
      (librarySteps sampleLibraryStore) = [beta]
  ∧ librarySteps (exec (dragLibraryRowOntoList 0) sampleLibraryStore)
    = [beta; alpha]
  ∧ (∃ moved,
       librarySteps sampleLibraryStore !! 0%nat = Some moved
       ∧ librarySteps (exec (dragLibraryRowOntoList 0) sampleLibraryStore)
         = delete 0 (librarySteps sampleLibraryStore) ++ [moved]).
Proof.
  intros alpha beta.
  split; [reflexivity|]. split; [vm_compute; reflexivity|].
  split; [reflexivity|].
  destruct (proj1 (drop_on_list_moves_to_end sampleClock sampleToLowerCase
                     sampleTrim sampleLibraryStore "bet" 0 0 beta beta 0)
              ltac:(vm_compute; reflexivity))
    as (moved & Hmoved & Hend & _).
  by exists moved.
Defined.

(* ------------------------------------------------------------------ *)
(** ** Drag and drop, and the ways into the library *)
(* ------------------------------------------------------------------ *)

Section FindIndexFacts.
Context {A : Type} (P : A → Prop) `{!∀ x, Decision (P x)}.

Lemma findIndex_found l :
  Exists P l →
  ∃ (n : nat) x, JsArray.findIndex P l = Z.of_nat n ∧ l !! n = Some x
    ∧ JsArray.find P l = Some x ∧ P x.
Proof.
  intros Hex. unfold JsArray.findIndex, JsArray.find.
  destruct (list_find P l) as [[n x]|] eqn:E.
  - apply list_find_Some in E as (Hn & Hx & _). by exists n, x.
  - apply list_find_None in E. apply Exists_exists in Hex as (x & Hin & Hx).
    rewrite Forall_forall in E. by destruct (E x Hin).
Qed.

Lemma findIndex_missing l :
  ¬ Exists P l → JsArray.findIndex P l = (-1)%Z ∧ JsArray.find P l = None.
Proof.
  intros Hno.
  assert (Forall (λ x, ¬ P x) l) as Hall.
  { apply Forall_forall. intros x Hin Hx. apply Hno, Exists_exists. eauto. }
  split; [by apply findIndex_absent|by apply find_None].
Qed.

End FindIndexFacts.

Lemma Exists_step_id (a : string) (l : list Step) :
  Exists (λ step, step_id step = a) l ↔ a ∈ (step_id <$> l).
Proof.
  rewrite Exists_exists, list_elem_of_fmap. split.
  - intros (x & Hin & Hx). by exists x.
  - intros (x & Hx & Hin). by exists x.
Qed.

Lemma activeGroup_of_step st x : x ∈ activeSteps st → is_Some (activeGroup st).
Proof.
  unfold activeSteps. destruct (activeGroup st); [by eauto|].
  by intros ?%elem_of_nil.
Qed.

Section DragFacts.
Variable clock : nat → Z.
Variable randomUUID : nat → string.

Lemma handleDragEnd_reorder_run a o st :
  o ≠ LIBRARY_DROPPABLE →
  exec (handleDragEnd clock randomUUID a (Some o)) st
  = if bool_decide (a ≠ o) && bool_decide (is_Some (activeGroup st))
       && bool_decide (JsArray.findIndex (λ step, step_id step = a)
                         (activeSteps st) ≠ (-1)%Z)
       && bool_decide (JsArray.findIndex (λ step, step_id step = o)
                         (activeSteps st) ≠ (-1)%Z)
    then exec (moveStep clock
                 (JsArray.findIndex (λ step, step_id step = a) (activeSteps st))
                 (JsArray.findIndex (λ step, step_id step = o) (activeSteps st)))
           st
    else st.
Proof.
  intros Ho. unfold exec at 1, handleDragEnd, bind, getStore. cbn [fst snd].
  rewrite (bool_decide_eq_false_2 (o = LIBRARY_DROPPABLE)) by done.
  cbn [andb].
  destruct (bool_decide (a ≠ o) && bool_decide (is_Some (activeGroup st)));
    [|done].
  cbn [andb].
  by destruct (bool_decide _ && bool_decide _).
Qed.

(** The template [createLibraryStep] makes from [source] in [st], and the
    store after it was appended to the library. *)
Lemma saveStepToLibrary_first (s : Step) st :
  JsArray.find (λ x, step_id x = step_id s) (activeSteps st) = Some s →
  exec (saveStepToLibrary clock randomUUID (Some s)) st
  = setLibrarySteps
      (librarySteps st
       ++ [mkLibraryStep (randomUUID (uuids st)) (step_title s) (step_code s)
             (clock (ticks st)) (clock (S (ticks st)))])
      (setTicks (S (S (ticks st))) (setUuids (S (uuids st)) st)).
Proof.
  intros Hfind. unfold exec, saveStepToLibrary, bind, getStore. cbn [fst snd].
  rewrite Hfind. reflexivity.
Qed.

Lemma find_by_own_id (i : string) (l : list Step) s :
  JsArray.find (λ x, step_id x = i) l = Some s →
  JsArray.find (λ x, step_id x = step_id s) l = Some s.
Proof.
  intros H. destruct (find_Some _ _ _ H) as [_ Hid]. by rewrite Hid.
Qed.

Lemma selectedStep_by_own_id st s :
  selectedStep st = Some s →
  JsArray.find (λ x, step_id x = step_id s) (activeSteps st) = Some s.
Proof.
  intros H. apply find_split in H as (pre & post & -> & Hpre & Hsel).
  apply find_first; [|done].
  eapply Forall_impl; [exact Hpre|]. simpl. intros x Hx Hid. apply Hx.
  by rewrite Hsel, Hid.
Qed.

End DragFacts.

(** X13. Dropping the dragged step [active] on another step [over] of the
    active list moves it to the position [over] had: the list becomes the
    old one with the first step carrying [active] relocated to the index of
    the first step carrying [over], so the dragged step is then at that
    index and the list is a permutation of the old one; the library is
    unchanged. When either id is not carried by an active step, or
    nothing lies under the drop, the store is left as it was. *)
Theorem drag_reorders (clock : nat → Z) (randomUUID : nat → string)
  (st : Store) (active over : string) :
  let steps := activeSteps st in
  let st' := exec (handleDragEnd clock randomUUID active (Some over)) st in
  let oldIndex := JsArray.findIndex (λ step, step_id step = active) steps in
  let newIndex := JsArray.findIndex (λ step, step_id step = over) steps in
  over ≠ LIBRARY_DROPPABLE →
  (active ∈ (step_id <$> steps) → over ∈ (step_id <$> steps) →
     activeSteps st' = moveItem oldIndex newIndex steps
     ∧ relocated oldIndex newIndex steps (activeSteps st')
     ∧ (∃ dragged,
          JsArray.find (λ step, step_id step = active) steps = Some dragged
          ∧ activeSteps st' !! Z.to_nat newIndex = Some dragged)
     ∧ activeSteps st' ≡ₚ steps
     ∧ librarySteps st' = librarySteps st)
  ∧ ((active ∉ (step_id <$> steps)) ∨ (over ∉ (step_id <$> steps)) → st' = st)
  ∧ exec (handleDragEnd clock randomUUID active None) st = st.
Proof.
  intros steps st' oldIndex newIndex Ho.
  pose proof (handleDragEnd_reorder_run clock randomUUID active over st Ho)
    as Hrun.
  fold steps oldIndex newIndex st' in Hrun.
  split; [|split; [|reflexivity]].
  - intros Ha Hb.
    apply (proj2 (Exists_step_id _ _)) in Ha, Hb.
    apply (findIndex_found _) in Ha as (n & x & Hn & Hx & Hfx & Hidx).
    apply (findIndex_found _) in Hb as (m & y & Hm & Hy & Hfy & Hidy).
    fold steps in Hn, Hx, Hfx, Hm, Hy, Hfy. fold oldIndex in Hn. fold newIndex in Hm.
    assert (Hgroup : is_Some (activeGroup st)).
    { eapply activeGroup_of_step, list_elem_of_lookup_2, Hx. }
    assert (Hrange : inRange oldIndex newIndex steps).
    { apply lookup_lt_Some in Hx, Hy. unfold inRange. lia. }
    assert (Hsteps : activeSteps st' = moveItem oldIndex newIndex steps).
    { rewrite Hrun.
      rewrite (bool_decide_eq_true_2 _ Hgroup).
      rewrite (bool_decide_eq_true_2 (oldIndex ≠ (-1)%Z)) by lia.
      rewrite (bool_decide_eq_true_2 (newIndex ≠ (-1)%Z)) by lia.
      destruct (decide (active = over)) as [->|Hne].
      - rewrite bool_decide_eq_false_2 by tauto. cbn [andb].
        assert (oldIndex = newIndex) as -> by reflexivity.
        by rewrite moveItem_same.
      - rewrite bool_decide_eq_true_2 by done. cbn [andb].
        apply activeSteps_moveStep. }
    pose proof (moveItem_relocated _ _ _ Hrange) as Hrel.
    rewrite <- Hsteps in Hrel.
    split; [done|]. split; [done|]. split; [|split].
    + exists x. split; [done|].
      destruct Hrel as (_ & Hat & _). rewrite Hat, Hn, Nat2Z.id. done.
    + rewrite Hsteps. apply moveItem_perm.
    + rewrite Hrun. destruct (_ && _); [|done].
      apply (updateActiveSteps_preserves clock librarySteps); done.
  - intros Hmiss. rewrite Hrun.
    destruct Hmiss as [Hmiss|Hmiss].
    + rewrite <- Exists_step_id in Hmiss.
      apply (findIndex_missing _) in Hmiss as [Hi _]. fold steps oldIndex in Hi.
      rewrite (bool_decide_eq_false_2 (oldIndex ≠ (-1)%Z)) by (rewrite Hi; tauto).
      by rewrite andb_false_r.
    + rewrite <- Exists_step_id in Hmiss.
      apply (findIndex_missing _) in Hmiss as [Hi _]. fold steps newIndex in Hi.
      rewrite (bool_decide_eq_false_2 (newIndex ≠ (-1)%Z)) by (rewrite Hi; tauto).
      by rewrite andb_false_r.
Qed.

(** X14. The three ways into the library of the hook-based application
    save exactly the step they looked up. The button saves the selected
    step, the context menu the first active step carrying the id it was
    opened on, a drop on the library the first active step carrying the
    dragged id: in each case one template is appended to the library,
    with the next identifier of the source, the title and the code of
    that step and timestamps read from the clock, and the groups and the
    selections are unchanged. Each of them leaves the store as it was
    when there is no such step. The button thereby does what
    [saveStepToLibrary()] without an argument does in [App.tsx]. *)
Theorem library_save_entry_points (clock : nat → Z)
  (randomUUID : nat → string) (st : Store) :
  let saved (source : Step) :=
    setLibrarySteps
      (librarySteps st
       ++ [mkLibraryStep (randomUUID (uuids st)) (step_title source)
             (step_code source) (clock (ticks st)) (clock (S (ticks st)))])
      (setTicks (S (S (ticks st))) (setUuids (S (uuids st)) st)) in
  (∀ s, selectedStep st = Some s →
     exec (saveSelectedStep clock randomUUID) st = saved s)
  ∧ (selectedStep st = None → exec (saveSelectedStep clock randomUUID) st = st)
  ∧ exec (saveSelectedStep clock randomUUID) st
    = exec (saveStepToLibrary_App clock randomUUID None) st
  ∧ (∀ id s, JsArray.find (λ x, step_id x = id) (activeSteps st) = Some s →
       exec (saveFromContextMenu clock randomUUID id) st = saved s
       ∧ exec (handleDragEnd clock randomUUID id (Some LIBRARY_DROPPABLE)) st
         = saved s)
  ∧ (∀ id, JsArray.find (λ x, step_id x = id) (activeSteps st) = None →
       exec (saveFromContextMenu clock randomUUID id) st = st
       ∧ exec (handleDragEnd clock randomUUID id (Some LIBRARY_DROPPABLE)) st
         = st).
Proof.
  intros saved.
  assert (Hbutton : ∀ s, selectedStep st = Some s →
            exec (saveSelectedStep clock randomUUID) st = saved s).
  { intros s Hs.
    change (exec (saveSelectedStep clock randomUUID) st)
      with (exec (saveStepToLibrary clock randomUUID (selectedStep st)) st).
    rewrite Hs. by apply saveStepToLibrary_first, selectedStep_by_own_id. }
  assert (Hnone : selectedStep st = None →
            exec (saveSelectedStep clock randomUUID) st = st).
  { intros Hs.
    change (exec (saveSelectedStep clock randomUUID) st)
      with (exec (saveStepToLibrary clock randomUUID (selectedStep st)) st).
    by rewrite Hs. }
  split; [done|]. split; [done|]. split; [|split].
  - destruct (selectedStep st) as [s|] eqn:Hs.
    + rewrite (Hbutton s eq_refl).
      unfold exec, saveStepToLibrary_App, bind, getStore. cbn [fst snd].
      by rewrite Hs.
    + rewrite (Hnone eq_refl).
      unfold exec, saveStepToLibrary_App, bind, getStore. cbn [fst snd].
      by rewrite Hs.
  - intros id s Hfind.
    pose proof (saveStepToLibrary_first clock randomUUID s st
                  (find_by_own_id _ _ _ Hfind)) as Hsave.
    split.
    + unfold exec at 1, saveFromContextMenu, bind, getStore. cbn [fst snd].
      rewrite Hfind. exact Hsave.
    + assert (Hgroup : is_Some (activeGroup st)).
      { apply find_Some in Hfind as [Hin _]. by eapply activeGroup_of_step. }
      unfold exec at 1, handleDragEnd, bind, getStore. cbn [fst snd].
      rewrite (bool_decide_eq_true_2 (LIBRARY_DROPPABLE = LIBRARY_DROPPABLE))
        by done.
      rewrite (bool_decide_eq_true_2 _ Hgroup). cbn [andb].
      rewrite Hfind. exact Hsave.
  - intros id Hfind. split.
    + unfold exec, saveFromContextMenu, bind, getStore. cbn [fst snd].
      by rewrite Hfind.
    + unfold exec, handleDragEnd, bind, getStore. cbn [fst snd].
      rewrite (bool_decide_eq_true_2 (LIBRARY_DROPPABLE = LIBRARY_DROPPABLE))
        by done.
      cbn [andb]. rewrite Hfind.
      destruct (bool_decide (is_Some (activeGroup st))) eqn:Hg; [done|].
      rewrite andb_false_r. done.
Qed.

(* ------------------------------------------------------------------ *)
(** ** More on the transform engine *)
(* ------------------------------------------------------------------ *)

Section EngineInversion.
Variable callFunction : string → string → Completion JsValue.

Lemma runSteps_inversion current steps result :
  Forall (λ step, step_muted step = false) steps →
  runSteps callFunction current steps = Normal result →
  accountsFor callFunction current steps result.
Proof.
  unfold accountsFor. intros Hm. revert current.
  induction Hm as [|step rest Hstep _ IH]; intros current Hrun.
  - simpl in Hrun. injection Hrun as <-. simpl. done.
  - simpl in Hrun. rewrite Hstep in Hrun.
    destruct (tryStep callFunction step current) as [next|error] eqn:Htry.
    + specialize (IH next Hrun).
      destruct (failedStep result) as [failed|].
      * destruct IH as (n & error & message & Hn & Hok & Hout & Hthrow & Hmsg & Herr).
        exists (S n), error, message. simpl.
        unfold foldTransforms. simpl. unfold transformOf. rewrite Htry.
        done.
      * simpl. unfold foldTransforms. simpl. unfold transformOf.
        rewrite Htry. exact IH.
    + destruct (getErrorMessage error) as [message|] eqn:Hmsg; [|done].
      injection Hrun as <-. simpl.
      exists 0%nat, error, message. simpl. done.
Qed.

Lemma executePipeline_inversion inputText activeSteps scope anchorId result :
  executePipeline callFunction inputText activeSteps scope anchorId
  = Normal result →
  accountsFor callFunction inputText
    (unmuted (resolveScopeSteps activeSteps scope anchorId)) result.
Proof.
  intros Hrun. unfold executePipeline in Hrun.
  rewrite runSteps_unmuted in Hrun.
  by apply runSteps_inversion; [apply unmuted_Forall|].
Qed.

End EngineInversion.

(** X15. Every result an engine returns has one of two shapes, in
    [usePipeline] and in [App.tsx] alike ([pipeline] and [pipeline_App]
    are the non-muted steps their resolvers select). Either there is no
    failed step: then the error record is [{}], no evaluated step failed,
    and the output is the left fold of the transforms of the steps. Or
    there is a failed step: then it is one of the steps, every step
    before it succeeded, the output is the fold of the transforms of
    those earlier steps, the step did throw on that value,
    [getErrorMessage] returned [message] for what was thrown, and the
    error record is [{}] after [errors[id] = message]. That record has
    exactly one own entry, keyed by the failed step's id and holding
    [message], unless the id is [__proto__]: then the assignment stores
    nothing and the record has no own entry. The message is what the
    [message] property of a thrown [Error] holds, a string or not, and
    otherwise the string [String()] makes of the thrown value. *)
Theorem execute_result_shapes
  (callFunction : string → string → Completion JsValue)
  (inputText : string) (activeSteps : list Step) (selected : option Step)
  (scope : RunScope) (anchorId : option string) (result : ExecResult) :
  let pipeline := unmuted (resolveScopeSteps activeSteps scope anchorId) in
  let pipeline_App :=
    unmuted (resolveScopeSteps_App activeSteps selected scope anchorId) in
  (executePipeline callFunction inputText activeSteps scope anchorId
   = Normal result →
   accountsFor callFunction inputText pipeline result)
  ∧ (executePipeline_App callFunction inputText activeSteps selected scope
       anchorId
     = Normal result →
     accountsFor callFunction inputText pipeline_App result)
  ∧ (∀ id message,
       (id ≠ PROTO →
        errorsWith id message = mkRecord {[ id := message ]} None)
       ∧ (id = PROTO → errorsWith id message = mkRecord ∅ (Some message)))
  ∧ (∀ error message,
       getErrorMessage error = Normal message →
       match error with
       | ThrownError text => message = JsString text
       | ThrownErrorHolding held => message = held
       | ThrownErrorUnreadable _ => False
       | ThrownValue v => ∃ text, toJsString v = Normal text
                                  ∧ message = JsString text
       end).
Proof.
  intros pipeline pipeline_App. split; [|split; [|split]].
  - apply executePipeline_inversion.
  - intros Hrun. unfold executePipeline_App in Hrun.
    rewrite runSteps_unmuted in Hrun.
    by apply runSteps_inversion; [apply unmuted_Forall|].
  - intros id message. split; [apply errorsWith_own|by intros ->].
  - intros [text|v|held|raised] message H; simpl in H; try congruence.
    destruct (toJsString v) as [text|]; [|done].
    exists text. split; [done|congruence].
Qed.

(** X16. The engine composes over concatenation: running [l1 ++ l2] is
    running [l1] and, when that run ends without a failed step, running
    [l2] on its output; when the run of [l1] has a failed step its result
    is the result of the whole run, and the steps of [l2] are not
    evaluated; when it throws, the whole run throws the same. *)
Theorem execute_composes
  (callFunction : string → string → Completion JsValue)
  (current : string) (l1 l2 : list Step) :
  runSteps callFunction current (l1 ++ l2)
  = match runSteps callFunction current l1 with
    | Normal r1 =>
        match failedStep r1 with
        | None => runSteps callFunction (output r1) l2
        | Some _ => Normal r1
        end
    | Throw raised => Throw raised
    end.
Proof.
  revert current. induction l1 as [|step l1 IH]; intros current; [done|].
  simpl. destruct (step_muted step); [apply IH|].
  destruct (tryStep callFunction step current) as [next|error]; [apply IH|].
  by destruct (getErrorMessage error).
Qed.

Lemma readRecord_errorsWith (inherited : Inherited) id message :
  id ≠ PROTO → readRecord inherited (errorsWith id message) id = Normal message.
Proof.
  intros H. rewrite errorsWith_own by done. unfold readRecord.
  cbn [ownEntries]. by rewrite lookup_singleton_eq.
Qed.

(** X17. What a call of [runPipeline] leaves on the screen, in terms of
    the call of [executePipeline] it makes. If that call throws, so does
    [runPipeline], before any setter is called. If it returns a result
    without failed step, no evaluated step failed, the errors shown are
    [{}] and the output shown is the fold of the transforms of the
    non-muted resolved steps. If it returns a result with a failed step,
    that step is one of the non-muted resolved steps, it threw [error] on
    the output of the result, [getErrorMessage error] gave [message], and
    the errors shown are the record of the result. What is shown as
    output ([display]) follows from the value the banner reads back from
    that record: the banner [Error in "title": text] made of the step's
    title and of the text of the value, which is what [String()] makes
    of it; but when the value is a symbol, or cannot be converted, the
    template literal raises, the errors are shown and the output is left
    as it was. When the step's id is not [__proto__] the record has the
    one own entry for the step and the value read back is [message].
    When the step's id is [__proto__] the record has no own entry and
    the value read back is the prototype of the record:
    [Object.prototype], of text [[object Object]], when [message] is a
    string or another primitive; nothing, of text [undefined], when
    [message] is [null]; and what the prototype chain yields when
    [message] may be an object. The run scheduled by the hook always
    uses scope [all]: whatever the scope anchor is, it shows what
    [runPipeline] shows for the whole list, and without an active group
    it does not call [runPipeline]. (In general a read of the record
    yields the own entry of the key when there is one, and is otherwise,
    for a key other than [__proto__], left to the prototype chain.) *)
Theorem runPipeline_shows
  (callFunction : string → string → Completion JsValue)
  (inputText : string) (activeSteps : list Step) (scope : RunScope)
  (anchorId : option string) (inherited : Inherited) :
  let pipeline := unmuted (resolveScopeSteps activeSteps scope anchorId) in
  let run :=
    executePipeline callFunction inputText activeSteps scope anchorId in
  let shown :=
    runPipeline callFunction inputText activeSteps scope anchorId inherited in
  let banner (failed : Step) (text : string) :=
    "Error in " +:+ doubleQuote +:+ step_title failed +:+ doubleQuote
    +:+ ": " +:+ text in
  let display (failed : Step) (record : JsRecord)
    (read : Completion JsValue) :=
    match read with
    | Throw raised => ErrorsShown record raised
    | Normal (JsSymbol _ raised) => ErrorsShown record raised
    | Normal value =>
        match toJsString value with
        | Throw raised => ErrorsShown record raised
        | Normal text => Shown (mkPipelineView (banner failed text) record)
        end
    end in
  (∀ raised, run = Throw raised ↔ shown = NothingShown raised)
  ∧ (∀ result, run = Normal result → failedStep result = None →
       allSucceed callFunction inputText pipeline
       ∧ shown
         = Shown (mkPipelineView
                    (foldTransforms callFunction inputText pipeline) ∅))
  ∧ (∀ result failed, run = Normal result →
       failedStep result = Some failed →
       ∃ error message,
         failed ∈ pipeline
         ∧ tryStep callFunction failed (output result) = Throw error
         ∧ getErrorMessage error = Normal message
         ∧ errors result = errorsWith (step_id failed) message
         ∧ (step_id failed ≠ PROTO →
            shown
            = display failed (mkRecord {[ step_id failed := message ]} None)
                (Normal message))
         ∧ (step_id failed = PROTO →
            shown
            = display failed (mkRecord ∅ (Some message))
                match message with
                | JsNull => Normal JsUndefined
                | JsOther _ | JsUnprintable _ =>
                    inherited (Some message) PROTO
                | _ => Normal (JsOther "[object Object]")
                end)
         ∧ (∀ text, message = JsString text →
            shown
            = if decide (step_id failed = PROTO)
              then Shown (mkPipelineView (banner failed "[object Object]")
                            (mkRecord ∅ (Some message)))
              else Shown (mkPipelineView (banner failed text)
                            (mkRecord {[ step_id failed := message ]} None))))
  ∧ (∀ scopeStepId,
       scheduledRun callFunction true inputText activeSteps scopeStepId
         inherited
       = Some (runPipeline callFunction inputText activeSteps ScopeAll None
                 inherited)
       ∧ scheduledRun callFunction false inputText activeSteps scopeStepId
           inherited
         = None)
  ∧ (∀ record key,
       match ownEntries record !! key with
       | Some value => readRecord inherited record key = Normal value
       | None =>
           key ≠ PROTO →
           readRecord inherited record key
           = inherited (protoAssigned record) key
       end).
Proof.
  intros pipeline run shown banner display. split; [|split; [|split; [|split]]].
  5:{ intros record key. unfold readRecord.
      destruct (ownEntries record !! key); [done|].
      intros Hkey. by rewrite decide_False. }
  - intros raised. unfold shown, runPipeline. fold run.
    destruct run as [result|error].
    + split; [done|].
      destruct (failedStep result); [|done].
      destruct (readRecord _ _ _) as [value|]; [|done].
      by destruct (toTemplateString value).
    + split; intros [= ->]; reflexivity.
  - intros result Hrun Hnone.
    pose proof (executePipeline_inversion _ _ _ _ _ _ Hrun) as Hshape.
    unfold accountsFor in Hshape. rewrite Hnone in Hshape.
    destruct Hshape as (Herr & Hok & Hout). split; [done|].
    unfold shown, runPipeline. fold run. rewrite Hrun, Hnone.
    by rewrite Herr, Hout.
  - intros result failed Hrun Hfailed.
    pose proof (executePipeline_inversion _ _ _ _ _ _ Hrun) as Hshape.
    unfold accountsFor in Hshape. rewrite Hfailed in Hshape.
    destruct Hshape as (n & error & message & Hn & _ & _ & Hthrow & Hmsg & Herr).
    exists error, message.
    split; [by eapply list_elem_of_lookup_2|].
    split; [done|]. split; [done|]. split; [done|].
    assert (Hown : step_id failed ≠ PROTO →
              shown
              = display failed (mkRecord {[ step_id failed := message ]} None)
                  (Normal message)).
    { intros Hid. unfold shown, runPipeline. fold run.
      rewrite Hrun, Hfailed, Herr.
      rewrite readRecord_errorsWith by done. rewrite errorsWith_own by done.
      unfold display, errorBanner, banner.
      by destruct message as [| |[]| | | |]. }
    assert (Hproto : step_id failed = PROTO →
              shown
              = display failed (mkRecord ∅ (Some message))
                  match message with
                  | JsNull => Normal JsUndefined
                  | JsOther _ | JsUnprintable _ =>
                      inherited (Some message) PROTO
                  | _ => Normal (JsOther "[object Object]")
                  end).
    { intros Hid. unfold shown, runPipeline. fold run.
      rewrite Hrun, Hfailed, Herr, Hid. rewrite errorsWith_proto.
      unfold display, errorBanner, banner, readRecord, objectPrototype.
      cbn [ownEntries protoAssigned]. rewrite lookup_empty.
      rewrite decide_True by done.
      destruct message as [| |[]| | | |]; try reflexivity.
      all: destruct (inherited _ PROTO) as [[| |[]| | | |]|]; reflexivity. }
    split; [exact Hown|]. split; [exact Hproto|].
    intros text ->. destruct (decide (step_id failed = PROTO)) as [Hid|Hid].
    + by rewrite (Hproto Hid).
    + by rewrite (Hown Hid).
  - intros scopeStepId. split; [|done].
    unfold scheduledRun, runPipeline, runScope, executePipeline. done.
Qed.

(* ------------------------------------------------------------------ *)
(** ** The resolved steps as a segment of the list *)
(* ------------------------------------------------------------------ *)

Lemma slice_drop {A : Type} (k : Z) (l : list A) :
  (0 ≤ k)%Z → JsArray.slice k None l = drop (Z.to_nat k) l.
Proof.
  intros Hk. unfold JsArray.slice, JsArray.relativeIndex.
  destruct (Z.ltb_spec k 0); [lia|].
  destruct (Z.le_gt_cases k (Z.of_nat (length l))) as [Hle|Hgt].
  - rewrite Z.min_l by done. apply take_ge. rewrite length_drop. lia.
  - rewrite Z.min_r by lia. rewrite Nat2Z.id, Z.sub_diag.
    rewrite !drop_ge by lia. done.
Qed.

Lemma slice_take {A : Type} (e : Z) (l : list A) :
  (0 ≤ e)%Z → JsArray.slice 0 (Some e) l = take (Z.to_nat e) l.
Proof.
  intros He. unfold JsArray.slice, JsArray.relativeIndex.
  destruct (Z.ltb_spec e 0); [lia|]. simpl.
  replace (Z.min 0 (Z.of_nat (length l))) with 0%Z by lia.
  rewrite Z.sub_0_r. simpl.
  destruct (Z.le_gt_cases e (Z.of_nat (length l))) as [Hle|Hgt].
  - by rewrite Z.min_l by done.
  - rewrite Z.min_r by lia. rewrite Nat2Z.id.
    change (Z.to_nat 0) with 0%nat. rewrite drop_0.
    by rewrite !take_ge by lia.
Qed.

(** The three shapes of what the resolver returns. *)
Lemma resolveScopeSteps_shape steps scope anchorId :
  resolveScopeSteps steps scope anchorId = steps
  ∨ (scope = ScopeFrom
     ∧ ∃ n : nat, (n < length steps)%nat
         ∧ resolveScopeSteps steps scope anchorId = drop n steps)
  ∨ (scope = ScopeTo
     ∧ ∃ n : nat, (n < length steps)%nat
         ∧ resolveScopeSteps steps scope anchorId = take (S n) steps).
Proof.
  unfold resolveScopeSteps. destruct scope; [by left| |].
  all: destruct (falsy anchorId); [by left|].
  all: unfold JsArray.findIndex.
  all: destruct (list_find _ steps) as [[n x]|] eqn:E; [|by left].
  all: apply list_find_Some in E as (Hn & _).
  all: apply lookup_lt_Some in Hn.
  all: destruct (Z.ltb_spec (Z.of_nat n) 0); [lia|].
  - right. left. split; [done|]. exists n. split; [done|].
    rewrite slice_drop by lia. by rewrite Nat2Z.id.
  - right. right. split; [done|]. exists n. split; [done|].
    rewrite slice_take by lia.
    by replace (Z.to_nat (Z.of_nat n + 1)) with (S n) by lia.
Qed.

(** X24. Whatever the scope and the anchor, the steps the resolver
    returns are a segment of the active steps: the whole list for [all],
    a suffix for [from], a prefix for [to]; and they are never empty when
    the list is not, so a run never fails by running nothing. The
    resolver of [App.tsx] has the same property. Hence the step reported
    as failed by [executePipeline] is always one of the active steps, and
    it is not muted. *)
Theorem resolved_steps_are_a_segment
  (callFunction : string → string → Completion JsValue)
  (inputText : string) (steps : list Step) (selected : option Step)
  (scope : RunScope) (anchorId : option string) :
  let resolved := resolveScopeSteps steps scope anchorId in
  let resolved_App := resolveScopeSteps_App steps selected scope anchorId in
  (scope = ScopeAll → resolved = steps)
  ∧ (scope = ScopeFrom → resolved `suffix_of` steps)
  ∧ (scope = ScopeTo → resolved `prefix_of` steps)
  ∧ resolved `sublist_of` steps
  ∧ (steps ≠ [] → resolved ≠ [])
  ∧ resolved_App `sublist_of` steps
  ∧ (steps ≠ [] → resolved_App ≠ [])
  ∧ (∀ result failed,
       executePipeline callFunction inputText steps scope anchorId
       = Normal result →
       failedStep result = Some failed →
       failed ∈ steps ∧ step_muted failed = false).
Proof.
  intros resolved resolved_App.
  assert (Hsub : ∀ a, resolveScopeSteps steps scope a `sublist_of` steps).
  { intros a.
    destruct (resolveScopeSteps_shape steps scope a)
      as [->|[(_ & n & _ & ->)|(_ & n & _ & ->)]].
    - done.
    - apply sublist_drop.
    - apply sublist_take. }
  assert (Hne : ∀ a, steps ≠ [] → resolveScopeSteps steps scope a ≠ []).
  { intros a Hsteps.
    destruct (resolveScopeSteps_shape steps scope a)
      as [->|[(_ & n & Hn & ->)|(_ & n & Hn & ->)]].
    - done.
    - intros H. apply (f_equal length) in H. rewrite length_drop in H.
      simpl in H. lia.
    - intros H. apply (f_equal length) in H. rewrite length_take in H.
      destruct steps; simpl in *; lia. }
  assert (Happ : resolved_App
            = resolveScopeSteps steps scope
                (match anchorId with
                 | Some a => Some a
                 | None => step_id <$> selected
                 end)).
  { unfold resolved_App. by destruct scope. }
  split; [by intros ->|]. split; [|split; [|split; [|split; [|split; [|split]]]]].
  - intros ->. unfold resolved.
    destruct (resolveScopeSteps_shape steps ScopeFrom anchorId)
      as [->|[(_ & n & _ & ->)|([=] & _)]].
    + done.
    + apply suffix_drop.
  - intros ->. unfold resolved.
    destruct (resolveScopeSteps_shape steps ScopeTo anchorId)
      as [->|[([=] & _)|(_ & n & _ & ->)]].
    + done.
    + apply prefix_take.
  - apply Hsub.
  - apply Hne.
  - rewrite Happ. apply Hsub.
  - rewrite Happ. apply Hne.
  - intros result failed Hrun Hfailed.
    unfold executePipeline in Hrun. rewrite runSteps_unmuted in Hrun.
    apply runSteps_inversion in Hrun; [|apply unmuted_Forall].
    unfold accountsFor in Hrun. rewrite Hfailed in Hrun.
    destruct Hrun as (n & _ & _ & Hn & _).
    apply list_elem_of_lookup_2 in Hn.
    apply list_elem_of_filter in Hn as [Hm Hin]. split; [|done].
    eapply elem_of_sublist; [exact Hin|apply Hsub].
Qed.

(* ------------------------------------------------------------------ *)
(** ** Search *)
(* ------------------------------------------------------------------ *)

Lemma append_cons x (a b : string) : String x a +:+ b = String x (a +:+ b).
Proof. reflexivity. Qed.

Lemma append_empty (b : string) : "" +:+ b = b.
Proof. reflexivity. Qed.

Lemma append_assoc (a b c : string) : (a +:+ b) +:+ c = a +:+ b +:+ c.
Proof.
  induction a as [|x a IH]; [done|]. by rewrite !append_cons, IH.
Qed.

Lemma startsWith_spec s sub :
  startsWith s sub = true ↔ ∃ post, s = sub +:+ post.
Proof.
  revert s. induction sub as [|b sub IH]; intros s.
  - simpl. split; [intros _; by exists s|done].
  - destruct s as [|a s]; simpl.
    + split; [done|]. intros [post H]. rewrite append_cons in H. done.
    + destruct (Ascii.eqb_spec a b) as [->|Hne].
      * rewrite IH. split; intros [post Hpost]; exists post.
        -- by rewrite append_cons, Hpost.
        -- rewrite append_cons in Hpost. by injection Hpost.
      * split; [done|]. intros [post H]. rewrite append_cons in H.
        injection H as Hab _. done.
Qed.

Lemma includes_spec s sub :
  includes s sub = true ↔ ∃ pre post, s = pre +:+ sub +:+ post.
Proof.
  induction s as [|a s IH]; cbn [includes].
  - rewrite orb_false_r, startsWith_spec. split.
    + intros [post ->]. by exists "", post.
    + intros (pre & post & H). destruct pre as [|c pre]; [by exists post|].
      rewrite append_cons in H. done.
  - rewrite orb_true_iff, startsWith_spec, IH. split.
    + intros [[post ->]|(pre & post & ->)].
      * by exists "", post.
      * by exists (String a pre), post.
    + intros (pre & post & H). destruct pre as [|c pre].
      * left. by exists post.
      * right. rewrite append_cons in H. injection H as _ ->.
        by exists pre, post.
Qed.

Lemma includes_trans a b c :
  includes a b = true → includes b c = true → includes a c = true.
Proof.
  rewrite !includes_spec. intros (p1 & q1 & ->) (p2 & q2 & ->).
  exists (p1 +:+ p2), (q2 +:+ q1). by rewrite !append_assoc.
Qed.

Lemma includes_empty_l sub : includes "" sub = true → sub = "".
Proof.
  rewrite includes_spec. intros (pre & post & H).
  destruct pre as [|c pre]; [|by rewrite append_cons in H].
  rewrite append_empty in H. destruct sub as [|c sub]; [done|].
  by rewrite append_cons in H.
Qed.

Lemma sublist_filter_impl {A : Type} (P Q : A → Prop)
  `{!∀ x, Decision (P x)} `{!∀ x, Decision (Q x)} (l : list A) :
  (∀ x, P x → Q x) → filter P l `sublist_of` filter Q l.
Proof.
  intros HPQ. rewrite <- (list_filter_filter_l P Q l HPQ).
  apply sublist_filter.
Qed.

Section SearchFacts.
Variable toLowerCase : string → string.
Variable trim : string → string.

Local Abbreviation searchQuery := (searchQuery toLowerCase trim).

(** The shape shared by the three filters. *)
Lemma search_filter_narrows {A : Type} (text1 text2 : A → string)
  (narrow wide : string) (l : list A) :
  includes narrow wide = true →
  (if blank narrow then l
   else filter (λ x, includes (text1 x) narrow || includes (text2 x) narrow
                     = true) l)
  `sublist_of`
  (if blank wide then l
   else filter (λ x, includes (text1 x) wide || includes (text2 x) wide
                     = true) l).
Proof.
  intros Hinc. unfold blank.
  destruct (bool_decide (wide = "")) eqn:Hw.
  - destruct (bool_decide (narrow = "")); [done|apply sublist_filter].
  - apply bool_decide_eq_false in Hw.
    destruct (bool_decide (narrow = "")) eqn:Hn.
    + apply bool_decide_eq_true in Hn. subst narrow.
      by apply includes_empty_l in Hinc.
    + apply sublist_filter_impl. intros x.
      rewrite !orb_true_iff. intros [H|H]; [left|right];
        by eapply includes_trans.
Qed.

End SearchFacts.

(** The shape shared by the three filters, as one filter. *)
Lemma search_filter_exact {A : Type} (P : A → Prop) `{!∀ x, Decision (P x)}
  (query : string) (l : list A) :
  (if blank query then l else filter P l)
  = filter (λ x, query = "" ∨ P x) l.
Proof.
  unfold blank. destruct (bool_decide (query = "")) eqn:Hq.
  - apply bool_decide_eq_true in Hq. symmetry. apply filter_all.
    apply Forall_forall. intros x _. by left.
  - apply bool_decide_eq_false in Hq. apply list_filter_iff.
    intros x. tauto.
Qed.

(** X18. The three search boxes, each on its own collection: groups by
    title, steps and library steps by title or code. What is shown is
    exactly the collection filtered, in its order and with its
    repetitions, by: the query (the search text trimmed and lower-cased)
    is empty, or the lower-cased title (or code) contains it. Hence an
    item is shown just when it is in the collection and passes that test,
    what is shown is a sublist of the collection, and a search text that
    is blank after trimming shows the whole collection. Refining the
    search only narrows what is shown: when the query made from one
    search text contains the query made from another, everything shown
    for the first is shown for the second, in the same order. *)
Theorem search_narrows (toLowerCase trim : string → string)
  (narrow wide : string) (stepGroups : list StepGroup) (activeSteps : list Step)
  (librarySteps : list LibraryStep) :
  let query := searchQuery toLowerCase trim in
  let groupShown (search : string) (group : StepGroup) :=
    query search = ""
    ∨ includes (toLowerCase (group_title group)) (query search) = true in
  let stepShown (search : string) (step : Step) :=
    query search = ""
    ∨ includes (toLowerCase (step_title step)) (query search)
      || includes (toLowerCase (step_code step)) (query search) = true in
  let libraryShown (search : string) (step : LibraryStep) :=
    query search = ""
    ∨ includes (toLowerCase (lib_title step)) (query search)
      || includes (toLowerCase (lib_code step)) (query search) = true in
  (includes (query narrow) (query wide) = true →
   visibleGroups toLowerCase trim narrow stepGroups
     `sublist_of` visibleGroups toLowerCase trim wide stepGroups
   ∧ visibleSteps toLowerCase trim narrow activeSteps
     `sublist_of` visibleSteps toLowerCase trim wide activeSteps
   ∧ visibleLibrarySteps toLowerCase trim narrow librarySteps
     `sublist_of` visibleLibrarySteps toLowerCase trim wide librarySteps)
  ∧ (visibleGroups toLowerCase trim wide stepGroups
     = filter (groupShown wide) stepGroups
     ∧ visibleSteps toLowerCase trim wide activeSteps
       = filter (stepShown wide) activeSteps
     ∧ visibleLibrarySteps toLowerCase trim wide librarySteps
       = filter (libraryShown wide) librarySteps)
  ∧ ((∀ group, group ∈ visibleGroups toLowerCase trim wide stepGroups
        ↔ group ∈ stepGroups ∧ groupShown wide group)
     ∧ (∀ step, step ∈ visibleSteps toLowerCase trim wide activeSteps
          ↔ step ∈ activeSteps
            ∧ (query wide = ""
               ∨ includes (toLowerCase (step_title step)) (query wide) = true
               ∨ includes (toLowerCase (step_code step)) (query wide) = true))
     ∧ (∀ step, step ∈ visibleLibrarySteps toLowerCase trim wide librarySteps
          ↔ step ∈ librarySteps
            ∧ (query wide = ""
               ∨ includes (toLowerCase (lib_title step)) (query wide) = true
               ∨ includes (toLowerCase (lib_code step)) (query wide) = true)))
  ∧ (visibleGroups toLowerCase trim wide stepGroups `sublist_of` stepGroups
     ∧ visibleSteps toLowerCase trim wide activeSteps `sublist_of` activeSteps
     ∧ visibleLibrarySteps toLowerCase trim wide librarySteps
       `sublist_of` librarySteps)
  ∧ (query wide = "" →
     visibleGroups toLowerCase trim wide stepGroups = stepGroups
     ∧ visibleSteps toLowerCase trim wide activeSteps = activeSteps
     ∧ visibleLibrarySteps toLowerCase trim wide librarySteps = librarySteps).
Proof.
  intros query groupShown stepShown libraryShown.
  assert (Hexact :
    visibleGroups toLowerCase trim wide stepGroups
    = filter (groupShown wide) stepGroups
    ∧ visibleSteps toLowerCase trim wide activeSteps
      = filter (stepShown wide) activeSteps
    ∧ visibleLibrarySteps toLowerCase trim wide librarySteps
      = filter (libraryShown wide) librarySteps).
  { unfold visibleGroups, visibleSteps, visibleLibrarySteps.
    fold (query wide).
    split; [|split]; apply search_filter_exact. }
  destruct Hexact as (Hg & Hs & Hl).
  split; [|split; [done|split; [|split]]].
  - intros Hinc. split; [|split].
    + unfold visibleGroups. fold (query narrow) (query wide).
      pose proof (search_filter_narrows
                    (λ g, toLowerCase (group_title g))
                    (λ g, toLowerCase (group_title g))
                    (query narrow) (query wide) stepGroups Hinc) as H.
      erewrite (list_filter_iff _ (λ g, includes (toLowerCase (group_title g))
                                          (query narrow) = true)) in H.
      2:{ intros x. rewrite orb_diag. done. }
      erewrite (list_filter_iff (λ g, _ || includes _ (query wide) = true)
                  (λ g, includes (toLowerCase (group_title g))
                          (query wide) = true)) in H.
      2:{ intros x. rewrite orb_diag. done. }
      exact H.
    + apply (search_filter_narrows _ _ _ _ _ Hinc).
    + apply (search_filter_narrows _ _ _ _ _ Hinc).
  - rewrite Hg, Hs, Hl. split; [|split].
    + intros group. rewrite list_elem_of_filter. tauto.
    + intros step. rewrite list_elem_of_filter. unfold stepShown.
      rewrite orb_true_iff. tauto.
    + intros step. rewrite list_elem_of_filter. unfold libraryShown.
      rewrite orb_true_iff. tauto.
  - rewrite Hg, Hs, Hl. split; [|split]; apply sublist_filter.
  - intros Hq. unfold visibleGroups, visibleSteps, visibleLibrarySteps.
    fold (query wide). unfold blank. by rewrite bool_decide_eq_true_2.
Qed.

(* ------------------------------------------------------------------ *)
(** ** Theme *)
(* ------------------------------------------------------------------ *)

(** X19. The theme survives a reload: the entry the effect writes for a
    theme is read back as that theme. Toggling switches between the two
    themes, so toggling twice gives the theme back. Any stored entry
    other than the two theme names, and a missing entry, start the
    application in the light theme. *)
Theorem theme_roundtrip (theme : Theme) (stored : option string) :
  initialTheme (persistTheme theme) = theme
  ∧ toggleTheme (toggleTheme theme) = theme
  ∧ toggleTheme theme ≠ theme
  ∧ initialTheme (persistTheme (toggleTheme (initialTheme stored)))
    = toggleTheme (initialTheme stored)
  ∧ (stored ≠ Some "dark" → initialTheme stored = Light)
  ∧ (initialTheme stored = Dark ↔ stored = Some "dark").
Proof.
  split; [by destruct theme|]. split; [by destruct theme|].
  split; [by destruct theme|]. split; [by destruct (initialTheme stored)|].
  assert (H : initialTheme stored = Dark ↔ stored = Some "dark").
  { destruct stored as [s|]; simpl; [|done].
    destruct (decide (s = "light")) as [->|]; [done|].
    destruct (decide (s = "dark")) as [->|]; [done|].
    split; [done|]. by intros [= ?]. }
  split; [|done].
  intros Hne. destruct (initialTheme stored); [done|].
  by destruct Hne, (proj1 H).
Qed.

(* ------------------------------------------------------------------ *)
(** ** More on the loader *)
(* ------------------------------------------------------------------ *)

Lemma withInputText_Some group y :
  withInputText group = Some y → hasInputText y.
Proof.
  unfold withInputText.
  destruct (getProp group "inputText") as [inputText|]; [|done].
  simpl. intros [= <-]. eexists _, _. split; [done|].
  split; [apply lookup_insert_eq|].
  by destruct inputText as [[]|].
Qed.

(** X20. What the loader guarantees for every stored entry, well formed
    or not. The state it returns has the current version, and each of its
    groups is an object whose [inputText] is present and not [null]. The
    defaulting is all or nothing: if the stored array of groups holds a
    [null], the canonical empty state is returned, library included.
    And the defaulting is done once: a state that went through save and
    load is reproduced exactly by every further save and load. *)
Theorem loader_guarantees (item : StoredItem) :
  loaded_version (loadStoredState item) = STORAGE_VERSION
  ∧ Forall hasInputText (loaded_stepGroups (loadStoredState item))
  ∧ (∀ props items,
       item = ItemJson (JObj props) →
       props !! "stepGroups" = Some (JArr items) → JNull ∈ items →
       loadStoredState item = emptyLoaded)
  ∧ (∀ st : Store,
       let reloaded := withDefaults (storedStateOf st) in
       loadStoredState (saveState reloaded) = loadedOf reloaded).
Proof.
  split; [|split; [|split]].
  - destruct item as [| | | |parsed]; try done. simpl.
    destruct (negb (truthy parsed)); [done|].
    destruct (getProp parsed "version") as [[[]|]|]; try done.
    destruct (negb _); [done|].
    by destruct (match arrayItems _ with Some _ => _ | None => _ end).
  - destruct item as [| | | |parsed]; try by constructor. simpl.
    destruct (negb (truthy parsed)); [by constructor|].
    destruct (getProp parsed "version") as [[[]|]|]; try by constructor.
    destruct (negb _); [by constructor|].
    destruct (arrayItems (default None (getProp parsed "stepGroups")))
      as [items|]; [|by constructor].
    destruct (mapM withInputText items) as [groups|] eqn:E; [|by constructor].
    simpl. apply mapM_Some in E. apply Forall_forall. intros y Hy.
    apply list_elem_of_lookup in Hy as [i Hi].
    destruct (Forall2_lookup_r _ _ _ _ _ E Hi) as (x & _ & Hx).
    by eapply withInputText_Some.
  - intros props items -> Hgroups Hnull.
    assert (Hv : props !! "version" = Some (JNum STORAGE_VERSION)
                 ∨ props !! "version" ≠ Some (JNum STORAGE_VERSION)).
    { destruct (props !! "version") as [[| |v| | |]|]; try (by right).
      destruct (decide (v = STORAGE_VERSION)) as [->|]; [by left|right].
      by intros [= ?]. }
    destruct Hv as [Hv|Hv].
    + rewrite loadStoredState_current by done. rewrite Hgroups.
      cbn [arrayItems]. by rewrite mapM_withInputText_null.
    + by apply loadStoredState_other_version.
  - intros st reloaded.
    rewrite loadStoredState_saveState. f_equal.
    apply withDefaults_id. unfold reloaded, withDefaults. simpl.
    apply Forall_fmap, Forall_forall. intros g _. simpl. by eexists.
Qed.

(* ------------------------------------------------------------------ *)
(** ** A deletion that runs later *)
(* ------------------------------------------------------------------ *)

Lemma find_Forall2_same {A : Type} (P : A → Prop) `{!∀ x, Decision (P x)}
  (l l' : list A) :
  Forall2 (λ x y, (P x ↔ P y) ∧ (P x → y = x)) l l' →
  JsArray.find P l' = JsArray.find P l.
Proof.
  induction 1 as [|x y l l' [Hiff Hsame] _ IH]; [done|].
  rewrite !find_cons. destruct (decide (P x)) as [p|n].
  - rewrite decide_True by tauto. by rewrite Hsame.
  - rewrite decide_False by tauto. done.
Qed.

(** X25. The deletion behind [requestDeleteStep] acts on the group that
    was active when it was requested. If nothing happened in between, it
    is [deleteStep]. In general, when the timer fires, every group
    carrying the id of the group active at request time loses its steps
    carrying [id], and every other group is left exactly as it is, so the
    steps of a group the user has switched to meanwhile are untouched; the
    group selection is unchanged, and the step selection is unchanged
    unless the step was the one selected at request time. A request made
    without an active group deletes nothing. The mark set while the
    deletion is pending is removed at the end, and no other mark is. *)
Theorem delayed_delete_uses_request_time_group (clock : nat → Z)
  (captured now : Store) (id : string) (deleting : gset string) :
  let after := exec (deleteStepFrom clock captured id) now in
  exec (deleteStepFrom clock now id) now = exec (deleteStep clock id) now
  ∧ (∀ active, activeGroup captured = Some active →
       Forall2 (λ g g', group_id g' = group_id g
                        ∧ (group_id g = group_id active →
                           group_steps g'
                           = filter (λ step, step_id step ≠ id) (group_steps g))
                        ∧ (group_id g ≠ group_id active → g' = g))
         (stepGroups now) (stepGroups after)
       ∧ (selectedGroupId now ≠ Some (group_id active) →
          activeGroup after = activeGroup now
          ∧ activeSteps after = activeSteps now))
  ∧ selectedGroupId after = selectedGroupId now
  ∧ librarySteps after = librarySteps now
  ∧ (selectedStepId captured ≠ Some id →
     selectedStepId after = selectedStepId now)
  ∧ (activeGroup captured = None → after = now)
  ∧ ((id ∉ unmarkDeleting id (markDeleting id deleting))
     ∧ ∀ other, other ≠ id →
         (other ∈ unmarkDeleting id (markDeleting id deleting)
          ↔ other ∈ deleting)).
Proof.
  intros after.
  assert (Hproj : ∀ {T : Type} (proj : Store → T),
            (∀ v s, proj (setStepGroups v s) = proj s) →
            (∀ n s, proj (setTicks n s) = proj s) →
            (∀ v s, selectedStepId captured = Some id →
                    proj (setSelectedStepId v s) = proj s) →
            proj after = proj now).
  { intros T proj H1 H2 H3. unfold after, exec, deleteStepFrom.
    destruct (activeGroup captured) as [active|]; [|done].
    unfold bind, getStore, modify. cbn [fst snd]. rewrite H1.
    apply (traverse_preserves _ proj). intros x s.
    unfold updateGroupOf. destruct (decide _); [|done].
    unfold bind, dateNow, ret. cbn [fst snd]. rewrite H2.
    destruct (decide (selectedStepId captured = Some id)) as [Hc|Hc]; [|done].
    cbn [fst snd modify]. by apply H3. }
  split; [|split; [|split; [|split; [|split; [|split]]]]].
  - unfold exec, deleteStepFrom, deleteStep, updateActiveSteps, bind, getStore.
    cbn [fst snd]. by destruct (activeGroup now).
  - intros active Hact.
    assert (HF : Forall2 (λ g g', group_id g' = group_id g
                        ∧ (group_id g = group_id active →
                           group_steps g'
                           = filter (λ step, step_id step ≠ id) (group_steps g))
                        ∧ (group_id g ≠ group_id active → g' = g))
                   (stepGroups now) (stepGroups after)).
    { unfold after, exec, deleteStepFrom. rewrite Hact.
      unfold bind, getStore, modify. cbn [fst snd stepGroups setStepGroups].
      apply traverse_Forall2. intros x s. unfold updateGroupOf.
      destruct (decide _) as [Heq|Hneq]; [|done].
      unfold bind, dateNow, ret. cbn [fst snd group_id group_steps].
      split; [done|]. split; [|done]. intros _.
      by destruct (decide (selectedStepId captured = Some id)). }
    split; [exact HF|]. intros Hother.
    assert (Hsel : selectedGroupId after = selectedGroupId now).
    { by apply (Hproj _ selectedGroupId). }
    assert (Hag : activeGroup after = activeGroup now).
    { unfold activeGroup. rewrite Hsel. apply find_Forall2_same.
      eapply Forall2_impl; [exact HF|]. intros a b (Hid & _ & Hsame).
      split; [by rewrite Hid|]. intros Ha. apply Hsame. intros Heq.
      apply Hother. by rewrite Ha, Heq. }
    split; [exact Hag|]. unfold activeSteps. by rewrite Hag.
  - by apply (Hproj _ selectedGroupId).
  - by apply (Hproj _ librarySteps).
  - intros Hne. apply (Hproj _ selectedStepId); try done.
  - intros Hnone. unfold after, exec, deleteStepFrom. by rewrite Hnone.
  - unfold unmarkDeleting, markDeleting. split.
    + rewrite elem_of_difference, elem_of_singleton. tauto.
    + intros other Hne.
      rewrite elem_of_difference, elem_of_union, !elem_of_singleton. tauto.
Qed.

(* ------------------------------------------------------------------ *)
(** ** The two generations of the application *)
(* ------------------------------------------------------------------ *)

Lemma setSelectedStepId_same st : setSelectedStepId (selectedStepId st) st = st.
Proof. by destruct st. Qed.

(** Selections the repair effect treats alike: anything that is not the
    non-empty id of an active step is replaced as [null] is. *)
Lemma repairSelection_stale v st :
  falsy v = true ∨ ¬ Exists (λ step, Some (step_id step) = v) (activeSteps st) →
  repairSelection (setSelectedStepId v st)
  = repairSelection (setSelectedStepId None st).
Proof.
  intros Hv. unfold repairSelection.
  change (activeGroup (setSelectedStepId v st)) with (activeGroup st).
  change (activeGroup (setSelectedStepId None st)) with (activeGroup st).
  change (activeSteps (setSelectedStepId v st)) with (activeSteps st).
  change (activeSteps (setSelectedStepId None st)) with (activeSteps st).
  destruct (activeGroup st); [|done].
  destruct (activeSteps st) as [|first rest] eqn:Hsteps; [done|].
  cbn [selectedStepId setSelectedStepId falsy orb].
  destruct Hv as [Hv|Hv].
  - by rewrite Hv.
  - rewrite (bool_decide_eq_false_2 _ Hv). by rewrite orb_true_r.
Qed.

(** A store the repair effect leaves alone has no selection, or the
    selection is the id of an active step. *)
Lemma repaired_selection st i :
  repairSelection st = st → selectedStepId st = Some i →
  i ∈ (step_id <$> activeSteps st).
Proof.
  intros Hfix Hsel. unfold repairSelection in Hfix.
  destruct (activeGroup st) as [active|].
  2:{ apply (f_equal selectedStepId) in Hfix. simpl in Hfix. congruence. }
  destruct (activeSteps st) as [|first rest] eqn:Hsteps.
  { apply (f_equal selectedStepId) in Hfix. simpl in Hfix. congruence. }
  destruct (bool_decide (Exists (λ step, Some (step_id step) = selectedStepId st)
                           (first :: rest))) eqn:Hex.
  - apply bool_decide_eq_true in Hex. rewrite Hsel in Hex.
    apply Exists_exists in Hex as (x & Hin & [= Hx]).
    rewrite <- Hx. by apply list_elem_of_fmap_2.
  - rewrite orb_true_r in Hfix.
    apply (f_equal selectedStepId) in Hfix. simpl in Hfix.
    rewrite Hsel in Hfix. injection Hfix as <-.
    apply list_elem_of_here.
Qed.

Lemma groups_disjoint_steps (groups : list StepGroup) g h i :
  NoDup (groups ≫= groupIds) → g ∈ groups → h ∈ groups →
  group_id g ≠ group_id h →
  i ∈ (step_id <$> group_steps g) → i ∉ (step_id <$> group_steps h).
Proof.
  intros Hnd Hg Hh Hne Hig Hih.
  assert (Hin : ∀ (x : StepGroup) l, x ∈ l →
            ∀ j, j ∈ (step_id <$> group_steps x) → j ∈ l ≫= groupIds).
  { intros x l Hx j Hj. apply list_elem_of_bind. exists x. split; [|done].
    unfold groupIds. by apply list_elem_of_further. }
  induction groups as [|x l IH]; [by apply elem_of_nil in Hg|].
  rewrite bind_cons in Hnd. apply NoDup_app in Hnd as (_ & Hdis & Hnd).
  apply elem_of_cons in Hg as [->|Hg], Hh as [->|Hh].
  - done.
  - apply (Hdis i).
    + unfold groupIds. by apply list_elem_of_further.
    + by eapply Hin.
  - apply (Hdis i).
    + unfold groupIds. by apply list_elem_of_further.
    + by eapply Hin.
  - by apply IH.
Qed.

Lemma group_ids_sublist (groups : list StepGroup) :
  group_id <$> groups `sublist_of` groups ≫= groupIds.
Proof.
  induction groups as [|x l IH]; [done|].
  rewrite fmap_cons, bind_cons. unfold groupIds at 1. simpl.
  apply sublist_skip. by apply sublist_inserts_l.
Qed.

Lemma Forall2_impl_Forall {A B : Type} (R S : A → B → Prop) (P : A → Prop)
  l k :
  Forall2 R l k → Forall P l → (∀ x y, P x → R x y → S x y) → Forall2 S l k.
Proof.
  intros HF HP HS. induction HF as [|x y l k HR HF IH]; [constructor|].
  apply Forall_cons in HP as [Hx HP]. constructor; [by apply HS|by apply IH].
Qed.

Lemma sameStoreButInputStamp_refl st : sameStoreButInputStamp st st.
Proof.
  split; [|done]. apply Forall_Forall2_diag, Forall_forall.
  intros x _. by repeat split.
Qed.

Section SettleFacts.
Variable clock : nat → Z.

(** The write-back changes, in the active group, [updatedAt] and an
    absent [inputText], and nothing else in the store. *)
Lemma writeBackInputText_related st :
  NoDup (group_id <$> stepGroups st) →
  sameStoreButInputStamp st (exec (writeBackInputText clock) st).
Proof.
  intros Hnd.
  destruct (activeGroup st) as [active|] eqn:Hact.
  2:{ replace (exec (writeBackInputText clock) st) with st.
      - apply sameStoreButInputStamp_refl.
      - unfold exec, writeBackInputText, onInputTextChange, bind, getStore.
        cbn [fst snd]. by rewrite Hact. }
  set (text := default "" (group_inputText active)).
  assert (Hrun : exec (writeBackInputText clock) st
            = exec (updateGroupInputText clock (group_id active) text) st).
  { unfold exec, writeBackInputText, onInputTextChange, bind, getStore.
    cbn [fst snd]. rewrite Hact. unfold initialInputText. by rewrite Hact. }
  rewrite Hrun. clear Hrun.
  pose (f := λ group : StepGroup,
         if decide (group_id group = group_id active)
         then t <- dateNow clock ;;
              ret (mkGroup (group_id group) (group_title group)
                     (group_steps group) (group_createdAt group) t (Some text))
         else ret group).
  pose (r := traverse f (stepGroups st) st).
  change (exec (updateGroupInputText clock (group_id active) text) st)
    with (setStepGroups r.1 r.2).
  pose (R := λ x y : StepGroup,
          (group_id x = group_id active →
           ∃ t, y = mkGroup (group_id x) (group_title x) (group_steps x)
                      (group_createdAt x) t (Some text))
          ∧ (group_id x ≠ group_id active → y = x)).
  assert (HF : Forall2 R (stepGroups st) r.1).
  { apply traverse_Forall2. intros x s. unfold f, R.
    destruct (decide _); [|done]. split; [|done]. intros _. by eexists. }
  assert (HP : Forall (λ x, group_id x = group_id active → x = active)
                 (stepGroups st)).
  { destruct (activeGroup_unique_split _ _ Hnd Hact)
      as (pre & post & -> & Hpre & Hpost).
    apply Forall_app. split; [|apply Forall_cons; split].
    - eapply Forall_impl; [exact Hpre|]. by intros x Hx Hid.
    - done.
    - eapply Forall_impl; [exact Hpost|]. by intros x Hx Hid. }
  split; [|split; [|split; [|split]]].
  - cbn [stepGroups setStepGroups].
    apply (Forall2_impl_Forall _ _ _ _ _ HF HP).
    intros x y Hx [Hhit Hmiss].
    destruct (decide (group_id x = group_id active)) as [Hid|Hid].
    + destruct (Hhit Hid) as [t ->]. rewrite (Hx Hid). by repeat split.
    + rewrite (Hmiss Hid). by repeat split.
  - apply (traverse_preserves f selectedGroupId). intros x s. unfold f.
    by destruct (decide _).
  - apply (traverse_preserves f selectedStepId). intros x s. unfold f.
    by destruct (decide _).
  - apply (traverse_preserves f librarySteps). intros x s. unfold f.
    by destruct (decide _).
  - apply (traverse_preserves f selectedLibraryStepId). intros x s. unfold f.
    by destruct (decide _).
Qed.

Lemma traverse_setSelectedStepId {A B : Type} (f : A → M B) v l st :
  (∀ x s, f x (setSelectedStepId v s)
          = ((f x s).1, setSelectedStepId v (f x s).2)) →
  traverse f l (setSelectedStepId v st)
  = ((traverse f l st).1, setSelectedStepId v (traverse f l st).2).
Proof.
  intros Hf. revert st. induction l as [|x l IH]; intros st; [done|].
  rewrite !traverse_cons. rewrite Hf. cbn [fst snd]. by rewrite IH.
Qed.

(** The write-back does not look at the step selection. *)
Lemma writeBackInputText_setSelectedStepId v st :
  exec (writeBackInputText clock) (setSelectedStepId v st)
  = setSelectedStepId v (exec (writeBackInputText clock) st).
Proof.
  unfold exec, writeBackInputText, onInputTextChange, bind, getStore.
  cbn [fst snd].
  change (initialInputText (setSelectedStepId v st)) with (initialInputText st).
  change (activeGroup (setSelectedStepId v st)) with (activeGroup st).
  destruct (activeGroup st) as [active|]; [|done].
  unfold updateGroupInputText, bind, getStore, modify. cbn [fst snd].
  change (stepGroups (setSelectedStepId v st)) with (stepGroups st).
  rewrite traverse_setSelectedStepId; [done|].
  intros x s. by destruct (decide _).
Qed.

Lemma traverse_miss {A : Type} (f : A → M A) l st :
  Forall (λ x, ∀ s, f x s = (x, s)) l → traverse f l st = (l, st).
Proof.
  intros H. revert st. induction H as [|x l Hx _ IH]; intros st; [done|].
  rewrite traverse_cons, Hx. cbn [fst snd]. by rewrite IH.
Qed.

(** What the write-back leaves in the active group. *)
Lemma writeBackInputText_active st active :
  activeGroup st = Some active →
  activeGroup (exec (writeBackInputText clock) st)
  = Some (mkGroup (group_id active) (group_title active) (group_steps active)
            (group_createdAt active) (clock (ticks st))
            (Some (default "" (group_inputText active)))).
Proof.
  intros Hact.
  destruct (activeGroup_split _ _ Hact) as (pre & post & Hl & Hpre & Hsel).
  set (text := default "" (group_inputText active)).
  pose (f := λ group : StepGroup,
         if decide (group_id group = group_id active)
         then t <- dateNow clock ;;
              ret (mkGroup (group_id group) (group_title group)
                     (group_steps group) (group_createdAt group) t (Some text))
         else ret group).
  assert (Hrun : exec (writeBackInputText clock) st
            = setStepGroups (traverse f (stepGroups st) st).1
                (traverse f (stepGroups st) st).2).
  { unfold exec, writeBackInputText, onInputTextChange, bind, getStore.
    cbn [fst snd]. rewrite Hact. unfold initialInputText. by rewrite Hact. }
  rewrite Hrun. unfold activeGroup.
  cbn [stepGroups selectedGroupId setStepGroups].
  rewrite (traverse_preserves f selectedGroupId).
  2:{ intros x s. unfold f. by destruct (decide _). }
  rewrite Hsel, Hl, traverse_app.
  rewrite (traverse_miss f pre st).
  2:{ eapply Forall_impl; [exact Hpre|]. intros x Hx s. unfold f.
      by rewrite decide_False. }
  cbn [fst snd]. rewrite traverse_cons. cbn [fst].
  assert (Hf : (f active st).1
            = mkGroup (group_id active) (group_title active)
                (group_steps active) (group_createdAt active)
                (clock (ticks st)) (Some text)).
  { unfold f. by rewrite decide_True. }
  rewrite Hf. apply find_first; [|done].
  eapply Forall_impl; [exact Hpre|]. intros x Hx [= Hid]. by apply Hx.
Qed.

(** It keeps the ids and the steps of every group, and the selections. *)
Lemma writeBackInputText_steps st :
  let st' := exec (writeBackInputText clock) st in
  activeSteps st' = activeSteps st
  ∧ (is_Some (activeGroup st') ↔ is_Some (activeGroup st))
  ∧ selectedStepId st' = selectedStepId st.
Proof.
  intros st'.
  assert (H : Forall2 (λ x y, group_id y = group_id x
                              ∧ group_steps y = group_steps x)
                (stepGroups st) (stepGroups st')
              ∧ selectedGroupId st' = selectedGroupId st
              ∧ selectedStepId st' = selectedStepId st).
  { unfold st', exec, writeBackInputText, onInputTextChange, bind, getStore.
    cbn [fst snd].
    destruct (activeGroup st) as [active|].
    2:{ split; [|done]. apply Forall_Forall2_diag, Forall_forall. done. }
    unfold updateGroupInputText, bind, getStore, modify. cbn [fst snd].
    cbn [stepGroups selectedGroupId selectedStepId setStepGroups].
    split; [|split].
    - apply traverse_Forall2. intros x s. by destruct (decide _).
    - apply (traverse_preserves _ selectedGroupId). intros x s.
      by destruct (decide _).
    - apply (traverse_preserves _ selectedStepId). intros x s.
      by destruct (decide _). }
  destruct H as (HF & Hg & Hs).
  assert (Hag : option_Forall2 (λ x y, group_id y = group_id x
                                       ∧ group_steps y = group_steps x)
                  (activeGroup st) (activeGroup st')).
  { unfold activeGroup. rewrite Hg.
    apply (find_Forall2 _ _ _ _ _ HF). intros x y (Hid & _). by rewrite Hid. }
  split; [|split; [|done]].
  - unfold activeSteps. by destruct Hag as [x y [_ Hsteps]|].
  - destruct Hag; split; intros [? [=]]; by eexists.
Qed.

(** So the two effects can run in either order. *)
Lemma repairSelection_writeBackInputText st :
  repairSelection (exec (writeBackInputText clock) st)
  = exec (writeBackInputText clock) (repairSelection st).
Proof.
  destruct (writeBackInputText_steps st) as (Hsteps & Hsome & Hsel).
  unfold repairSelection. rewrite Hsteps, Hsel.
  destruct (activeGroup (exec (writeBackInputText clock) st)) as [active'|]
    eqn:Hact', (activeGroup st) as [active|] eqn:Hact.
  - destruct (activeSteps st) as [|first rest].
    + by rewrite writeBackInputText_setSelectedStepId.
    + destruct (_ || _); [|done].
      by rewrite writeBackInputText_setSelectedStepId.
  - destruct (proj1 Hsome) as [? [=]]. by eexists.
  - destruct (proj2 Hsome) as [? [=]]. by eexists.
  - by rewrite writeBackInputText_setSelectedStepId.
Qed.

End SettleFacts.

(** The repair of the selection looks at the ids and at the steps only. *)
Lemma repairSelection_related st st' :
  sameStoreButInputStamp st st' →
  sameStoreButInputStamp (repairSelection st) (repairSelection st').
Proof.
  intros (HF & Hg & Hs & Hl & Hsl).
  assert (Hag : option_Forall2 sameGroupButInputStamp (activeGroup st)
                  (activeGroup st')).
  { unfold activeGroup. rewrite Hg.
    apply (find_Forall2 _ _ sameGroupButInputStamp _ _ HF).
    intros x y (Hid & _). by rewrite Hid. }
  assert (Hsteps : activeSteps st' = activeSteps st).
  { unfold activeSteps.
    destruct Hag as [x y (_ & _ & Hsteps & _)|]; [|done]. done. }
  assert (Hset : ∀ v, sameStoreButInputStamp (setSelectedStepId v st)
                        (setSelectedStepId v st')).
  { intros v. by repeat split. }
  unfold repairSelection. rewrite Hsteps, Hs.
  destruct Hag as [x y _|]; [|apply Hset].
  destruct (activeSteps st) as [|first rest]; [apply Hset|].
  destruct (_ || _); [apply Hset|]. by repeat split.
Qed.

(** X23. The two generations of [addGroup] and [deleteGroup]. The ones of
    [App.tsx] clear the step selection themselves (when a group is added,
    and when the selected group is deleted); the ones of [useStepGroups]
    leave it to the repair effect, and as far as the operation and that
    effect go, both end in the same store. The hook-based application
    runs one more effect when the active group changes: the write-back of
    [usePipeline] may store, in the group that is now active, its own
    input text (the empty string when it had none) and the time as the
    new [updatedAt], and does nothing without an active group;
    [App.tsx] has no such effect. The write-back and the repair can run
    in either order. Whether or not the write-back runs, the
    two applications end with the same groups in the same order, with
    the same ids, titles, steps and [createdAt], the same input text
    read with the default [""], the same two selections and the same
    library: they can differ only in [updatedAt] and in an [inputText]
    that is absent in one and empty in the other. All this holds
    provided the store they start from has no identifier twice and a
    step selection the repair effect accepts, and, for [addGroup], the
    identifier handed out is not already a group's. *)
Theorem group_operations_agree_after_repair (clock : nat → Z)
  (randomUUID : nat → string) (id : string) (st : Store)
  (writesBack : bool) :
  NoDup (storeIds st) → repairSelection st = st →
  (randomUUID (uuids st) ∉ (group_id <$> stepGroups st) →
     repairSelection (exec (addGroup clock randomUUID) st)
     = repairSelection (exec (addGroup_App clock randomUUID) st)
     ∧ sameStoreButInputStamp
         (repairSelection (exec (addGroup_App clock randomUUID) st))
         (settle clock writesBack (exec (addGroup clock randomUUID) st)))
  ∧ repairSelection (exec (deleteGroup id) st)
    = repairSelection (exec (deleteGroup_App id) st)
  ∧ sameStoreButInputStamp
      (repairSelection (exec (deleteGroup_App id) st))
      (settle clock writesBack (exec (deleteGroup id) st))
  ∧ (∀ st', settle clock false st' = repairSelection st'
            ∧ settle clock true st'
              = exec (writeBackInputText clock) (repairSelection st'))
  ∧ (∀ st', match activeGroup st' with
            | Some active =>
                activeGroup (exec (writeBackInputText clock) st')
                = Some (mkGroup (group_id active) (group_title active)
                          (group_steps active) (group_createdAt active)
                          (clock (ticks st'))
                          (Some (default "" (group_inputText active))))
            | None => exec (writeBackInputText clock) st' = st'
            end).
Proof.
  intros Hnd Hfix.
  assert (Hids : NoDup (group_id <$> stepGroups st)).
  { unfold storeIds in Hnd. apply NoDup_app in Hnd as (Hg & _ & _).
    apply (sublist_NoDup _ (stepGroups st ≫= groupIds) Hg).
    apply group_ids_sublist. }
  assert (Hsettle : ∀ st1 st2,
            NoDup (group_id <$> stepGroups st1) →
            repairSelection st1 = repairSelection st2 →
            sameStoreButInputStamp (repairSelection st2)
              (settle clock writesBack st1)).
  { intros st1 st2 Hnd1 <-. unfold settle. destruct writesBack.
    - apply repairSelection_related. by apply writeBackInputText_related.
    - apply sameStoreButInputStamp_refl. }
  assert (Hdel : repairSelection (exec (deleteGroup id) st)
                 = repairSelection (exec (deleteGroup_App id) st)).
  { destruct (decide (selectedGroupId st = Some id)) as [Hsel|Hsel].
    2:{ unfold exec, deleteGroup, deleteGroup_App, bind, getStore.
        cbn [fst snd]. by rewrite !decide_False by done. }
    set (st1 := exec (deleteGroup id) st).
    assert (Happ : exec (deleteGroup_App id) st = setSelectedStepId None st1).
    { unfold st1, exec, deleteGroup, deleteGroup_App, bind, getStore, modify.
      cbn [fst snd]. by rewrite !decide_True by done. }
    rewrite Happ. rewrite <- (setSelectedStepId_same st1) at 1.
    apply repairSelection_stale.
    assert (Hs1 : selectedStepId st1 = selectedStepId st).
    { unfold st1, exec, deleteGroup, bind, getStore, modify.
      cbn [fst snd]. by rewrite decide_True by done. }
    rewrite Hs1.
    destruct (selectedStepId st) as [i|] eqn:Hi; [|by left].
    right. intros Hex.
    apply Exists_exists in Hex as (x & Hx & [= Hid]).
    pose proof (repaired_selection st i Hfix Hi) as Hold.
    unfold activeSteps in Hold, Hx.
    destruct (activeGroup st) as [g|] eqn:Hg; [|by apply elem_of_nil in Hold].
    destruct (activeGroup st1) as [h|] eqn:Hh; [|by apply elem_of_nil in Hx].
    simpl in Hold, Hx.
    apply find_Some in Hg as [Hgin Hgid].
    apply find_Some in Hh as [Hhin Hhid].
    assert (Hgroups : stepGroups st1
              = filter (λ group, group_id group ≠ id) (stepGroups st)).
    { unfold st1, exec, deleteGroup, bind, getStore, modify.
      cbn [fst snd]. by rewrite decide_True by done. }
    rewrite Hgroups in Hhin. apply list_elem_of_filter in Hhin as [Hhne Hhin].
    unfold storeIds in Hnd. apply NoDup_app in Hnd as (Hnd & _ & _).
    refine (groups_disjoint_steps _ g h i Hnd Hgin Hhin _ Hold _).
    + rewrite Hsel in Hgid. injection Hgid as <-. done.
    + rewrite <- Hid. by apply list_elem_of_fmap_2. }
  split; [|split; [exact Hdel|split; [|split]]].
  3:{ intros st'. split; [done|]. apply repairSelection_writeBackInputText. }
  3:{ intros st'. destruct (activeGroup st') as [active|] eqn:Hact.
      - by apply writeBackInputText_active.
      - unfold exec, writeBackInputText, onInputTextChange, bind, getStore.
        cbn [fst snd]. by rewrite Hact. }
  - intros Hfresh.
    set (st1 := exec (addGroup clock randomUUID) st).
    assert (Hadd : repairSelection st1
                   = repairSelection (exec (addGroup_App clock randomUUID) st)).
    { change (exec (addGroup_App clock randomUUID) st)
        with (setSelectedStepId None st1).
      rewrite <- (setSelectedStepId_same st1) at 1.
      apply repairSelection_stale. right.
      destruct (addGroup_facts clock randomUUID st Hfresh) as [_ Hsteps].
      fold st1 in Hsteps. rewrite Hsteps. by intros ?%Exists_nil. }
    split; [exact Hadd|]. apply Hsettle; [|exact Hadd].
    change (stepGroups st1)
      with (stepGroups st
            ++ [mkGroup (randomUUID (uuids st))
                  ("Group " +:+ showNat (length (stepGroups st) + 1)) []
                  (clock (ticks st)) (clock (S (ticks st))) None]).
    rewrite fmap_app. apply NoDup_app. split; [done|]. split.
    + intros x Hx Hin. apply list_elem_of_singleton in Hin. by subst.
    + apply NoDup_singleton.
  - apply Hsettle; [|exact Hdel].
    assert (Hgroups : stepGroups (exec (deleteGroup id) st)
              = filter (λ group, group_id group ≠ id) (stepGroups st)).
    { unfold exec, deleteGroup, bind, getStore, modify. cbn [fst snd].
      by destruct (decide _). }
    rewrite Hgroups.
    apply (sublist_NoDup _ (group_id <$> stepGroups st)); [done|].
    apply fmap_sublist, sublist_filter.
Qed.

(** X22. The two generations of the loader. The loader of [App.tsx]
    returns a saved state exactly as it was saved, for every state of the
    application; the loader of [utils/storage.ts] is that loader followed
    by the defaulting of [inputText] in every group, on every stored
    entry, well formed or not. *)
Theorem loader_generations (item : StoredItem) (state : StoredState) :
  loadStoredState_App (saveState state) = loadedOf state
  ∧ loadStoredState item = defaultGroups (loadStoredState_App item).
Proof.
  assert (Hgen : ∀ i, loadStoredState i = defaultGroups (loadStoredState_App i)).
  { intros [| | | |parsed]; try done. simpl.
    destruct (negb (truthy parsed)); [done|].
    destruct (getProp parsed "version") as [[[]|]|]; try done.
    destruct (negb _); [done|].
    unfold defaultGroups. simpl.
    by destruct (arrayItems (default None (getProp parsed "stepGroups"))). }
  split; [|apply Hgen].
  unfold saveState, loadStoredState_App, loadedOf.
  cbn [truthy negb getProp].
  set (props := list_to_map _).
  change (props !! "version") with (Some (JNum STORAGE_VERSION)).
  change (props !! "stepGroups")
    with (Some (JArr (jsGroup <$> stored_stepGroups state))).
  change (props !! "selectedGroupId")
    with (Some (jsNullable (stored_selectedGroupId state))).
  change (props !! "selectedStepId")
    with (Some (jsNullable (stored_selectedStepId state))).
  change (props !! "librarySteps")
    with (Some (JArr (jsLibraryStep <$> stored_librarySteps state))).
  cbn [arrayItems default Z.eqb STORAGE_VERSION Pos.eqb negb].
  f_equal.
  - by destruct (stored_selectedGroupId state).
  - by destruct (stored_selectedStepId state).
Qed.

(* ------------------------------------------------------------------ *)
(** ** Identifiers stay unique *)
(* ------------------------------------------------------------------ *)

Section IdFacts.
Variable clock : nat → Z.
Variable randomUUID : nat → string.

Lemma issued_nil lo : issued randomUUID lo lo = [].
Proof. unfold issued. by rewrite Nat.sub_diag. Qed.

Lemma issued_one lo : issued randomUUID lo (S lo) = [randomUUID lo].
Proof. unfold issued. by replace (S lo - lo)%nat with 1%nat by lia. Qed.

Lemma issued_app lo mid hi :
  (lo ≤ mid)%nat → (mid ≤ hi)%nat →
  issued randomUUID lo hi = issued randomUUID lo mid ++ issued randomUUID mid hi.
Proof.
  intros H1 H2. unfold issued. rewrite <- fmap_app. f_equal.
  replace (hi - lo)%nat with ((mid - lo) + (hi - mid))%nat by lia.
  rewrite seq_app. by replace (lo + (mid - lo))%nat with mid by lia.
Qed.

Lemma elem_of_issued lo hi i :
  i ∈ issued randomUUID lo hi ↔ ∃ k : nat, (lo ≤ k < hi)%nat ∧ i = randomUUID k.
Proof.
  unfold issued. rewrite list_elem_of_fmap. split.
  - intros (k & -> & Hk). apply elem_of_seq in Hk. exists k. split; [lia|done].
  - intros (k & Hk & ->). exists k. split; [done|]. apply elem_of_seq. lia.
Qed.

(** An operation that obeys [idsSpec] keeps the identifiers unique, when
    the source never hands out the same identifier twice. *)
Lemma idsSpec_uniqueIds st st' :
  Inj (=) (=) randomUUID →
  idsSpec randomUUID st st' → uniqueIds randomUUID st →
  uniqueIds randomUUID st'.
Proof.
  intros Hinj [Hle Hsub] [Hnd Hold].
  assert (Hall : NoDup (storeIds st ++ issued randomUUID (uuids st) (uuids st'))).
  { apply NoDup_app. split; [done|]. split.
    - intros i Hi (k & Hk & ->)%elem_of_issued.
      destruct (Hold _ Hi) as (k' & Hk' & Heq). apply Hinj in Heq. lia.
    - unfold issued. apply NoDup_fmap_2; [done|apply NoDup_seq]. }
  split.
  - apply submseteq_Permutation in Hsub as [rest Hperm].
    rewrite Hperm in Hall. by apply NoDup_app in Hall as [? _].
  - intros i Hi. apply (elem_of_submseteq _ _ _ Hi) in Hsub.
    apply elem_of_app in Hsub as [Hin|Hin].
    + destruct (Hold _ Hin) as (k & Hk & ->). exists k. split; [lia|done].
    + apply elem_of_issued in Hin as (k & Hk & ->). exists k.
      split; [lia|done].
Qed.

Lemma idsSpec_same st st' :
  uuids st' = uuids st → storeIds st' ⊆+ storeIds st →
  idsSpec randomUUID st st'.
Proof.
  intros Hu Hsub. split; [lia|]. rewrite Hu, issued_nil, app_nil_r. done.
Qed.

Lemma bind_Forall2_eq {A B C : Type} (f : A → list C) (g : B → list C) l k :
  Forall2 (λ x y, f x = g y) l k → l ≫= f = k ≫= g.
Proof.
  induction 1 as [|x y l k Hxy _ IH]; [done|].
  by rewrite !bind_cons, Hxy, IH.
Qed.

Lemma fmap_Forall2_eq {A B C : Type} (f : A → C) (g : B → C) l k :
  Forall2 (λ x y, f x = g y) l k → f <$> l = g <$> k.
Proof.
  induction 1 as [|x y l k Hxy _ IH]; [done|].
  by rewrite !fmap_cons, Hxy, IH.
Qed.

(** Identifiers through an effectful [map]. *)
Lemma traverse_ids {A B : Type} (f : A → M B) (ids : A → list string)
  (ids' : B → list string) l st :
  (∀ x s, (uuids s ≤ uuids (f x s).2)%nat
          ∧ ids' (f x s).1
            ⊆+ ids x ++ issued randomUUID (uuids s) (uuids (f x s).2)) →
  (uuids st ≤ uuids (traverse f l st).2)%nat
  ∧ ((traverse f l st).1 ≫= ids')
    ⊆+ (l ≫= ids) ++ issued randomUUID (uuids st) (uuids (traverse f l st).2).
Proof.
  intros Hf. revert st. induction l as [|x l IH]; intros st.
  - simpl. split; [done|]. by rewrite issued_nil.
  - rewrite traverse_cons. cbn [fst snd].
    destruct (Hf x st) as [Hle Hx].
    destruct (IH (f x st).2) as [Hle' Hrest].
    split; [lia|].
    rewrite !bind_cons.
    rewrite (issued_app (uuids st) (uuids (f x st).2)) by lia.
    etrans; [apply submseteq_app; [exact Hx|exact Hrest]|].
    apply Permutation_submseteq.
    rewrite <- !app_assoc. apply Permutation_app_head.
    rewrite !app_assoc. apply Permutation_app_tail, Permutation_app_comm.
Qed.

Lemma updateActiveSteps_ids g st :
  updaterIds randomUUID g →
  idsSpec randomUUID st (exec (updateActiveSteps clock g) st).
Proof.
  intros Hg.
  destruct (activeGroup st) as [active|] eqn:Hact.
  2:{ rewrite updateActiveSteps_inactive by done. by apply idsSpec_same. }
  rewrite (updateActiveSteps_active _ _ _ _ Hact).
  set (body := updateGroupOf clock active g).
  assert (Hlib : librarySteps (traverse body (stepGroups st) st).2
                 = librarySteps st).
  { apply (traverse_preserves body librarySteps). intros x s.
    unfold body, updateGroupOf. destruct (decide _); [|done].
    unfold bind, dateNow, ret. cbn [fst snd librarySteps setTicks].
    apply Hg. }
  destruct (traverse_ids body groupIds groupIds (stepGroups st) st) as [Hle Hsub].
  { intros x s. unfold body, updateGroupOf.
    destruct (decide _) as [e|n].
    - unfold bind, dateNow, ret. cbn [fst snd uuids setTicks].
      destruct (Hg (group_steps x) s) as (Hle & Hsub & _).
      split; [done|]. unfold groupIds. cbn [group_id group_steps].
      by apply submseteq_skip.
    - unfold ret. cbn [fst snd]. split; [done|]. by rewrite issued_nil, app_nil_r. }
  split; [exact Hle|].
  unfold storeIds. cbn [stepGroups librarySteps setStepGroups uuids].
  rewrite Hlib.
  etrans; [apply submseteq_skips_r, Hsub|].
  apply Permutation_submseteq.
  rewrite <- !app_assoc. apply Permutation_app_head, Permutation_app_comm.
Qed.

Lemma addStep_updaterIds :
  updaterIds randomUUID (λ prev,
    s <- createStep clock randomUUID (length prev + 1) ;;
    let next := prev ++ [s] in
    modify (setSelectedStepId (step_id <$> last next)) ;;;
    ret next).
Proof.
  intros prev s. unfold bind. rewrite createStep_run.
  cbn [fst snd modify ret uuids setSelectedStepId setTicks setUuids librarySteps].
  split; [lia|]. split; [|done].
  by rewrite fmap_app, issued_one.
Qed.

Lemma updateStep_updaterIds id updates :
  ps_id updates = None →
  updaterIds randomUUID (λ prev,
    traverse (λ step,
      if decide (step_id step = id) then
        t <- dateNow clock ;; ret (mergeStep step updates t)
      else ret step) prev).
Proof.
  intros Hkeep prev s.
  set (f := λ step : Step, if decide (step_id step = id) then _ else _).
  assert (Hu : uuids (traverse f prev s).2 = uuids s).
  { apply (traverse_preserves f uuids). intros x s0. unfold f.
    by destruct (decide _). }
  assert (Hl : librarySteps (traverse f prev s).2 = librarySteps s).
  { apply (traverse_preserves f librarySteps). intros x s0. unfold f.
    by destruct (decide _). }
  assert (Hids : step_id <$> prev = step_id <$> (traverse f prev s).1).
  { apply fmap_Forall2_eq, traverse_Forall2. intros x s0. unfold f.
    destruct (decide _); [|done].
    unfold bind, ret, mergeStep. cbn [fst snd step_id]. by rewrite Hkeep. }
  rewrite Hu, issued_nil, app_nil_r, <- Hids. split; [done|]. done.
Qed.

Lemma deleteStep_updaterIds id st :
  updaterIds randomUUID (λ prev,
    let next := filter (λ step, step_id step ≠ id) prev in
    (if decide (selectedStepId st = Some id)
     then modify (setSelectedStepId (step_id <$> head next))
     else ret tt) ;;;
    ret next).
Proof.
  intros prev s. unfold bind.
  assert (Hsub : (step_id <$> filter (λ step, step_id step ≠ id) prev)
                 ⊆+ (step_id <$> prev)).
  { apply fmap_submseteq, sublist_submseteq, sublist_filter. }
  destruct (decide _); cbn [fst snd modify ret uuids setSelectedStepId librarySteps];
    rewrite issued_nil, app_nil_r; done.
Qed.

Lemma moveStep_updaterIds i j :
  updaterIds randomUUID (λ prev, ret (moveItem i j prev)).
Proof.
  intros prev s. cbn [fst snd ret]. rewrite issued_nil, app_nil_r.
  split; [done|]. split; [|done].
  apply Permutation_submseteq, fmap_Permutation, moveItem_perm.
Qed.

Lemma addStepFromLibrary_updaterIds libraryStep index :
  updaterIds randomUUID (λ prev,
    i <- cryptoRandomUUID randomUUID ;;
    c <- dateNow clock ;;
    u <- dateNow clock ;;
    let newStep :=
      mkStep i (lib_title libraryStep) (lib_code libraryStep) false c u in
    let next :=
      match index with
      | Some k => snd (JsArray.splice k 0 [newStep] prev)
      | None => prev ++ [newStep]
      end in
    modify (setSelectedStepId (Some (step_id newStep))) ;;;
    ret next).
Proof.
  intros prev s. unfold bind, cryptoRandomUUID, dateNow.
  cbn [fst snd modify ret uuids setSelectedStepId setTicks setUuids librarySteps].
  split; [lia|]. split; [|done]. rewrite issued_one.
  apply Permutation_submseteq. destruct index as [k|].
  - rewrite splice_insert_position, !fmap_app, fmap_cons.
    rewrite <- Permutation_middle, <- fmap_app, take_drop.
    simpl. by rewrite Permutation_app_comm.
  - by rewrite fmap_app.
Qed.

Lemma storeIds_same_groups st st' :
  Forall2 (λ x y, group_id y = group_id x ∧ group_steps y = group_steps x
                  ∧ group_createdAt y = group_createdAt x)
    (stepGroups st) (stepGroups st') →
  librarySteps st' = librarySteps st →
  storeIds st' = storeIds st.
Proof.
  intros HF Hlib. unfold storeIds. rewrite Hlib. f_equal. symmetry.
  apply bind_Forall2_eq. eapply Forall2_impl; [exact HF|].
  intros x y (Hid & Hsteps & _). unfold groupIds. by rewrite Hid, Hsteps.
Qed.

Lemma perform_idsSpec op st :
  keepsId op → idsSpec randomUUID st (exec (perform clock randomUUID op) st).
Proof.
  intros Hkeep. destruct op; cbn [perform].
  - (* addGroup *)
    split; [cbn; lia|].
    change (uuids (exec (addGroup clock randomUUID) st)) with (S (uuids st)).
    rewrite issued_one. unfold storeIds.
    change (stepGroups (exec (addGroup clock randomUUID) st))
      with (stepGroups st
            ++ [mkGroup (randomUUID (uuids st))
                  ("Group " +:+ showNat (length (stepGroups st) + 1)) []
                  (clock (ticks st)) (clock (S (ticks st))) None]).
    change (librarySteps (exec (addGroup clock randomUUID) st))
      with (librarySteps st).
    rewrite bind_app, bind_singleton. unfold groupIds at 2.
    cbn [group_id group_steps fmap list_fmap].
    apply Permutation_submseteq.
    rewrite <- !app_assoc. apply Permutation_app_head, Permutation_app_comm.
  - (* updateGroupTitle *)
    destruct (groupEdit_frame clock randomUUID (UpdateGroupTitle id title) st I)
      as (HF & Hlib & _).
    cbn [perform] in HF, Hlib.
    apply idsSpec_same.
    + unfold exec, updateGroupTitle, bind, getStore, modify.
      cbn [fst snd uuids setStepGroups].
      apply (traverse_preserves _ uuids). intros x s. by destruct (decide _).
    + by rewrite (storeIds_same_groups _ _ HF Hlib).
  - (* deleteGroup *)
    apply idsSpec_same.
    + unfold exec, deleteGroup, bind, getStore, modify. cbn [fst snd].
      by destruct (decide _).
    + unfold storeIds.
      assert (Hg : stepGroups (exec (deleteGroup id) st)
                   = filter (λ group, group_id group ≠ id) (stepGroups st)).
      { unfold exec, deleteGroup, bind, getStore, modify. cbn [fst snd].
        by destruct (decide _). }
      assert (Hl : librarySteps (exec (deleteGroup id) st) = librarySteps st).
      { unfold exec, deleteGroup, bind, getStore, modify. cbn [fst snd].
        by destruct (decide _). }
      rewrite Hg, Hl. apply submseteq_skips_r, bind_submseteq.
      apply sublist_submseteq, sublist_filter.
  - (* updateGroupInputText *)
    destruct (groupEdit_frame clock randomUUID
                (UpdateGroupInputText id inputText) st I) as (HF & Hlib & _).
    cbn [perform] in HF, Hlib.
    apply idsSpec_same.
    + unfold exec, updateGroupInputText, bind, getStore, modify.
      cbn [fst snd uuids setStepGroups].
      apply (traverse_preserves _ uuids). intros x s. by destruct (decide _).
    + by rewrite (storeIds_same_groups _ _ HF Hlib).
  - by apply idsSpec_same.
  - apply updateActiveSteps_ids, addStep_updaterIds.
  - by apply updateActiveSteps_ids, updateStep_updaterIds.
  - apply (updateActiveSteps_ids _ st), deleteStep_updaterIds.
  - apply updateActiveSteps_ids, moveStep_updaterIds.
  - by apply idsSpec_same.
  - (* addLibraryStep *)
    split; [cbn; lia|].
    change (uuids (exec (addLibraryStep clock randomUUID) st))
      with (S (uuids st)).
    rewrite issued_one. unfold storeIds.
    change (stepGroups (exec (addLibraryStep clock randomUUID) st))
      with (stepGroups st).
    change (librarySteps (exec (addLibraryStep clock randomUUID) st))
      with (librarySteps st
            ++ [mkLibraryStep (randomUUID (uuids st))
                  ("Library Step " +:+ showNat (length (librarySteps st) + 1))
                  DEFAULT_CODE (clock (ticks st)) (clock (S (ticks st)))]).
    rewrite fmap_app. cbn [fmap list_fmap lib_id]. by rewrite app_assoc.
  - (* updateLibraryStep *)
    destruct (libraryMutation_frame clock randomUUID
                (UpdateLibraryStep id updates) st I) as (Hg & _).
    cbn [perform] in Hg. simpl in Hkeep.
    apply idsSpec_same.
    + unfold exec, updateLibraryStep, bind, getStore, modify.
      cbn [fst snd uuids setLibrarySteps].
      apply (traverse_preserves _ uuids). intros x s. by destruct (decide _).
    + unfold storeIds. rewrite Hg. apply submseteq_skips_l.
      unfold exec, updateLibraryStep, bind, getStore, modify.
      cbn [fst snd librarySteps setLibrarySteps].
      match goal with
      | |- lib_id <$> ?l' ⊆+ _ =>
          assert (Heq : lib_id <$> librarySteps st = lib_id <$> l')
      end.
      { apply fmap_Forall2_eq, traverse_Forall2. intros x s.
        destruct (decide _); [|done].
        unfold bind, ret, mergeLibraryStep. cbn [fst snd lib_id].
        by rewrite Hkeep. }
      by rewrite <- Heq.
  - (* deleteLibraryStep *)
    apply idsSpec_same.
    + unfold exec, deleteLibraryStep, bind, getStore, modify. cbn [fst snd].
      by destruct (decide _).
    + unfold storeIds.
      assert (Hg : stepGroups (exec (deleteLibraryStep id) st) = stepGroups st).
      { unfold exec, deleteLibraryStep, bind, getStore, modify. cbn [fst snd].
        by destruct (decide _). }
      assert (Hl : librarySteps (exec (deleteLibraryStep id) st)
                   = filter (λ step, lib_id step ≠ id) (librarySteps st)).
      { unfold exec, deleteLibraryStep, bind, getStore, modify. cbn [fst snd].
        by destruct (decide _). }
      rewrite Hg, Hl. apply submseteq_skips_l, fmap_submseteq.
      apply sublist_submseteq, sublist_filter.
  - (* moveLibraryStep *)
    apply idsSpec_same; [done|]. unfold storeIds.
    rewrite librarySteps_moveLibraryStep.
    change (stepGroups (exec (moveLibraryStep fromIndex toIndex) st))
      with (stepGroups st).
    apply submseteq_skips_l, Permutation_submseteq, fmap_Permutation.
    apply moveItem_perm.
  - (* saveStepToLibrary *)
    destruct stepToSave as [given|]; [|by apply idsSpec_same].
    split; [cbn; lia|].
    change (uuids (exec (saveStepToLibrary clock randomUUID (Some given)) st))
      with (S (uuids st)).
    rewrite issued_one. unfold storeIds.
    change (stepGroups (exec (saveStepToLibrary clock randomUUID (Some given)) st))
      with (stepGroups st).
    unfold exec, saveStepToLibrary, bind, getStore, modify.
    cbn [fst snd librarySteps setLibrarySteps].
    rewrite fmap_app. cbn [fmap list_fmap lib_id]. by rewrite app_assoc.
  - apply updateActiveSteps_ids, addStepFromLibrary_updaterIds.
  - by apply idsSpec_same.
Qed.

Lemma uniqueIds_perform op st :
  Inj (=) (=) randomUUID → keepsId op →
  uniqueIds randomUUID st →
  uniqueIds randomUUID (exec (perform clock randomUUID op) st).
Proof.
  intros Hinj Hkeep. apply idsSpec_uniqueIds; [done|].
  by apply perform_idsSpec.
Qed.

Lemma uniqueIds_performAll ops st :
  Inj (=) (=) randomUUID → Forall keepsId ops →
  uniqueIds randomUUID st →
  uniqueIds randomUUID (performAll clock randomUUID ops st).
Proof.
  intros Hinj Hops. revert st.
  induction Hops as [|op ops Hop _ IH]; intros st Hinv; [done|].
  simpl. apply IH. by apply uniqueIds_perform.
Qed.

Lemma uniqueIds_empty : uniqueIds randomUUID emptyStore.
Proof. split; [constructor|]. by intros i ?%elem_of_nil. Qed.

Lemma uniqueIds_groups st :
  uniqueIds randomUUID st →
  NoDup (group_id <$> stepGroups st)
  ∧ NoDup (step_id <$> activeSteps st)
  ∧ NoDup (lib_id <$> librarySteps st).
Proof.
  intros [Hnd _]. unfold storeIds in Hnd.
  apply NoDup_app in Hnd as (Hg & _ & Hl). split; [|split; [|done]].
  - apply (sublist_NoDup _ (stepGroups st ≫= groupIds) Hg).
    apply group_ids_sublist.
  - unfold activeSteps.
    destruct (activeGroup st) as [active|] eqn:Hact; [|constructor].
    apply find_Some in Hact as [Hin _]. simpl.
    apply list_elem_of_split in Hin as (l1 & l2 & Heq).
    rewrite Heq, bind_app, bind_cons in Hg.
    apply NoDup_app in Hg as (_ & _ & Hg).
    apply NoDup_app in Hg as (Hg & _ & _).
    unfold groupIds in Hg. by apply NoDup_cons in Hg as [_ ?].
Qed.

End IdFacts.

(** X21. Identifiers stay unique. When the identifier source never hands
    out the same identifier twice and no update payload carries an [id],
    every operation keeps this invariant of the store: no identifier
    occurs twice among the groups, all their steps and the library steps,
    and each of them was handed out by the source. So in every store
    reached from the empty store the groups have distinct ids (the active
    group is the only group carrying the selected id), the active steps
    have distinct ids and so have the library steps. *)
Theorem ids_stay_unique (clock : nat → Z) (randomUUID : nat → string) :
  Inj (=) (=) randomUUID →
  (∀ op st, keepsId op → uniqueIds randomUUID st →
     uniqueIds randomUUID (exec (perform clock randomUUID op) st))
  ∧ (∀ ops, Forall keepsId ops →
       let st := performAll clock randomUUID ops emptyStore in
       uniqueIds randomUUID st
       ∧ NoDup (group_id <$> stepGroups st)
       ∧ NoDup (step_id <$> activeSteps st)
       ∧ NoDup (lib_id <$> librarySteps st)).
Proof.
  intros Hinj. split.
  - intros op st Hkeep Hst. by apply uniqueIds_perform.
  - intros ops Hops st.
    assert (Hst : uniqueIds randomUUID st).
    { apply uniqueIds_performAll; [done|done|apply uniqueIds_empty]. }
    split; [done|]. by apply (uniqueIds_groups randomUUID).
Qed.

(* ------------------------------------------------------------------ *)
(** ** Instances of the further properties *)
(* ------------------------------------------------------------------ *)

Lemma to_uint_nonnil n : Nat.to_uint n ≠ Decimal.Nil.
Proof.
  intros H. pose proof (DecimalNat.Unsigned.of_to n) as Hn. rewrite H in Hn.
  simpl in Hn. subst n. discriminate H.
Qed.

Lemma showNat_inj : Inj (=) (=) showNat.
Proof.
  intros a b H. unfold showNat in H.
  apply (f_equal NilZero.uint_of_string) in H.
  rewrite !NilZero.usu in H by apply to_uint_nonnil.
  injection H as H. by apply DecimalNat.Unsigned.to_uint_inj.
Qed.

Lemma sampleUUID_inj : Inj (=) (=) sampleUUID.
Proof.
  intros a b H. unfold sampleUUID in H. apply showNat_inj.
  by injection H.
Qed.

(** X21 on the run of seven operations. *)
Lemma ids_stay_unique_witness :
  NoDup (group_id
           <$> stepGroups (performAll sampleClock sampleUUID sampleOps emptyStore)).
Proof.
  refine (proj1 (proj2 (proj2 (ids_stay_unique sampleClock sampleUUID
                                 sampleUUID_inj) sampleOps _))).
  repeat constructor.
Defined.

(** X2 on the store with one step. *)
Lemma addStep_contract_witness :
  activeGroup sampleStore
  = Some (mkGroup "g" "Group 1" [sampleStep "s" "return input" false] 0 0 None)
  ∧ activeSteps (exec (addStep sampleClock sampleUUID) sampleStore)
    = [sampleStep "s" "return input" false;
       mkStep "id-0" "title 2" "return input" false 1000 1001].
Proof.
  split; [reflexivity|].
  exact (proj1 (addStep_contract sampleClock sampleUUID sampleStore _ eq_refl)).
Defined.

(** X3 on the store with three steps. *)
Lemma addStep_then_deleteStep_witness :
  (sampleUUID (uuids sampleStore3) ∉ (step_id <$> activeSteps sampleStore3))
  ∧ activeSteps
      (exec (deleteStep sampleClock "id-0")
         (exec (addStep sampleClock sampleUUID) sampleStore3))
    = activeSteps sampleStore3.
Proof.
  assert (H : sampleUUID (uuids sampleStore3)
              ∉ (step_id <$> activeSteps sampleStore3)).
  { intros H. vm_compute in H. repeat (apply elem_of_cons in H as [H|H]; [discriminate H|]).
    by apply elem_of_nil in H. }
  split; [exact H|].
  exact (addStep_then_deleteStep sampleClock sampleUUID sampleStore3 H).
Defined.

(** X4: a template dropped in front of the second step. *)
Lemma addStepFromLibrary_contract_witness :
  activeSteps
    (exec (addStepFromLibrary sampleClock sampleUUID
             (mkLibraryStep "t" "Template" "return input" 0 0) (Some 1%Z))
       sampleStore3) !! 1%nat
  = Some (mkStep "id-0" "Template" "return input" false 1000 1001).
Proof.
  refine (proj2 (proj1 (proj2 (proj2
    (addStepFromLibrary_contract sampleClock sampleUUID
       (mkLibraryStep "t" "Template" "return input" 0 0) (Some 1%Z)
       sampleStore3 _ eq_refl))) 1%nat eq_refl _)).
  simpl. lia.
Defined.

(** X10 on the second step of the three. *)
Lemma mute_runs_like_delete_witness :
  JsArray.find (λ s, step_id s = "b") (activeSteps sampleStore3)
  = Some (sampleStep "b" "return input + '!'" false)
  ∧ executePipeline sampleEngine "hello"
      (activeSteps (exec (onToggleMuted sampleClock "b") sampleStore3))
      ScopeAll None
    = executePipeline sampleEngine "hello"
        (activeSteps (exec (deleteStep sampleClock "b") sampleStore3))
        ScopeAll None.
Proof.
  split; [reflexivity|].
  exact (proj1 (proj2 (proj2
    (mute_runs_like_delete sampleClock sampleEngine "b" sampleStore3
       (sampleStep "b" "return input + '!'" false) "hello" None
       eq_refl eq_refl)))).
Defined.

(** X13: the first step dropped on the third. *)
Lemma drag_reorders_witness :
  "c" ≠ LIBRARY_DROPPABLE
  ∧ activeSteps (exec (handleDragEnd sampleClock sampleUUID "a" (Some "c"))
                   sampleStore3)
    = [sampleStep "b" "return input + '!'" false;
       sampleStep "c" "return null" true;
       sampleStep "a" "return input" false].
Proof.
  assert (H : "c" ≠ LIBRARY_DROPPABLE) by discriminate.
  split; [exact H|].
  refine (proj1 (proj1 (drag_reorders sampleClock sampleUUID sampleStore3
                          "a" "c" H) _ _)).
  - apply list_elem_of_here.
  - do 2 apply list_elem_of_further. apply list_elem_of_here.
Defined.

(** X15 on the pipeline whose second evaluated step throws, in
    [usePipeline], and on a failing step with the id [__proto__], in
    [App.tsx]. *)
Lemma execute_result_shapes_witness :
  let r :=
    mkExecResult "hello!" (mkRecord {[ "c" := JsString "bad" ]} None)
      (Some (sampleStep "c" "throw new Error('bad')" false)) in
  let r' :=
    mkExecResult "hello!" (mkRecord ∅ (Some (JsString "bad")))
      (Some (sampleStep "__proto__" "throw new Error('bad')" false)) in
  executePipeline sampleEngine "hello" samplePipeline ScopeAll None = Normal r
  ∧ accountsFor sampleEngine "hello" (unmuted samplePipeline) r
  ∧ executePipeline_App sampleEngine "hello" sampleProtoPipeline None ScopeAll
      None
    = Normal r'
  ∧ accountsFor sampleEngine "hello" (unmuted sampleProtoPipeline) r'.
Proof.
  intros r r'.
  assert (H : executePipeline sampleEngine "hello" samplePipeline ScopeAll None
              = Normal r) by reflexivity.
  assert (H' : executePipeline_App sampleEngine "hello" sampleProtoPipeline
                 None ScopeAll None
               = Normal r') by reflexivity.
  split; [exact H|]. split.
  { exact (proj1 (execute_result_shapes sampleEngine "hello" samplePipeline
                    None ScopeAll None r) H). }
  split; [exact H'|].
  exact (proj1 (proj2 (execute_result_shapes sampleEngine "hello"
                         sampleProtoPipeline None ScopeAll None r')) H').
Defined.

(** X17 on the same two pipelines, and on steps that throw an [Error]
    holding a number, holding a symbol, and with a [message] that cannot
    be read. *)
Lemma runPipeline_shows_witness :
  let symbol :=
    JsSymbol "Symbol(s)"
      (ThrownError "Cannot convert a Symbol value to a string") in
  runPipeline sampleEngine "hello" samplePipeline ScopeAll None sampleInherited
  = Shown (mkPipelineView
             ("Error in " +:+ doubleQuote +:+ "title c" +:+ doubleQuote
              +:+ ": bad")
             (mkRecord {[ "c" := JsString "bad" ]} None))
  ∧ runPipeline sampleEngine "hello" sampleProtoPipeline ScopeAll None
      sampleInherited
    = Shown (mkPipelineView
               ("Error in " +:+ doubleQuote +:+ "title __proto__"
                +:+ doubleQuote +:+ ": [object Object]")
               (mkRecord ∅ (Some (JsString "bad"))))
  ∧ runPipeline sampleEngine "hello" sampleOddPipeline ScopeAll None
      sampleInherited
    = Shown (mkPipelineView
               ("Error in " +:+ doubleQuote +:+ "title a" +:+ doubleQuote
                +:+ ": 42")
               (mkRecord {[ "a" := JsOther "42" ]} None))
  ∧ runPipeline sampleEngine "hello"
      [sampleStep "a"
         "throw Object.assign(new Error(), { message: Symbol('s') })" false]
      ScopeAll None sampleInherited
    = ErrorsShown (mkRecord {[ "a" := symbol ]} None)
        (ThrownError "Cannot convert a Symbol value to a string")
  ∧ runPipeline sampleEngine "hello"
      [sampleStep "a"
         "throw Object.defineProperty(new Error(), 'message', { get() { throw 'no' } })"
         false]
      ScopeAll None sampleInherited
    = NothingShown (ThrownValue (JsString "no"))
  ∧ ∀ raised,
      executePipeline sampleEngine "hello" sampleBadPipeline ScopeAll None
      = Throw raised
      ↔ runPipeline sampleEngine "hello" sampleBadPipeline ScopeAll None
          sampleInherited
        = NothingShown raised.
Proof.
  intros symbol.
  split; [reflexivity|]. split; [reflexivity|]. split; [reflexivity|].
  split; [reflexivity|]. split; [reflexivity|].
  exact (proj1 (runPipeline_shows sampleEngine "hello" sampleBadPipeline
                  ScopeAll None sampleInherited)).
Defined.

(** X18: typing [" Ret"] and then [" RetUrn "] in the step search; a
    group search and two library searches. *)
Lemma search_narrows_witness :
  includes (searchQuery sampleToLowerCase sampleTrim " RetUrn ")
    (searchQuery sampleToLowerCase sampleTrim " Ret") = true
  ∧ visibleSteps sampleToLowerCase sampleTrim " RetUrn "
      (activeSteps sampleStore2)
    `sublist_of` visibleSteps sampleToLowerCase sampleTrim " Ret"
                   (activeSteps sampleStore2)
  ∧ visibleSteps sampleToLowerCase sampleTrim " Ret"
      (activeSteps sampleStore2)
    = [sampleStep "a" "return input" false;
       sampleStep "b" "return input + '!'" false]
  ∧ visibleGroups sampleToLowerCase sampleTrim "UP 2 " (stepGroups sampleStore2)
    = [mkGroup "h" "Group 2" [sampleStep "d" "return input" false] 0 0 None]
  ∧ visibleLibrarySteps sampleToLowerCase sampleTrim "temp"
      (librarySteps sampleStore2)
    = [mkLibraryStep "t" "Template" "return input" 0 0]
  ∧ visibleLibrarySteps sampleToLowerCase sampleTrim "output"
      (librarySteps sampleStore2)
    = [].
Proof.
  assert (H : includes (searchQuery sampleToLowerCase sampleTrim " RetUrn ")
                (searchQuery sampleToLowerCase sampleTrim " Ret") = true).
  { reflexivity. }
  split; [exact H|]. split.
  { exact (proj1 (proj2 (proj1
      (search_narrows sampleToLowerCase sampleTrim " RetUrn " " Ret"
         (stepGroups sampleStore2) (activeSteps sampleStore2)
         (librarySteps sampleStore2)) H))). }
  repeat split; vm_compute; reflexivity.
Defined.

(** X23 on the store with two groups: adding a group, with the write-back
    of the input text in the hook-based application, and deleting the
    selected group. *)
Lemma group_operations_agree_after_repair_witness :
  let hooks :=
    settle sampleClock true (exec (addGroup sampleClock sampleUUID) sampleStore2) in
  let single :=
    repairSelection (exec (addGroup_App sampleClock sampleUUID) sampleStore2) in
  NoDup (storeIds sampleStore2)
  ∧ repairSelection sampleStore2 = sampleStore2
  ∧ (sampleUUID (uuids sampleStore2) ∉ (group_id <$> stepGroups sampleStore2))
  ∧ last (stepGroups hooks)
    = Some (mkGroup "id-0" "Group 3" [] 1000 1002 (Some ""))
  ∧ last (stepGroups single)
    = Some (mkGroup "id-0" "Group 3" [] 1000 1001 None)
  ∧ sameStoreButInputStamp single hooks
  ∧ selectedStepId (repairSelection (exec (deleteGroup "g") sampleStore2))
    = Some "d"
  ∧ repairSelection (exec (deleteGroup "g") sampleStore2)
    = repairSelection (exec (deleteGroup_App "g") sampleStore2).
Proof.
  intros hooks single.
  assert (H1 : NoDup (storeIds sampleStore2)).
  { apply (bool_decide_unpack (NoDup (storeIds sampleStore2))).
    vm_compute. exact I. }
  assert (H2 : repairSelection sampleStore2 = sampleStore2) by reflexivity.
  assert (H3 : sampleUUID (uuids sampleStore2)
               ∉ (group_id <$> stepGroups sampleStore2)).
  { apply (bool_decide_unpack
             (sampleUUID (uuids sampleStore2)
              ∉ (group_id <$> stepGroups sampleStore2))).
    vm_compute. exact I. }
  split; [exact H1|]. split; [exact H2|]. split; [exact H3|].
  split; [reflexivity|]. split; [reflexivity|].
  split.
  { exact (proj2 (proj1 (group_operations_agree_after_repair sampleClock
                           sampleUUID "g" sampleStore2 true H1 H2) H3)). }
  split; [reflexivity|].
  exact (proj1 (proj2 (group_operations_agree_after_repair sampleClock
                         sampleUUID "g" sampleStore2 true H1 H2))).
Defined.
